(** * node-adapter: runtime resolution, installation and launch

    A shallow embedding of the launcher of the node adapter:

    - [src/launcher/util.ts]   (module [Util]): the HTTP helper [get],
      [downloadFile], [unzip], [rmDir], [resolveRuntimeVersion], [first],
      [takeWhile] and [resolveDir];
    - the earlier copy of the same helpers (module [Part000]), of which the
      version resolver is embedded;
    - [src/launcher/mac-launch.ts] (module [MacLaunch]): [download],
      [getRuntimePath], [install] and [launch].

    Promises are modelled by state passing over a [World] (file system and
    a chronological log of the outward calls: HTTP requests, shell commands,
    chmod and spawn), with three outcomes for an awaited promise: resolved,
    rejected, or never settled.  What the network answers and what the
    external [unzip] program does are parameters ([Env]).

    Modelling boundary.  Paths are absolute and normalised, kept as their
    list of segments; the file system is a tree of regular files and
    directories (no symbolic links), whose system calls fail only for
    structural reasons (ENOENT, ENOTDIR, EEXIST, ENOTEMPTY, EPERM) and not
    on permissions; [process.env.HOME] is set; console output is left out.

    A request is identified with the URL it is made for: [https_get env url]
    is what the network answers for [url], and the log records that URL.
    The request options that util.ts derives from the URL (its host and
    path, which leave out a query or fragment, and a proxy when HTTPS_PROXY
    is set) are not modelled.  Where the two copies of the resolver are
    compared, the URLs requested carry neither query nor fragment, so that
    both copies ask for the same resource. *)

From Stdlib Require Import List String Ascii ZArith Lia Bool Arith.
From Stdlib Require Import Numbers.DecimalString.
Import ListNotations.

Local Open Scope string_scope.
Local Open Scope list_scope.

(** JavaScript's [+] on strings. *)
Infix "+++" := String.append (right associativity, at level 60).

(* ================================================================== *)
(** ** JavaScript built-ins used by the launcher *)

Module JS.

(** [s.split(sep)] for a non-empty separator: the pieces between the
    successive, leftmost, non-overlapping occurrences of [sep].  [skip]
    counts the characters of an occurrence still to be dropped. *)
Fixpoint split_go (sep : string) (skip : nat) (s : string) : list string :=
  match s with
  | EmptyString => [EmptyString]
  | String a s' =>
      match skip with
      | S k => split_go sep k s'
      | O =>
          if String.prefix sep s
          then EmptyString :: split_go sep (String.length sep - 1) s'
          else match split_go sep 0 s' with
               | h :: t => String a h :: t
               | [] => [String a EmptyString]
               end
      end
  end.

Definition split (sep s : string) : list string := split_go sep 0 s.

(** [arr.join(sep)] *)
Fixpoint join (sep : string) (arr : list string) : string :=
  match arr with
  | [] => EmptyString
  | [x] => x
  | x :: rest => x +++ sep +++ join sep rest
  end.

(** [arr.slice(0, n)] *)
Definition slice0 {T} (n : nat) (arr : list T) : list T := firstn n arr.

Definition is_digit (c : ascii) : bool :=
  let n := nat_of_ascii c in (48 <=? n)%nat && (n <=? 57)%nat.

Fixpoint all_digits (s : string) : bool :=
  match s with
  | EmptyString => true
  | String c s' => is_digit c && all_digits s'
  end.

(** [/^\d+$/.test(x)]: one or more ASCII digits and nothing else. *)
Definition test_digits (x : string) : bool :=
  match x with
  | EmptyString => false
  | String _ _ => all_digits x
  end.

(** Truthiness of a string value: every string but the empty one. *)
Definition truthy (s : string) : bool :=
  match s with EmptyString => false | String _ _ => true end.

Definition CRLF : string := String "013" (String "010" EmptyString).

(** A number in a string concatenation. *)
Definition number_to_string (z : Z) : string :=
  NilEmpty.string_of_int (Z.to_int z).

End JS.

(* ================================================================== *)
(** ** Errors, promise outcomes and the file-system tree *)

(** A normalised absolute path, as its segments: ["/a/b"] is [["a";"b"]]. *)
Definition path := list string.

Definition path_string (p : path) : string := "/" +++ JS.join "/" p.

(** One step of path normalisation: empty and ["."] segments vanish,
    [".."] climbs (and stays at the root). *)
Definition norm_step (acc : path) (seg : string) : path :=
  if (seg =? "")%string || (seg =? ".")%string then acc
  else if (seg =? "..")%string then removelast acc
  else acc ++ [seg].

(** [path.join(p, s)] for an absolute, normalised [p]. *)
Definition path_join (p : path) (s : string) : path :=
  fold_left norm_step (JS.split "/" s) p.

(** [path.resolve(p, s)]: an absolute [s] starts again from the root. *)
Definition path_resolve (p : path) (s : string) : path :=
  if String.prefix "/" s then fold_left norm_step (JS.split "/" s) []
  else path_join p s.

(** The errors the launcher handles: a plain [Error(message)], or a system
    error with its [code] and the [path] it was raised for. *)
Inductive js_error : Type :=
| Error (message : string)
| ErrnoException (code : string) (errpath : path).

Definition err_code (e : js_error) : option string :=
  match e with
  | Error _ => None
  | ErrnoException c _ => Some c
  end.

Definition js_error_eqb (a b : js_error) : bool :=
  match a, b with
  | Error m, Error m' => (m =? m')%string
  | ErrnoException c p, ErrnoException c' p' =>
      (c =? c')%string && if list_eq_dec string_dec p p' then true else false
  | _, _ => false
  end.

(** How an awaited promise ends. [Pending]: it never settles (the source
    installs no handler for the failure). *)
Inductive outcome (A : Type) : Type :=
| Resolved (a : A)
| Rejected (e : js_error)
| Pending.
Arguments Resolved {A} a.
Arguments Rejected {A} e.
Arguments Pending {A}.

#[local] Set Warnings "-register-all".
Inductive node : Type :=
| File (mode : Z) (data : string)
| Dir (entries : list (string * node)).

(** What the network answers to an HTTPS GET. *)
Inductive response : Type :=
| Response (statusCode : Z) (body : string)
| RequestError (e : js_error).

(** The outward calls, logged in the order they are made. *)
Inductive event : Type :=
| EvGet (url : string)                       (* https.get in [get] *)
| EvDownload (url : string) (dest : path)    (* https.get in [downloadFile] *)
| EvExec (command : string)                  (* child_process.exec *)
| EvChmod (p : path) (mode : Z)              (* fs.chmod *)
| EvSpawn (command : string) (args : list string).   (* child_process.spawn *)

Record World : Type := mkWorld {
  fs : node;
  log : list event
}.

(** The surroundings of the process. *)
Record Env : Type := mkEnv {
  https_get : string -> response;
  exec : string -> node -> node * outcome string;
  HOME : path
}.

Definition M (A : Type) : Type := World -> World * outcome A.

Definition ret {A} (a : A) : M A := fun w => (w, Resolved a).
Definition reject {A} (e : js_error) : M A := fun w => (w, Rejected e).

(** [await m] followed by [k]. *)
Definition bind {A B} (m : M A) (k : A -> M B) : M B :=
  fun w =>
    match m w with
    | (w1, Resolved a) => k a w1
    | (w1, Rejected e) => (w1, Rejected e)
    | (w1, Pending) => (w1, Pending)
    end.

(** [try { m } catch (e) { h e }], also [m.catch(h)]. *)
Definition try_catch {A} (m : M A) (h : js_error -> M A) : M A :=
  fun w =>
    match m w with
    | (w1, Resolved a) => (w1, Resolved a)
    | (w1, Rejected e) => h e w1
    | (w1, Pending) => (w1, Pending)
    end.

Definition emit (e : event) : M unit :=
  fun w => (mkWorld (fs w) (log w ++ [e]), Resolved tt).

Notation "x <- m ;; k" := (bind m (fun x => k))
  (at level 61, m at next level, right associativity).
Notation "m ;;; k" := (bind m (fun _ => k))
  (at level 61, right associativity).

(* ================================================================== *)
(** ** The file system: node's [fs] calls on the tree *)

Module Fs.

Fixpoint entry (name : string) (es : list (string * node)) : option node :=
  match es with
  | [] => None
  | (k, v) :: es' => if (k =? name)%string then Some v else entry name es'
  end.

(** Replaces ([Some]) or deletes ([None]) the entry [name]; a new name is
    added at the end. *)
Fixpoint set_entry (name : string) (o : option node)
         (es : list (string * node)) : list (string * node) :=
  match es with
  | [] => match o with Some c => [(name, c)] | None => [] end
  | (k, v) :: es' =>
      if (k =? name)%string
      then match o with Some c => (k, c) :: es' | None => es' end
      else (k, v) :: set_entry name o es'
  end.

(** Path resolution: the node at [p], or the error code of the failure. *)
Fixpoint walk (p : path) (n : node) : node + string :=
  match p with
  | [] => inl n
  | s :: p' =>
      match n with
      | File _ _ => inr "ENOTDIR"
      | Dir es =>
          match entry s es with
          | Some c => walk p' c
          | None => inr "ENOENT"
          end
      end
  end.

(** The tree with the node at [p] replaced by [o] (removed for [None]);
    the directory holding [p] must exist, else nothing changes. *)
Fixpoint put (p : path) (o : option node) (n : node) : node :=
  match p with
  | [] => match o with Some c => c | None => n end
  | s :: p' =>
      match n with
      | File _ _ => n
      | Dir es =>
          match p' with
          | [] => Dir (set_entry s o es)
          | _ :: _ =>
              match entry s es with
              | Some c => Dir (set_entry s (Some (put p' o c)) es)
              | None => n
              end
          end
      end
  end.

Fixpoint height (n : node) : nat :=
  match n with
  | File _ _ => 0
  | Dir es =>
      S ((fix go (l : list (string * node)) : nat :=
            match l with
            | [] => 0
            | (_, c) :: l' => Nat.max (height c) (go l')
            end) es)
  end.

Definition fails {A} (code : string) (p : path) : M A :=
  reject (ErrnoException code p).

Definition set_fs (t : node) : M unit :=
  fun w => (mkWorld t (log w), Resolved tt).

(** [fs.stat] (and [fs.lstat], there being no links): the node itself
    stands for its [Stats]. *)
Definition stat (p : path) : M node :=
  fun w =>
    match walk p (fs w) with
    | inl n => ret n w
    | inr code => fails code p w
    end.

Definition lstat := stat.

Definition isFile (n : node) : bool :=
  match n with File _ _ => true | Dir _ => false end.

(** No node of the tree is a symbolic link. *)
Definition isSymbolicLink (n : node) : bool := false.

Definition readdir (p : path) : M (list string) :=
  fun w =>
    match walk p (fs w) with
    | inl (Dir es) => ret (map fst es) w
    | inl (File _ _) => fails "ENOTDIR" p w
    | inr code => fails code p w
    end.

Definition unlink (p : path) : M unit :=
  fun w =>
    match walk p (fs w) with
    | inl (File _ _) => set_fs (put p None (fs w)) w
    | inl (Dir _) => fails "EPERM" p w
    | inr code => fails code p w
    end.

Definition rmdir (p : path) : M unit :=
  fun w =>
    match walk p (fs w) with
    | inl (Dir []) =>
        match p with
        | [] => fails "EBUSY" p w
        | _ :: _ => set_fs (put p None (fs w)) w
        end
    | inl (Dir (_ :: _)) => fails "ENOTEMPTY" p w
    | inl (File _ _) => fails "ENOTDIR" p w
    | inr code => fails code p w
    end.

Definition mkdir (p : path) : M unit :=
  fun w =>
    match walk p (fs w) with
    | inl _ => fails "EEXIST" p w
    | inr _ =>
        match walk (removelast p) (fs w) with
        | inl (Dir _) => set_fs (put p (Some (Dir [])) (fs w)) w
        | inl (File _ _) => fails "ENOTDIR" p w
        | inr code => fails code p w
        end
    end.

Definition chmod (p : path) (mode : Z) : M unit :=
  emit (EvChmod p mode) ;;;
  fun w =>
    match walk p (fs w) with
    | inl (File _ d) => set_fs (put p (Some (File mode d)) (fs w)) w
    | inl (Dir _) => ret tt w
    | inr code => fails code p w
    end.

(** [fs.createWriteStream(p)] with a response piped into it, up to its
    ['finish'] event.  A stream that cannot be opened emits ['error'],
    which [downloadFile] does not listen for: the promise stays pending. *)
Definition write_stream (p : path) (data : string) : M unit :=
  fun w =>
    match walk p (fs w) with
    | inl (File m _) => set_fs (put p (Some (File m data)) (fs w)) w
    | inl (Dir _) => (w, Pending)
    | inr _ =>
        match p, walk (removelast p) (fs w) with
        | _ :: _, inl (Dir _) =>
            set_fs (put p (Some (File 420 data)) (fs w)) w
        | _, _ => (w, Pending)
        end
    end.

End Fs.

(* ================================================================== *)
(** ** src/launcher/util.ts *)

Module Util.

(** Modelled from the spec: [promiseMap] of [src/util/promises] is not
    among the sources.  The spec has no concurrent mutation of the file
    system within one installation (section 5), so the callbacks are
    taken to run one after the other, in array order, and the first
    rejection rejects the whole. *)
Fixpoint promiseMap {T S : Type} (arr : list T) (asyncF : T -> M S)
  : M (list S) :=
  match arr with
  | [] => ret []
  | x :: rest =>
      v <- asyncF x ;;
      vs <- promiseMap rest asyncF ;;
      ret (v :: vs)
  end.

(** [exists]: the [Stats] of a resolved [stat] is an object, so
    [Boolean(exists)] is [true]. *)
Definition exists_ (path : path) : M bool :=
  try_catch (stats <- Fs.stat path ;; ret true) (fun _ => ret false).

Section WithEnv.
Variable env : Env.

Definition get (url : string) : M string :=
  emit (EvGet url) ;;;
  match https_get env url with
  | Response statusCode body =>
      if (statusCode <? 200)%Z || (299 <? statusCode)%Z
      then reject (Error ("Failed to load page, status code: "
                          +++ JS.number_to_string statusCode))
      else ret body
  | RequestError err => reject err
  end.

Definition unzip (file dest : path) : M string :=
  let command :=
    "unzip " +++ path_string file +++ " -d " +++ path_string dest in
  emit (EvExec command) ;;;
  fun w =>
    let (t, r) := exec env command (fs w) in (mkWorld t (log w), r).

(** [rmDir], its recursion counted down by [fuel]. *)
Fixpoint rmDir_rec (fuel : nat) (dirPath : path) (removeSelf : bool)
  : M unit :=
  match fuel with
  | O => fun w => (w, Pending)
  | S fuel' =>
      fun w =>
        match Fs.readdir dirPath w with
        | (w1, Rejected _) => ret tt w1
        | (w1, Pending) => (w1, Pending)
        | (w1, Resolved files) =>
            ((if (0 <? List.length files)%nat
              then
                promiseMap files (fun f =>
                  let filePath := dirPath ++ [f] in
                  file <- Fs.lstat filePath ;;
                  if Fs.isFile file || Fs.isSymbolicLink file
                  then Fs.unlink filePath
                  else rmDir_rec fuel' filePath true) ;;; ret tt
              else ret tt) ;;;
             (if removeSelf then Fs.rmdir dirPath else ret tt)) w1
        end
  end.

(** The recursion follows the tree, so its depth is bounded by the
    height of the tree it starts on: this fuel is never used up. *)
Definition rmDir (dirPath : path) (removeSelf : bool) : M unit :=
  fun w => rmDir_rec (S (Fs.height (fs w))) dirPath removeSelf w.

Definition downloadFile (url : string) (writeLocation : path) : M unit :=
  emit (EvDownload url writeLocation) ;;;
  match https_get env url with
  | Response statusCode body =>
      if (statusCode =? 200)%Z
      then Fs.write_stream writeLocation body
      else if (statusCode =? 404)%Z
           then reject (Error "Specified runtime not available for OS")
           else reject (Error ("Issue Downloading "
                               +++ JS.number_to_string statusCode))
  | RequestError _ => fun w => (w, Pending)
  end.

Fixpoint first_loop {T} (func : T -> nat -> list T -> bool)
         (arr : list T) (i : nat) (rest : list T) : option T :=
  match rest with
  | [] => None
  | x :: rest' =>
      if func x i arr then Some x else first_loop func arr (S i) rest'
  end.

(** [first]: [Some x] when the loop returns the element [x], [None] when it
    runs to the end and returns [null]. *)
Definition first {T} (arr : list T) (func : T -> nat -> list T -> bool)
  : option T :=
  first_loop func arr 0 arr.

(** The accumulator [{ take, vals }] of [takeWhile]'s reduce. *)
Record taking (T : Type) : Type := mkTaking {
  take : bool;
  vals : list T
}.
Arguments mkTaking {T} take vals.
Arguments take {T} t.
Arguments vals {T} t.

Fixpoint reduce_from {T A} (f : A -> T -> nat -> list T -> A)
         (arr : list T) (i : nat) (rest : list T) (acc : A) : A :=
  match rest with
  | [] => acc
  | x :: rest' => reduce_from f arr (S i) rest' (f acc x i arr)
  end.

Definition takeWhile {T} (arr : list T)
           (func : T -> nat -> list T -> bool) : list T :=
  vals (reduce_from
          (fun acc x i r =>
             if take acc && func x i r
             then mkTaking true (vals acc ++ [x])
             else mkTaking false (vals acc))
          arr 0 arr (mkTaking true [])).

Definition index_url : string :=
  "https://cdn.openfin.co/release/runtimeVersions".

Definition channel_url (versionOrChannel : string) : string :=
  "https://cdn.openfin.co/release/runtime/" +++ versionOrChannel.

Definition resolveRuntimeVersion (versionOrChannel : string) : M string :=
  let splitVersion := JS.split "." versionOrChannel in
  let isVersion :=
    (1 <? List.length splitVersion)%nat
    && forallb (fun x => (x =? "*")%string || JS.test_digits x)
               splitVersion in
  let channel : M string :=
    try_catch (get (channel_url versionOrChannel))
              (fun _ => reject (Error "Could not resolve runtime version")) in
  if isVersion then
    let mustMatch :=
      takeWhile splitVersion (fun x _ _ => negb (x =? "*")%string) in
    if (0 <? 4 - Z.of_nat (List.length mustMatch))%Z then
      res <- get index_url ;;
      let versions := JS.split JS.CRLF res in
      let match_ :=
        first versions (fun v _ _ =>
          (JS.join "." (JS.slice0 (List.length mustMatch) (JS.split "." v))
           =? JS.join "." mustMatch)%string) in
      match match_ with
      | Some m => if JS.truthy m then ret m else channel
      | None => channel
      end
    else ret versionOrChannel
  else channel.

Definition resolveDir_catch (err : js_error) : M path :=
  match err with
  | ErrnoException code errpath =>
      if (code =? "EEXIST")%string then ret errpath else reject err
  | Error _ => reject err
  end.

Definition resolveDir (base : path) (paths : list string) : M path :=
  fold_left
    (fun (p : M path) (next : string) =>
       try_catch
         (prev <- p ;;
          Fs.mkdir (path_resolve prev next) ;;;
          ret (path_join prev next))
         resolveDir_catch)
    paths (ret base).

End WithEnv.

Arguments mkTaking {T} take vals.
Arguments take {T} t.
Arguments vals {T} t.

End Util.

(* ================================================================== *)
(** ** The earlier copy of the helpers (unnamed source, part 000) *)

Module Part000.

Section WithEnv.
Variable env : Env.

Definition get (url : string) : M string :=
  emit (EvGet url) ;;;
  match https_get env url with
  | Response statusCode body =>
      if (statusCode <? 200)%Z || (299 <? statusCode)%Z
      then reject (Error ("Failed to load page, status code: "
                          +++ JS.number_to_string statusCode))
      else ret body
  | RequestError err => reject err
  end.

Fixpoint first_loop {T} (func : T -> nat -> list T -> bool)
         (arr : list T) (i : nat) (rest : list T) : option T :=
  match rest with
  | [] => None
  | x :: rest' =>
      if func x i arr then Some x else first_loop func arr (S i) rest'
  end.

Definition first {T} (arr : list T) (func : T -> nat -> list T -> bool)
  : option T :=
  first_loop func arr 0 arr.

(** The same reduce over [{ take, vals }] as in util.ts. *)
Definition takeWhile {T} (arr : list T)
           (func : T -> nat -> list T -> bool) : list T :=
  Util.vals (Util.reduce_from
          (fun acc x i r =>
             if Util.take acc && func x i r
             then Util.mkTaking true (Util.vals acc ++ [x])
             else Util.mkTaking false (Util.vals acc))
          arr 0 arr (Util.mkTaking true [])).

Definition resolveRuntimeVersion (versionOrChannel : string) : M string :=
  let splitVersion := JS.split "." versionOrChannel in
  let isVersion :=
    (List.length splitVersion =? 4)%nat
    && forallb (fun x => (x =? "*")%string || JS.test_digits x)
               splitVersion in
  let channel : M string :=
    try_catch (get (Util.channel_url versionOrChannel))
              (fun _ => reject (Error "Could not resolve runtime version")) in
  if isVersion then
    let mustMatch :=
      takeWhile splitVersion (fun x _ _ => negb (x =? "*")%string) in
    if (0 <? Z.of_nat (List.length splitVersion)
             - Z.of_nat (List.length mustMatch))%Z then
      res <- get Util.index_url ;;
      let versions := JS.split JS.CRLF res in
      let match_ :=
        first versions (fun v _ _ =>
          (JS.join "." (JS.slice0 (List.length mustMatch) (JS.split "." v))
           =? JS.join "." mustMatch)%string) in
      match match_ with
      | Some m => if JS.truthy m then ret m else channel
      | None => channel
      end
    else ret versionOrChannel
  else channel.

End WithEnv.

End Part000.

(* ================================================================== *)
(** ** src/launcher/mac-launch.ts *)

Module MacLaunch.

(** Modelled from the spec: [NewConnectConfig] is declared in
    [src/transport/wire], not among the sources.  Of the spec's
    ConnectionConfig (requested version, optional fallback version,
    optional extra process arguments, optional security realm, verbose
    flag) this is the part [launch] reads, [config.runtime]; an absent
    optional field is [None]. *)
Record RuntimeConfig : Type := mkRuntimeConfig {
  version : string;
  fallbackVersion : option string;
  additionalArgument : option string;
  securityRealm : option string;
  verboseLogging : bool
}.

Record NewConnectConfig : Type := mkConfig {
  runtime : RuntimeConfig
}.

(** The handle [spawn] returns: the program and the argument vector. *)
Record ChildProcess : Type := mkChildProcess {
  spawnfile : string;
  spawnargs : list string
}.

Definition runtimeRoot : string :=
  "https://developer.openfin.co/release/runtime/".

Definition spawn (command : string) (args : list string) : M ChildProcess :=
  emit (EvSpawn command args) ;;; ret (mkChildProcess command args).

Section WithEnv.
Variable env : Env.

Definition download (version : string) (folder : path) : M path :=
  let url := runtimeRoot +++ "mac/x64/" +++ version in
  let tmp := "tmp" in
  Util.rmDir folder false ;;;
  try_catch (Fs.mkdir (path_join folder tmp)) (fun _ => ret tt) ;;;
  let file := path_join (path_join folder tmp) "tmp" in
  Util.downloadFile env url file ;;;
  Util.unzip env file folder ;;;
  Util.rmDir (path_join folder tmp) true ;;;
  ret folder.

Definition catchExistsError (err : js_error) : M path :=
  match err with
  | ErrnoException code errpath =>
      if (code =? "EEXIST")%string then ret errpath else reject err
  | Error _ => reject err
  end.

Definition getRuntimePath (version : string) : M path :=
  let versionPath := ["OpenFin"; "Runtime"; version] in
  let appendToPath (next : string) (val : path) :=
    Fs.mkdir (path_join val next) in
  fold_left
    (fun (p : M path) (next : string) =>
       try_catch
         (prev <- p ;;
          appendToPath next prev ;;;
          ret (path_join prev next))
         catchExistsError)
    versionPath (ret (HOME env)).

Definition install (versionOrChannel : string) : M path :=
  version <- Util.resolveRuntimeVersion env versionOrChannel ;;
  rtFolder <- getRuntimePath version ;;
  let rtPath := path_join rtFolder "OpenFin.app/Contents/MacOS/OpenFin" in
  exists_ <- try_catch (n <- Fs.stat rtPath ;; ret true)
                       (fun _ => ret false) ;;
  (if exists_ : bool
   then Fs.chmod rtPath 493
   else
     try_catch
       (download version rtFolder ;;; ret tt)
       (fun _ => reject (Error ("Could not install runtime "
                                +++ versionOrChannel
                                +++ " (" +++ version +++ ")")))) ;;;
  ret rtPath.

Definition launch (config : NewConnectConfig)
           (manifestLocation namedPipeName : string) : M ChildProcess :=
  try_catch
    ((* the flag [fb], set in the handler, travels with the path *)
     r <- try_catch
            (runtimePath <- install (version (runtime config)) ;;
             ret (runtimePath, false))
            (fun e =>
               match fallbackVersion (runtime config) with
               | Some fallback =>
                   runtimePath <- install fallback ;; ret (runtimePath, true)
               | None => reject e
               end) ;;
     let runtimePath : path := fst r in
     let fb : bool := snd r in
     let args0 :=
       match additionalArgument (runtime config) with
       | Some a => if JS.truthy a then JS.split " " a else []
       | None => []
       end in
     let args1 := ("--startup-url=" +++ manifestLocation) :: args0 in
     let args2 :=
       args1 ++ ["--version-keyword=" +++
                 (if fb
                  then match fallbackVersion (runtime config) with
                       | Some f => f
                       | None => "undefined"
                       end
                  else version (runtime config))] in
     let args3 :=
       args2 ++ ["--runtime-information-channel-v6=" +++ namedPipeName] in
     let args4 :=
       match securityRealm (runtime config) with
       | Some realm =>
           if JS.truthy realm
           then args3 ++ ["--security-realm=" +++ realm]
           else args3
       | None => args3
       end in
     let args5 :=
       if verboseLogging (runtime config)
       then (args4 ++ ["--v=1"]) ++ ["--attach-console"]
       else args4 in
     spawn (path_string runtimePath) args5)
    (fun e => reject e).

End WithEnv.

End MacLaunch.

(* ================================================================== *)
(** ** A sample environment and sample worlds *)

Module Sample.

Definition home : path := ["Users"; "dev"].

Definition runtime_dir (v : string) : path :=
  home ++ ["OpenFin"; "Runtime"; v].

Definition app_tree : node :=
  Dir [("Contents", Dir [("MacOS", Dir [("OpenFin", File 420 "binary")])])].

(** The index of the scenario; version 10.65.1.2 can be downloaded,
    anything else is answered 404. *)
Definition remote (url : string) : response :=
  if (url =? Util.index_url)%string
  then Response 200
         ("10.65.1.2" +++ JS.CRLF +++ "10.65.0.9" +++ JS.CRLF +++ "9.0.0.0")
  else if (url =? MacLaunch.runtimeRoot +++ "mac/x64/10.65.1.2")%string
  then Response 200 "zip"
  else Response 404 "".

(** An [unzip] that unpacks [OpenFin.app] into the runtime directory of
    10.65.1.2, whatever the command. *)
Definition shell (command : string) (t : node) : node * outcome string :=
  (Fs.put (runtime_dir "10.65.1.2" ++ ["OpenFin.app"]) (Some app_tree) t,
   Resolved "").

Definition env : Env := mkEnv remote shell home.

(** Nothing installed yet. *)
Definition fresh : World :=
  mkWorld (Dir [("Users", Dir [("dev", Dir [])])]) [].

(** 10.65.1.2 installed, with a stray file next to the application. *)
Definition installed : World :=
  mkWorld
    (Dir [("Users", Dir [("dev", Dir [("OpenFin", Dir [("Runtime", Dir
       [("10.65.1.2", Dir [("OpenFin.app", app_tree)])])])])])])
    [].

(** A runtime directory holding a log file but no binary. *)
Definition stale : World :=
  mkWorld
    (Dir [("Users", Dir [("dev", Dir [("OpenFin", Dir [("Runtime", Dir
       [("9.9.9.9", Dir [("debug.log", File 420 "trace")])])])])])])
    [].

(** The same remote, with the channel ["stable"] at 10.65.1.2. *)
Definition remote_with_channel (url : string) : response :=
  if (url =? Util.channel_url "stable")%string
  then Response 200 "10.65.1.2"
  else remote url.

Definition env_with_channel : Env := mkEnv remote_with_channel shell home.

(** A remote whose index cannot be reached. *)
Definition env_offline : Env :=
  mkEnv (fun _ => RequestError (Error "getaddrinfo ENOTFOUND")) shell home.

Definition config (v : string) (fallback extra : option string)
  : MacLaunch.NewConnectConfig :=
  MacLaunch.mkConfig (MacLaunch.mkRuntimeConfig v fallback extra None false).

End Sample.

(* ================================================================== *)
(** ** Vocabulary of the statements *)

(** The character [c] does not occur in [s]. *)
Fixpoint nochar (c : ascii) (s : string) : bool :=
  match s with
  | EmptyString => true
  | String a s' => (if ascii_dec c a then false else true) && nochar c s'
  end.

(** A numeric component of a version: [/^\d+$/]. *)
Definition numeric (x : string) : Prop := JS.test_digits x = true.

(** The components before the first wildcard. *)
Fixpoint fixed_prefix (comps : list string) : list string :=
  match comps with
  | [] => []
  | x :: rest => if (x =? "*")%string then [] else x :: fixed_prefix rest
  end.

(** Every component is numeric or the wildcard. *)
Definition pattern_ok (comps : list string) : Prop :=
  Forall (fun x => x = "*" \/ numeric x) comps.

(** The first [n] dotted components of an index entry. *)
Definition leading (n : nat) (v : string) : list string :=
  firstn n (JS.split "." v).

(** The remote version index: the lines of the body served at
    [Util.index_url]. *)
Definition index_of (body : string) : list string := JS.split JS.CRLF body.

(** [m] is the first element of [l], in order, that satisfies [P]. *)
Definition first_such {T} (P : T -> Prop) (l : list T) (m : T) : Prop :=
  exists before after,
    l = before ++ m :: after /\ P m /\ Forall (fun v => ~ P v) before.

(** The world [w] after the outward calls [evs], the files untouched. *)
Definition logged (w : World) (evs : list event) : World :=
  mkWorld (fs w) (log w ++ evs).

(** What a channel lookup of [name] ends with: the body served for the
    channel, or the resolver's own error. *)
Definition channel_answer (env : Env) (name : string) : outcome string :=
  match https_get env (Util.channel_url name) with
  | Response statusCode body =>
      if (statusCode <? 200)%Z || (299 <? statusCode)%Z
      then Rejected (Error "Could not resolve runtime version")
      else Resolved body
  | RequestError _ => Rejected (Error "Could not resolve runtime version")
  end.

(** A single ordinary path segment: no separator in it, and not one of
    the segments that normalisation removes. *)
Definition plain_name (s : string) : Prop :=
  nochar "/" s = true /\ s <> "" /\ s <> "." /\ s <> "..".

(** A concrete version: four dotted components, all numeric. *)
Definition concrete_version (v : string) : Prop :=
  List.length (JS.split "." v) = 4%nat /\ Forall numeric (JS.split "." v).

(** The installation directory [<home>/OpenFin/Runtime/<version>], its
    staging subdirectory and staging file, and the binary in it. *)
Definition runtime_folder (env : Env) (v : string) : path :=
  HOME env ++ ["OpenFin"; "Runtime"; v].

Definition staging_dir (folder : path) : path := folder ++ ["tmp"].

Definition staging_file (folder : path) : path := folder ++ ["tmp"; "tmp"].

Definition binary_path (env : Env) (v : string) : path :=
  runtime_folder env v ++ ["OpenFin.app"; "Contents"; "MacOS"; "OpenFin"].

Definition archive_url (v : string) : string :=
  MacLaunch.runtimeRoot +++ "mac/x64/" +++ v.

Definition unzip_command (folder : path) : string :=
  "unzip " +++ path_string (staging_file folder)
  +++ " -d " +++ path_string folder.

(** The error of [downloadFile] for an answer other than 200. *)
Definition refusal (statusCode : Z) : js_error :=
  if (statusCode =? 404)%Z
  then Error "Specified runtime not available for OS"
  else Error ("Issue Downloading " +++ JS.number_to_string statusCode).

(** The installation directory once cleared, holding the staging
    directory alone, empty or with the archive in it. *)
Definition staged (folder : path) (staging : list (string * node))
           (t : node) : node :=
  Fs.put folder (Some (Dir [("tmp", Dir staging)])) t.

(** The tree after [chmod p mode]. *)
Definition chmod_tree (p : path) (mode : Z) (t : node) : node :=
  match Fs.walk p t with
  | inl (File _ d) => Fs.put p (Some (File mode d)) t
  | _ => t
  end.

(** The tree with the directory at [p], if there is one, removed with all
    it holds. *)
Definition without_dir (p : path) (t : node) : node :=
  match Fs.walk p t with
  | inl (Dir _) => Fs.put p None t
  | _ => t
  end.

(** The spec's wording of the directory walk (design notes): an explicit
    loop over the segments, each step attempting the creation and telling
    apart, as a tagged result, a directory created, one that already
    exists, and any other error. *)
Inductive creation : Type :=
| Created
| AlreadyExists (existing : path)
| OtherError (e : js_error)
| Unsettled.

Definition classify (r : outcome unit) : creation :=
  match r with
  | Resolved _ => Created
  | Rejected (ErrnoException code existing) =>
      if (code =? "EEXIST")%string then AlreadyExists existing
      else OtherError (ErrnoException code existing)
  | Rejected (Error message) => OtherError (Error message)
  | Pending => Unsettled
  end.

Fixpoint create_or_adopt (target : path -> string -> path)
         (base : path) (segments : list string) : M path :=
  match segments with
  | [] => ret base
  | next :: rest =>
      fun w =>
        let (w1, r) := Fs.mkdir (target base next) w in
        match classify r with
        | Created => create_or_adopt target (path_join base next) rest w1
        | AlreadyExists existing => create_or_adopt target existing rest w1
        | OtherError e => (w1, Rejected e)
        | Unsettled => (w1, Pending)
        end
  end.

(** One step of the source's fold, on the settled accumulator. *)
Definition fold_step (target : path -> string -> path)
           (acc : World * outcome path) (next : string)
  : World * outcome path :=
  match acc with
  | (w1, Resolved prev) =>
      match Fs.mkdir (target prev next) w1 with
      | (w2, Resolved _) => (w2, Resolved (path_join prev next))
      | (w2, Rejected e) => Util.resolveDir_catch e w2
      | (w2, Pending) => (w2, Pending)
      end
  | (w1, Rejected e) => Util.resolveDir_catch e w1
  | (w1, Pending) => (w1, Pending)
  end.

(** The argument vector in the order the spec words it: the caller's extra
    arguments first, then the startup manifest, the version keyword, the
    channel, and the optional realm and logging flags. *)
Definition spec_argument_vector (extra : list string)
           (manifest keyword pipe : string) (tail : list string)
  : list string :=
  extra ++ ["--startup-url=" +++ manifest;
            "--version-keyword=" +++ keyword;
            "--runtime-information-channel-v6=" +++ pipe] ++ tail.

(** The caller's extra arguments: the configured string split on spaces. *)
Definition extra_arguments (config : MacLaunch.NewConnectConfig)
  : list string :=
  match MacLaunch.additionalArgument (MacLaunch.runtime config) with
  | Some a => if JS.truthy a then JS.split " " a else []
  | None => []
  end.

(** The optional tail: the security realm, then the logging flags. *)
Definition optional_arguments (config : MacLaunch.NewConnectConfig)
  : list string :=
  match MacLaunch.securityRealm (MacLaunch.runtime config) with
  | Some realm => if JS.truthy realm then ["--security-realm=" +++ realm] else []
  | None => []
  end
  ++ (if MacLaunch.verboseLogging (MacLaunch.runtime config)
      then ["--v=1"; "--attach-console"] else []).

(** The argument vector as [launch] builds it: the startup manifest comes
    first, the caller's extra arguments after it. *)
Definition argument_vector (config : MacLaunch.NewConnectConfig)
           (manifest keyword pipe : string) : list string :=
  ("--startup-url=" +++ manifest) :: extra_arguments config
  ++ ["--version-keyword=" +++ keyword;
      "--runtime-information-channel-v6=" +++ pipe]
  ++ optional_arguments config.

(** The world after [spawn command args]. *)
Definition spawned (w : World) (command : string) (args : list string)
  : World * outcome MacLaunch.ChildProcess :=
  (logged w [EvSpawn command args],
   Resolved (MacLaunch.mkChildProcess command args)).

(** The processes spawned so far. *)
Definition is_spawn (e : event) : bool :=
  match e with EvSpawn _ _ => true | _ => false end.

Definition spawns (w : World) : list event := filter is_spawn (log w).

(** A computation that spawns nothing. *)
Definition spawn_free {A} (m : M A) : Prop :=
  forall w w1 r, m w = (w1, r) -> spawns w1 = spawns w.

(** A computation that leaves the file system as it is. *)
Definition keeps_files {A} (m : M A) : Prop :=
  forall w w1 r, m w = (w1, r) -> fs w1 = fs w.

(** The names of a directory listing are distinct, here and below. *)
Fixpoint distinct (names : list string) : bool :=
  match names with
  | [] => true
  | x :: rest =>
      negb (existsb (fun y => (y =? x)%string) rest) && distinct rest
  end.

Fixpoint well_formed (n : node) : bool :=
  match n with
  | File _ _ => true
  | Dir es =>
      distinct (map fst es)
      && (fix all (l : list (string * node)) : bool :=
            match l with
            | [] => true
            | (_, c) :: l' => well_formed c && all l'
            end) es
  end.

(** How often the character [c] occurs in [s]. *)
Fixpoint occurrences (c : ascii) (s : string) : nat :=
  match s with
  | EmptyString => 0
  | String a s' => (if ascii_dec c a then 1 else 0) + occurrences c s'
  end.

(** [q] lies at or below [p]. *)
Definition below (p q : path) : Prop := exists r, q = p ++ r.

(** From [t] to [t'] nothing is lost: what resolved in [t] resolves in
    [t'], a file to the same file, a directory to a directory. *)
Definition only_grows (t t' : node) : Prop :=
  forall q n,
    Fs.walk q t = inl n ->
    exists n',
      Fs.walk q t' = inl n'
      /\ Fs.isFile n' = Fs.isFile n
      /\ (Fs.isFile n = true -> n' = n).

(** The value of a [T | null] result when the elements may themselves be
    [null]: the element found, [null] if that is what it is, and [null]
    again when none was found. *)
Definition returned {U} (r : option (option U)) : option U :=
  match r with
  | Some x => x
  | None => None
  end.

(** A character that the path of a URL keeps as it is written: an ASCII
    letter or digit, ['-'], ['_'] or ['.']. *)
Definition name_char (c : ascii) : bool :=
  let n := nat_of_ascii c in
  ((48 <=? n)%nat && (n <=? 57)%nat)
  || ((65 <=? n)%nat && (n <=? 90)%nat)
  || ((97 <=? n)%nat && (n <=? 122)%nat)
  || (n =? 45)%nat || (n =? 95)%nat || (n =? 46)%nat.

Fixpoint name_chars (s : string) : bool :=
  match s with
  | EmptyString => true
  | String c s' => name_char c && name_chars s'
  end.

(** A channel name that stands for itself in the URL built from it: made
    of such characters, so that it opens no query or fragment, and not a
    dot segment, which a URL drops.  The request for that URL is then the
    same whether the URL is handed to [https.get] as it is (the earlier
    copy) or as its host and path (util.ts). *)
Definition channel_name (s : string) : Prop :=
  name_chars s = true /\ s <> "." /\ s <> "..".

(** The error with which [install] replaces a failed download. *)
Definition install_error (versionOrChannel version : string) : js_error :=
  Error ("Could not install runtime " +++ versionOrChannel
         +++ " (" +++ version +++ ")").

(** A computation that makes no outward call. *)
Definition quiet {A} (m : M A) : Prop :=
  forall w w1 r, m w = (w1, r) -> log w1 = log w.

(** A computation that, when it resolves, has made the outward calls
    [evs], in this order, and no other. *)
Definition logs {A} (evs : list event) (m : M A) : Prop :=
  forall w w1 a, m w = (w1, Resolved a) -> log w1 = log w ++ evs.

(* ================================================================== *)
(** ** Strings: [split] and [join] on a one-character separator *)

Section SplitJoin.

Variable c : ascii.
Let sep : string := String c EmptyString.

Lemma split_go_nonnil : forall sp s k, JS.split_go sp k s <> [].
Proof.
  intros sp s; induction s as [|a s IH]; intros k; simpl.
  - discriminate.
  - destruct k as [|k]; [|apply IH].
    match goal with |- (if ?b then _ else _) <> _ => destruct b end;
      [discriminate|].
    destruct (JS.split_go sp 0 s); discriminate.
Qed.

Lemma split_cons : forall a s,
  JS.split sep (String a s) =
  if ascii_dec c a then EmptyString :: JS.split sep s
  else match JS.split sep s with
       | h :: t => String a h :: t
       | [] => [String a EmptyString]
       end.
Proof.
  intros a s. unfold JS.split, sep. simpl.
  destruct (ascii_dec c a); [|reflexivity].
  now destruct s.
Qed.

Lemma split_nochar : forall s, nochar c s = true -> JS.split sep s = [s].
Proof.
  induction s as [|a s IH]; intros H.
  - reflexivity.
  - rewrite split_cons. simpl in H.
    destruct (ascii_dec c a); [discriminate|].
    rewrite IH by exact H. reflexivity.
Qed.

Lemma split_parts_nochar : forall s,
  Forall (fun x => nochar c x = true) (JS.split sep s).
Proof.
  induction s as [|a s IH].
  - repeat constructor.
  - rewrite split_cons. destruct (ascii_dec c a) as [E|E].
    + constructor; [reflexivity | exact IH].
    + destruct (JS.split sep s) as [|h t].
      * constructor; [|constructor]. simpl.
        destruct (ascii_dec c a); [contradiction|reflexivity].
      * inversion IH; subst. constructor; [|assumption]. simpl.
        destruct (ascii_dec c a); [contradiction|assumption].
Qed.

Lemma split_append_sep : forall x rest,
  nochar c x = true ->
  JS.split sep (x +++ sep +++ rest) = x :: JS.split sep rest.
Proof.
  induction x as [|a x IH]; intros rest H.
  - change (EmptyString +++ sep +++ rest) with (String c rest).
    rewrite split_cons.
    destruct (ascii_dec c c); [reflexivity|contradiction].
  - change (String a x +++ sep +++ rest)
      with (String a (x +++ sep +++ rest)).
    simpl in H. rewrite split_cons.
    destruct (ascii_dec c a); [discriminate|].
    rewrite IH by exact H. reflexivity.
Qed.

Lemma split_join : forall l,
  l <> [] -> Forall (fun x => nochar c x = true) l ->
  JS.split sep (JS.join sep l) = l.
Proof.
  induction l as [|x l IH]; intros Hne Hl; [contradiction|].
  inversion Hl as [|? ? Hx Hl']; subst.
  destruct l as [|y l].
  - simpl. apply split_nochar; assumption.
  - change (JS.join sep (x :: y :: l)) with (x +++ sep +++ JS.join sep (y :: l)).
    rewrite split_append_sep by assumption.
    rewrite IH; [reflexivity|discriminate|assumption].
Qed.

Lemma join_split : forall s, JS.join sep (JS.split sep s) = s.
Proof.
  induction s as [|a s IH].
  - reflexivity.
  - rewrite split_cons. destruct (ascii_dec c a) as [E|E].
    + subst a. pose proof (split_go_nonnil sep s 0) as Hn.
      fold (JS.split sep s) in Hn.
      destruct (JS.split sep s) as [|h t]; [contradiction|].
      change (JS.join sep (EmptyString :: h :: t))
        with (EmptyString +++ sep +++ JS.join sep (h :: t)).
      rewrite IH. reflexivity.
    + pose proof (split_go_nonnil sep s 0) as Hn.
      fold (JS.split sep s) in Hn.
      destruct (JS.split sep s) as [|h t]; [contradiction|].
      destruct t as [|h' t].
      * simpl in IH |- *. now rewrite IH.
      * change (JS.join sep (String a h :: h' :: t))
          with (String a (h +++ sep +++ JS.join sep (h' :: t))).
        change (JS.join sep (h :: h' :: t))
          with (h +++ sep +++ JS.join sep (h' :: t)) in IH.
        now rewrite IH.
Qed.

(** [join] is one-to-one on non-empty lists of separator-free pieces. *)
Lemma join_inj : forall l l',
  l <> [] -> l' <> [] ->
  Forall (fun x => nochar c x = true) l ->
  Forall (fun x => nochar c x = true) l' ->
  JS.join sep l = JS.join sep l' -> l = l'.
Proof.
  intros l l' Hl Hl' Fl Fl' E.
  rewrite <- (split_join l Hl Fl), <- (split_join l' Hl' Fl').
  now rewrite E.
Qed.

End SplitJoin.

(* ================================================================== *)
(** ** The helpers of the resolver *)

Lemma digits_nochar : forall c x,
  JS.is_digit c = false -> JS.all_digits x = true -> nochar c x = true.
Proof.
  intros c x Hc; induction x as [|a x IH]; intros H; simpl in *.
  - reflexivity.
  - apply andb_true_iff in H as [Ha Hx].
    destruct (ascii_dec c a) as [->|_]; [congruence|]. now apply IH.
Qed.

Lemma numeric_nochar : forall c x,
  JS.is_digit c = false -> numeric x -> nochar c x = true.
Proof.
  intros c x Hc H. apply digits_nochar; [exact Hc|].
  unfold numeric, JS.test_digits in H. destruct x; [discriminate|exact H].
Qed.

Lemma numeric_not_star : forall x, numeric x -> (x =? "*")%string = false.
Proof.
  intros x H. apply String.eqb_neq. intros ->. discriminate H.
Qed.

Lemma reduce_taking : forall (f : string -> bool) arr rest i acc,
  Util.vals (Util.reduce_from
     (fun a x (_ : nat) (_ : list string) =>
        if Util.take a && f x
        then Util.mkTaking true (Util.vals a ++ [x])
        else Util.mkTaking false (Util.vals a))
     arr i rest (Util.mkTaking false acc)) = acc.
Proof.
  intros f arr rest; induction rest as [|x rest IH]; intros i acc; simpl.
  - reflexivity.
  - apply IH.
Qed.

Lemma takeWhile_fixed_prefix : forall comps,
  Util.takeWhile comps (fun x _ _ => negb (x =? "*")%string)
  = fixed_prefix comps.
Proof.
  intros comps. unfold Util.takeWhile.
  enough (G : forall rest i acc,
    Util.vals (Util.reduce_from
      (fun a x (_ : nat) (_ : list string) =>
         if Util.take a && negb (x =? "*")%string
         then Util.mkTaking true (Util.vals a ++ [x])
         else Util.mkTaking false (Util.vals a))
      comps i rest (Util.mkTaking true acc)) = acc ++ fixed_prefix rest)
    by apply (G comps 0%nat []).
  induction rest as [|x rest IH]; intros i acc; simpl.
  - now rewrite app_nil_r.
  - destruct (x =? "*")%string; simpl.
    + rewrite app_nil_r.
      apply (reduce_taking (fun x => negb (x =? "*")%string)).
    + rewrite IH, <- app_assoc. reflexivity.
Qed.

Lemma fixed_prefix_app : forall pre k,
  Forall numeric pre -> fixed_prefix (pre ++ repeat "*" k) = pre.
Proof.
  induction pre as [|x pre IH]; intros k H; simpl.
  - destruct k; reflexivity.
  - inversion H; subst. rewrite numeric_not_star by assumption.
    now rewrite IH.
Qed.

Lemma first_is_find : forall (P : string -> bool) l,
  Util.first l (fun v _ _ => P v) = find P l.
Proof.
  intros P l. unfold Util.first. generalize 0%nat, l at 1.
  induction l as [|x l IH]; intros i arr; simpl.
  - reflexivity.
  - destruct (P x); [reflexivity|apply IH].
Qed.

Lemma find_first_such : forall (P : string -> bool) (Q : string -> Prop) l m,
  (forall v, P v = true <-> Q v) ->
  first_such Q l m -> find P l = Some m.
Proof.
  intros P Q l m HPQ (before & after & -> & Hm & Hb).
  induction before as [|b before IH]; simpl.
  - apply HPQ in Hm. now rewrite Hm.
  - inversion Hb as [|? ? Hnb Hb']; subst.
    destruct (P b) eqn:E; [apply HPQ in E; contradiction|].
    now apply IH.
Qed.

(** The resolver compares joined strings; on a numeric prefix this is the
    comparison of the components themselves. *)
Lemma prefix_test_iff : forall pre v,
  pre <> [] -> Forall numeric pre ->
  (JS.join "." (JS.slice0 (List.length pre) (JS.split "." v))
   =? JS.join "." pre)%string = true
  <-> leading (List.length pre) v = pre.
Proof.
  intros pre v Hne Hnum. unfold leading, JS.slice0.
  rewrite String.eqb_eq. split; [|intros ->; reflexivity].
  apply (join_inj "."%char).
  - pose proof (split_go_nonnil "." v 0) as Hn. fold (JS.split "." v) in Hn.
    destruct (JS.split "." v); [contradiction|].
    destruct pre; [contradiction|]. discriminate.
  - exact Hne.
  - pose proof (split_parts_nochar "."%char v) as F.
    rewrite Forall_forall in F |- *. intros x Hx. apply F.
    rewrite <- (firstn_skipn (List.length pre) (JS.split "." v)).
    apply in_or_app. now left.
  - eapply Forall_impl; [|exact Hnum]. intros x Hx.
    now apply numeric_nochar.
Qed.

(* ================================================================== *)
(** ** resolveRuntimeVersion *)

Section Resolver.

Variable env : Env.

Lemma get_answered : forall url statusCode body w,
  https_get env url = Response statusCode body ->
  (200 <= statusCode <= 299)%Z ->
  Util.get env url w = (logged w [EvGet url], Resolved body).
Proof.
  intros url st body w H Hst. unfold Util.get, bind, emit. simpl.
  rewrite H.
  replace (st <? 200)%Z with false by (symmetry; apply Z.ltb_ge; lia).
  replace (299 <? st)%Z with false by (symmetry; apply Z.ltb_ge; lia).
  reflexivity.
Qed.

Lemma get_logs : forall url w,
  exists r, Util.get env url w = (logged w [EvGet url], r).
Proof.
  intros url w. unfold Util.get, bind, emit. simpl.
  destruct (https_get env url) as [st body|e]; [|eexists; reflexivity].
  destruct ((st <? 200)%Z || (299 <? st)%Z); eexists; reflexivity.
Qed.

Lemma channel_lookup : forall name w,
  try_catch (Util.get env (Util.channel_url name))
            (fun _ => reject (Error "Could not resolve runtime version")) w
  = (logged w [EvGet (Util.channel_url name)], channel_answer env name).
Proof.
  intros name w. unfold try_catch, Util.get, bind, emit, channel_answer.
  simpl. destruct (https_get env (Util.channel_url name)) as [st body|e];
    [|reflexivity].
  destruct ((st <? 200)%Z || (299 <? st)%Z); reflexivity.
Qed.

Lemma pattern_ok_forallb : forall comps,
  pattern_ok comps ->
  forallb (fun x => (x =? "*")%string || JS.test_digits x) comps = true.
Proof.
  intros comps H. apply forallb_forall. intros x Hx.
  unfold pattern_ok in H. rewrite Forall_forall in H.
  destruct (H x Hx) as [->|Hn]; [reflexivity|].
  unfold numeric in Hn. rewrite Hn. apply orb_true_r.
Qed.

(** The branch of util.ts that consults the index. *)
Lemma util_resolve_index : forall spec w,
  (2 <= List.length (JS.split "." spec))%nat ->
  pattern_ok (JS.split "." spec) ->
  (List.length (fixed_prefix (JS.split "." spec)) < 4)%nat ->
  Util.resolveRuntimeVersion env spec w =
  (res <- Util.get env Util.index_url ;;
   match find (fun v =>
           (JS.join "." (JS.slice0
              (List.length (fixed_prefix (JS.split "." spec)))
              (JS.split "." v))
            =? JS.join "." (fixed_prefix (JS.split "." spec)))%string)
           (index_of res) with
   | Some m =>
       if JS.truthy m then ret m
       else try_catch (Util.get env (Util.channel_url spec))
              (fun _ => reject (Error "Could not resolve runtime version"))
   | None =>
       try_catch (Util.get env (Util.channel_url spec))
         (fun _ => reject (Error "Could not resolve runtime version"))
   end) w.
Proof.
  intros spec w Hlen Hok Hpre. unfold Util.resolveRuntimeVersion.
  rewrite pattern_ok_forallb by exact Hok.
  replace (1 <? List.length (JS.split "." spec))%nat with true
    by (symmetry; apply Nat.ltb_lt; lia).
  cbn [andb]. rewrite takeWhile_fixed_prefix.
  replace (0 <? 4 - Z.of_nat (List.length (fixed_prefix (JS.split "." spec))))%Z
    with true by (symmetry; apply Z.ltb_lt; lia).
  unfold bind. destruct (Util.get env Util.index_url w) as [w1 [res|e|]];
    try reflexivity.
  rewrite first_is_find. reflexivity.
Qed.

Lemma util_resolve_unchanged : forall spec w,
  (2 <= List.length (JS.split "." spec))%nat ->
  pattern_ok (JS.split "." spec) ->
  (4 <= List.length (fixed_prefix (JS.split "." spec)))%nat ->
  Util.resolveRuntimeVersion env spec w = (w, Resolved spec).
Proof.
  intros spec w Hlen Hok Hpre. unfold Util.resolveRuntimeVersion.
  rewrite pattern_ok_forallb by exact Hok.
  replace (1 <? List.length (JS.split "." spec))%nat with true
    by (symmetry; apply Nat.ltb_lt; lia).
  cbn [andb]. rewrite takeWhile_fixed_prefix.
  replace (0 <? 4 - Z.of_nat (List.length (fixed_prefix (JS.split "." spec))))%Z
    with false by (symmetry; apply Z.ltb_ge; lia).
  reflexivity.
Qed.

(** With a numeric prefix to match, an index that holds a match gives
    its first match. *)
Lemma util_resolve_first_match : forall spec pre statusCode body m w,
  (2 <= List.length (JS.split "." spec))%nat ->
  pattern_ok (JS.split "." spec) ->
  fixed_prefix (JS.split "." spec) = pre ->
  pre <> [] -> Forall numeric pre -> (List.length pre < 4)%nat ->
  https_get env Util.index_url = Response statusCode body ->
  (200 <= statusCode <= 299)%Z ->
  first_such (fun v => leading (List.length pre) v = pre) (index_of body) m ->
  Util.resolveRuntimeVersion env spec w
  = (logged w [EvGet Util.index_url], Resolved m).
Proof.
  intros spec pre st body m w Hlen Hok Hfix Hne Hnum Hlt Hget Hst Hm.
  rewrite util_resolve_index by (rewrite ?Hfix; assumption).
  unfold bind. rewrite (get_answered _ _ _ _ Hget Hst). rewrite Hfix.
  rewrite (find_first_such _ _ _ _
             (fun v => prefix_test_iff pre v Hne Hnum) Hm).
  destruct Hm as (before & after & _ & Hlead & _).
  destruct m as [|a m]; [|reflexivity].
  exfalso. unfold leading in Hlead. simpl in Hlead.
  destruct pre as [|x pre]; [contradiction|].
  simpl in Hlead. injection Hlead as <- _.
  inversion Hnum as [|? ? Hx _]; subst. discriminate Hx.
Qed.

Lemma util_resolve_asks_index : forall spec w,
  (2 <= List.length (JS.split "." spec))%nat ->
  pattern_ok (JS.split "." spec) ->
  (List.length (fixed_prefix (JS.split "." spec)) < 4)%nat ->
  exists w1 r rest,
    Util.resolveRuntimeVersion env spec w = (w1, r)
    /\ log w1 = log w ++ EvGet Util.index_url :: rest.
Proof.
  intros spec w Hlen Hok Hpre.
  rewrite util_resolve_index by assumption. unfold bind.
  destruct (get_logs Util.index_url w) as [r ->].
  destruct r as [res|e|]; try (do 3 eexists; split; [reflexivity|];
                               reflexivity).
  match goal with
  | |- context [find ?P ?l] => destruct (find P l) as [m|]
  end.
  - destruct (JS.truthy m).
    + do 3 eexists; split; reflexivity.
    + rewrite channel_lookup. do 3 eexists; split; [reflexivity|].
      simpl. rewrite <- app_assoc. reflexivity.
  - rewrite channel_lookup. do 3 eexists; split; [reflexivity|].
    simpl. rewrite <- app_assoc. reflexivity.
Qed.

(** On a pattern of four components the two resolvers are the same: for
    four components [length > 1] and [length === 4] both hold and [4 - n]
    is [length - n], and the URLs requested, the index and the channel of
    the pattern (digits, dots and wildcards), carry no query. *)
Lemma resolvers_agree_on_four : forall spec w,
  List.length (JS.split "." spec) = 4%nat ->
  pattern_ok (JS.split "." spec) ->
  Util.resolveRuntimeVersion env spec w
  = Part000.resolveRuntimeVersion env spec w.
Proof.
  intros spec w H _.
  unfold Util.resolveRuntimeVersion, Part000.resolveRuntimeVersion.
  rewrite H. reflexivity.
Qed.

Lemma part000_resolve_channel : forall spec w,
  List.length (JS.split "." spec) <> 4%nat ->
  Part000.resolveRuntimeVersion env spec w
  = (logged w [EvGet (Util.channel_url spec)], channel_answer env spec).
Proof.
  intros spec w H. unfold Part000.resolveRuntimeVersion.
  replace (List.length (JS.split "." spec) =? 4)%nat with false
    by (symmetry; now apply Nat.eqb_neq).
  cbn [andb]. apply channel_lookup.
Qed.

Lemma numeric_pattern : forall comps,
  Forall numeric comps -> pattern_ok comps /\ fixed_prefix comps = comps.
Proof.
  intros comps H. split.
  - eapply Forall_impl; [|exact H]. now right.
  - rewrite <- (app_nil_r comps) at 1.
    apply (fixed_prefix_app comps 0 H).
Qed.

End Resolver.

(** Claim C1.  A spec of four dotted components, a numeric prefix [pre]
    followed only by wildcards, resolves in util.ts to the first entry of
    the remote index, in index order, whose leading components are [pre],
    whenever the index is served and holds such an entry; the one request
    made is that of the index, and resolving again afterwards, the index
    unchanged, gives the same version.  The earlier copy of the resolver
    does the same. *)
Theorem resolve_trailing_wildcards_first_match :
  forall env spec pre k statusCode body m w,
    JS.split "." spec = pre ++ repeat "*" k ->
    pre <> [] -> Forall numeric pre ->
    (1 <= k)%nat -> (List.length pre + k = 4)%nat ->
    https_get env Util.index_url = Response statusCode body ->
    (200 <= statusCode <= 299)%Z ->
    first_such (fun v => leading (List.length pre) v = pre) (index_of body) m ->
    Util.resolveRuntimeVersion env spec w
      = (logged w [EvGet Util.index_url], Resolved m)
    /\ snd (Util.resolveRuntimeVersion env spec
              (fst (Util.resolveRuntimeVersion env spec w))) = Resolved m
    /\ Part000.resolveRuntimeVersion env spec w
      = (logged w [EvGet Util.index_url], Resolved m).
Proof.
  intros env spec pre k st body m w Hsplit Hne Hnum Hk Hlen Hget Hst Hm.
  assert (Hok : pattern_ok (JS.split "." spec)).
  { rewrite Hsplit. apply Forall_app. split.
    - eapply Forall_impl; [|exact Hnum]. now right.
    - apply Forall_forall. intros x Hx. left.
      now apply repeat_spec in Hx. }
  assert (Hgen : forall w',
    Util.resolveRuntimeVersion env spec w'
    = (logged w' [EvGet Util.index_url], Resolved m)).
  { intros w'.
    apply (util_resolve_first_match env spec pre st body m w'); try assumption.
    - rewrite Hsplit, length_app, repeat_length. lia.
    - rewrite Hsplit. now apply fixed_prefix_app.
    - lia. }
  split; [apply Hgen|]. split; [rewrite (Hgen w); simpl; now rewrite Hgen|].
  rewrite <- resolvers_agree_on_four; [apply Hgen| |exact Hok].
  rewrite Hsplit, length_app, repeat_length. exact Hlen.
Qed.

(** The scenario of C1: ["10.*.*.*"] against the index
    [10.65.1.2; 10.65.0.9; 9.0.0.0] gives ["10.65.1.2"], twice. *)
Lemma resolve_trailing_wildcards_scenario :
  Util.resolveRuntimeVersion Sample.env "10.*.*.*" Sample.fresh
    = (logged Sample.fresh [EvGet Util.index_url], Resolved "10.65.1.2")
  /\ snd (Util.resolveRuntimeVersion Sample.env "10.*.*.*"
            (fst (Util.resolveRuntimeVersion Sample.env "10.*.*.*"
                    Sample.fresh))) = Resolved "10.65.1.2"
  /\ Part000.resolveRuntimeVersion Sample.env "10.*.*.*" Sample.fresh
    = (logged Sample.fresh [EvGet Util.index_url], Resolved "10.65.1.2").
Proof.
  apply (resolve_trailing_wildcards_first_match
           Sample.env "10.*.*.*" ["10"] 3 200
           ("10.65.1.2" +++ JS.CRLF +++ "10.65.0.9" +++ JS.CRLF +++ "9.0.0.0")).
  - reflexivity.
  - discriminate.
  - repeat constructor.
  - lia.
  - reflexivity.
  - reflexivity.
  - lia.
  - exists [], ["10.65.0.9"; "9.0.0.0"]. split; [reflexivity|].
    split; [reflexivity|constructor].
Defined.

(** Claim C2.  A spec of four dotted components, all numeric, is returned
    as it is by both resolvers, and the world is left as it was: no request
    is logged. *)
Theorem resolve_numeric_unchanged :
  forall env spec w,
    List.length (JS.split "." spec) = 4%nat ->
    Forall numeric (JS.split "." spec) ->
    Util.resolveRuntimeVersion env spec w = (w, Resolved spec)
    /\ Part000.resolveRuntimeVersion env spec w = (w, Resolved spec).
Proof.
  intros env spec w Hlen Hnum.
  destruct (numeric_pattern _ Hnum) as [Hok Hfix].
  assert (U : Util.resolveRuntimeVersion env spec w = (w, Resolved spec)).
  { apply util_resolve_unchanged; [lia|exact Hok|]. rewrite Hfix. lia. }
  split; [exact U|]. now rewrite <- resolvers_agree_on_four.
Qed.

Lemma resolve_numeric_unchanged_example :
  Util.resolveRuntimeVersion Sample.env "10.65.1.2" Sample.fresh
    = (Sample.fresh, Resolved "10.65.1.2")
  /\ Part000.resolveRuntimeVersion Sample.env "10.65.1.2" Sample.fresh
    = (Sample.fresh, Resolved "10.65.1.2").
Proof.
  apply (resolve_numeric_unchanged Sample.env "10.65.1.2" Sample.fresh).
  - reflexivity.
  - repeat constructor.
Defined.

(** Claim C9, refuted as stated: whatever the remote answers, the two
    resolvers do the same on ["*.*.*.*"]. *)
Lemma all_wildcard_spec_no_divergence :
  ~ exists env w,
      Util.resolveRuntimeVersion env "*.*.*.*" w
      <> Part000.resolveRuntimeVersion env "*.*.*.*" w.
Proof.
  intros (env & w & H). apply H.
  apply resolvers_agree_on_four; [reflexivity|repeat constructor].
Qed.

(** Claim C9, amended.  The two resolvers do the same on ["*.*.*.*"],
    whatever the remote answers: both ask for the index, and when it is
    served and its first line is not empty both answer with that line.
    Neither asks for a component that is no wildcard: with nothing to match,
    the first entry of the index matches. *)
Theorem resolvers_agree_on_all_wildcards :
  (forall env w,
      Util.resolveRuntimeVersion env "*.*.*.*" w
      = Part000.resolveRuntimeVersion env "*.*.*.*" w)
  /\ (forall env statusCode body a line w,
        https_get env Util.index_url = Response statusCode body ->
        (200 <= statusCode <= 299)%Z ->
        hd "" (index_of body) = String a line ->
        Util.resolveRuntimeVersion env "*.*.*.*" w
        = (logged w [EvGet Util.index_url], Resolved (String a line))
        /\ Part000.resolveRuntimeVersion env "*.*.*.*" w
           = (logged w [EvGet Util.index_url], Resolved (String a line))).
Proof.
  split.
  - intros env w.
    apply resolvers_agree_on_four; [reflexivity|repeat constructor].
  - intros env st body a line w Hget Hst Hhd.
    assert (U : Util.resolveRuntimeVersion env "*.*.*.*" w
                = (logged w [EvGet Util.index_url], Resolved (String a line))).
    { rewrite util_resolve_index;
        [|simpl; lia|repeat constructor|simpl; lia].
      unfold bind. rewrite (get_answered _ _ _ _ _ Hget Hst).
      change (fixed_prefix (JS.split "." "*.*.*.*")) with (@nil string).
      pose proof (split_go_nonnil JS.CRLF body 0) as Hn.
      unfold index_of, JS.split in Hhd |- *.
      destruct (JS.split_go JS.CRLF 0 body) as [|l ls]; [contradiction|].
      cbn [hd] in Hhd. subst l. reflexivity. }
    split; [exact U|].
    rewrite <- resolvers_agree_on_four;
      [exact U|reflexivity|repeat constructor].
Qed.

(** Against the sample index both answer 10.65.1.2, its first entry. *)
Lemma resolvers_agree_example :
  Util.resolveRuntimeVersion Sample.env "*.*.*.*" Sample.fresh
  = (logged Sample.fresh [EvGet Util.index_url], Resolved "10.65.1.2")
  /\ Part000.resolveRuntimeVersion Sample.env "*.*.*.*" Sample.fresh
     = (logged Sample.fresh [EvGet Util.index_url], Resolved "10.65.1.2").
Proof.
  apply (proj2 resolvers_agree_on_all_wildcards Sample.env 200%Z
           ("10.65.1.2" +++ JS.CRLF +++ "10.65.0.9" +++ JS.CRLF +++ "9.0.0.0")
           "1"%char "0.65.1.2" Sample.fresh).
  - reflexivity.
  - lia.
  - reflexivity.
Defined.

(** Claim C10.  In util.ts a dotted spec of two or more components, each
    numeric or a wildcard, is a pattern measured against four components:
    with fewer than four components before its first wildcard the index is
    requested first, otherwise the spec is returned as it is.  So a numeric
    spec of two or three components, such as ["10.5"], is not returned
    unchanged: the index is requested, and the first entry whose leading
    components are those of the spec is the answer; the earlier copy looks
    the same spec up as a channel. *)
Theorem short_numeric_spec_resolved_from_index :
  forall env spec w,
    (2 <= List.length (JS.split "." spec))%nat ->
    pattern_ok (JS.split "." spec) ->
    ((List.length (fixed_prefix (JS.split "." spec)) < 4)%nat ->
       exists w1 r rest,
         Util.resolveRuntimeVersion env spec w = (w1, r)
         /\ log w1 = log w ++ EvGet Util.index_url :: rest)
    /\ ((4 <= List.length (fixed_prefix (JS.split "." spec)))%nat ->
        Util.resolveRuntimeVersion env spec w = (w, Resolved spec))
    /\ (Forall numeric (JS.split "." spec) ->
        (List.length (JS.split "." spec) <= 3)%nat ->
        (exists w1 r rest,
            Util.resolveRuntimeVersion env spec w = (w1, r)
            /\ log w1 = log w ++ EvGet Util.index_url :: rest)
        /\ (forall statusCode body m,
              https_get env Util.index_url = Response statusCode body ->
              (200 <= statusCode <= 299)%Z ->
              first_such
                (fun v => leading (List.length (JS.split "." spec)) v
                          = JS.split "." spec)
                (index_of body) m ->
              Util.resolveRuntimeVersion env spec w
              = (logged w [EvGet Util.index_url], Resolved m))
        /\ Part000.resolveRuntimeVersion env spec w
           = (logged w [EvGet (Util.channel_url spec)],
              channel_answer env spec)).
Proof.
  intros env spec w Hlen Hok. split; [|split].
  - intros H. now apply util_resolve_asks_index.
  - intros H. now apply util_resolve_unchanged.
  - intros Hnum Hshort.
    destruct (numeric_pattern _ Hnum) as [_ Hfix].
    split; [|split].
    + apply util_resolve_asks_index; try assumption. rewrite Hfix. lia.
    + intros st body m Hget Hst Hm.
      apply (util_resolve_first_match env spec (JS.split "." spec) st body m);
        try assumption.
      * intros E. rewrite E in Hlen. simpl in Hlen. lia.
      * lia.
    + apply part000_resolve_channel. lia.
Qed.

(** ["10.65"] against the sample index. *)
Lemma short_numeric_spec_example :
  Util.resolveRuntimeVersion Sample.env "10.65" Sample.fresh
    = (logged Sample.fresh [EvGet Util.index_url], Resolved "10.65.1.2")
  /\ Part000.resolveRuntimeVersion Sample.env "10.65" Sample.fresh
    = (logged Sample.fresh [EvGet (Util.channel_url "10.65")],
       Rejected (Error "Could not resolve runtime version")).
Proof.
  destruct (short_numeric_spec_resolved_from_index
              Sample.env "10.65" Sample.fresh) as (_ & _ & H).
  - simpl. lia.
  - repeat constructor; right; reflexivity.
  - destruct H as (_ & Hu & Hp).
    + repeat constructor.
    + simpl. lia.
    + split; [|exact Hp].
      apply (Hu 200%Z ("10.65.1.2" +++ JS.CRLF +++ "10.65.0.9" +++ JS.CRLF
                     +++ "9.0.0.0")).
      * reflexivity.
      * lia.
      * exists [], ["10.65.0.9"; "9.0.0.0"]. split; [reflexivity|].
        split; [reflexivity|constructor].
Defined.

(* ================================================================== *)
(** ** The file-system tree *)

Section Tree.

Lemma entry_set_entry : forall s c es,
  Fs.entry s (Fs.set_entry s (Some c) es) = Some c.
Proof.
  intros s c es; induction es as [|[k v] es IH]; simpl.
  - now rewrite String.eqb_refl.
  - destruct (k =? s)%string eqn:E; simpl; rewrite E; [reflexivity|exact IH].
Qed.

Lemma set_entry_twice : forall s o c es,
  Fs.entry s es <> None ->
  Fs.set_entry s o (Fs.set_entry s (Some c) es) = Fs.set_entry s o es.
Proof.
  intros s o c es; induction es as [|[k v] es IH]; simpl; intros H.
  - contradiction.
  - destruct (k =? s)%string eqn:E; simpl; rewrite E.
    + reflexivity.
    + f_equal. now apply IH.
Qed.

Lemma walk_app : forall p q t,
  Fs.walk (p ++ q) t =
  match Fs.walk p t with
  | inl c => Fs.walk q c
  | inr code => inr code
  end.
Proof.
  induction p as [|s p IH]; intros q t; simpl.
  - reflexivity.
  - destruct t as [m d|es]; [reflexivity|].
    destruct (Fs.entry s es); [apply IH|reflexivity].
Qed.

Lemma walk_prefix_dir : forall p s q t c,
  Fs.walk (p ++ s :: q) t = inl c -> exists es, Fs.walk p t = inl (Dir es).
Proof.
  intros p s q t c H. rewrite walk_app in H.
  destruct (Fs.walk p t) as [[m d|es]|code]; try discriminate.
  now exists es.
Qed.

Lemma put_cons_some : forall s p x es c,
  Fs.entry s es = Some c ->
  Fs.put (s :: p) (Some x) (Dir es)
  = Dir (Fs.set_entry s (Some (Fs.put p (Some x) c)) es).
Proof.
  intros s p x es c H. simpl. rewrite H. now destruct p.
Qed.

Lemma put_cons_deep : forall s s' p o es c,
  Fs.entry s es = Some c ->
  Fs.put (s :: s' :: p) o (Dir es)
  = Dir (Fs.set_entry s (Some (Fs.put (s' :: p) o c)) es).
Proof.
  intros s s' p o es c H. simpl. now rewrite H.
Qed.

(** Changing an entry of the directory at [p] is replacing that
    directory. *)
Lemma put_child : forall p k o t es,
  Fs.walk p t = inl (Dir es) ->
  Fs.put (p ++ [k]) o t = Fs.put p (Some (Dir (Fs.set_entry k o es))) t.
Proof.
  induction p as [|s p IH]; intros k o t es H.
  - simpl in H. injection H as ->. reflexivity.
  - simpl in H. destruct t as [m d|es0]; [discriminate|].
    destruct (Fs.entry s es0) as [c|] eqn:E; [|discriminate].
    rewrite (put_cons_some _ _ _ _ _ E).
    change ((s :: p) ++ [k]) with (s :: (p ++ [k])).
    destruct (p ++ [k]) as [|s' r] eqn:Er.
    + now destruct p.
    + rewrite (put_cons_deep _ _ _ _ _ _ E). rewrite <- Er.
      now rewrite (IH k o c es H).
Qed.

Lemma walk_put_same : forall p t c x,
  Fs.walk p t = inl c -> Fs.walk p (Fs.put p (Some x) t) = inl x.
Proof.
  induction p as [|s p IH]; intros t c x H.
  - reflexivity.
  - simpl in H. destruct t as [m d|es]; [discriminate|].
    destruct (Fs.entry s es) as [c0|] eqn:E; [|discriminate].
    rewrite (put_cons_some _ _ _ _ _ E). simpl.
    rewrite entry_set_entry. now apply (IH c0 c).
Qed.

Lemma put_put : forall p t c o x,
  Fs.walk p t = inl c -> (p = [] -> o <> None) ->
  Fs.put p o (Fs.put p (Some x) t) = Fs.put p o t.
Proof.
  induction p as [|s p IH]; intros t c o x H Ho.
  - simpl. destruct o; [reflexivity|]. now destruct Ho.
  - simpl in H. destruct t as [m d|es]; [discriminate|].
    destruct (Fs.entry s es) as [c0|] eqn:E; [|discriminate].
    rewrite (put_cons_some _ _ _ _ _ E).
    destruct p as [|s' p].
    + simpl. f_equal. apply set_entry_twice. now rewrite E.
    + rewrite (put_cons_deep s s' p o _ _ (entry_set_entry _ _ _)).
      rewrite (put_cons_deep s s' p o _ _ E).
      f_equal. rewrite set_entry_twice by now rewrite E.
      now rewrite (IH c0 c o x H).
Qed.

Lemma set_entry_same : forall s c es,
  Fs.entry s es = Some c -> Fs.set_entry s (Some c) es = es.
Proof.
  intros s c es; induction es as [|[k v] es IH]; simpl; intros H.
  - discriminate.
  - destruct (k =? s)%string eqn:E.
    + now injection H as ->.
    + f_equal. now apply IH.
Qed.

Lemma put_same : forall p t c,
  Fs.walk p t = inl c -> Fs.put p (Some c) t = t.
Proof.
  induction p as [|s p IH]; intros t c H.
  - simpl in H. now injection H as ->.
  - simpl in H. destruct t as [m d|es]; [discriminate|].
    destruct (Fs.entry s es) as [c0|] eqn:E; [|discriminate].
    rewrite (put_cons_some _ _ _ _ _ E), (IH c0 c H).
    f_equal. now apply set_entry_same.
Qed.

Lemma height_cons : forall k c es,
  Fs.height (Dir ((k, c) :: es))
  = S (Nat.max (Fs.height c) (pred (Fs.height (Dir es)))).
Proof. reflexivity. Qed.

Lemma height_entry : forall s es c,
  Fs.entry s es = Some c -> (Fs.height c < Fs.height (Dir es))%nat.
Proof.
  intros s es c; induction es as [|[k v] es IH]; intros H.
  - discriminate.
  - rewrite height_cons. simpl in H. destruct (k =? s)%string.
    + injection H as ->. lia.
    + specialize (IH H). lia.
Qed.

Lemma walk_height : forall p t c,
  Fs.walk p t = inl c -> (Fs.height c <= Fs.height t)%nat.
Proof.
  induction p as [|s p IH]; intros t c H; simpl in H.
  - injection H as ->. lia.
  - destruct t as [m d|es]; [discriminate|].
    destruct (Fs.entry s es) as [c0|] eqn:E; [|discriminate].
    specialize (IH _ _ H). pose proof (height_entry _ _ _ E). lia.
Qed.

End Tree.

(* ================================================================== *)
(** ** rmDir *)

Section RmDir.

(** On a directory, and with fuel for its height, [rmDir] removes every
    entry, and the directory too when asked; the log is not touched. *)
Lemma rmDir_rec_wipes : forall fuel p removeSelf t es lg,
  Fs.walk p t = inl (Dir es) ->
  (Fs.height (Dir es) <= fuel)%nat ->
  (removeSelf = true -> p <> []) ->
  Util.rmDir_rec fuel p removeSelf (mkWorld t lg)
  = (mkWorld (Fs.put p (if removeSelf then None else Some (Dir [])) t) lg,
     Resolved tt).
Proof.
  induction fuel as [|fuel IHf]; intros p removeSelf t es lg Hw Hh Hp.
  - simpl in Hh. lia.
  - cbn [Util.rmDir_rec]. unfold Fs.readdir at 1. cbn [fs]. rewrite Hw.
    unfold ret at 1.
    set (body := fun f : string =>
      file <- Fs.lstat (p ++ [f]) ;;
      if Fs.isFile file || Fs.isSymbolicLink file
      then Fs.unlink (p ++ [f])
      else Util.rmDir_rec fuel (p ++ [f]) true).
    assert (Loop : forall es0 t0,
      Fs.walk p t0 = inl (Dir es0) ->
      (Fs.height (Dir es0) <= S fuel)%nat ->
      exists vs,
        Util.promiseMap (map fst es0) body (mkWorld t0 lg)
        = (mkWorld (Fs.put p (Some (Dir [])) t0) lg, Resolved vs)).
    { induction es0 as [|[k c] es0 IHe]; intros t0 Hw0 Hh0.
      - exists []. simpl. unfold ret. now rewrite (put_same _ _ _ Hw0).
      - assert (Hc : Fs.walk (p ++ [k]) t0 = inl c).
        { rewrite walk_app, Hw0. simpl. now rewrite String.eqb_refl. }
        assert (Hput : Fs.put (p ++ [k]) None t0
                       = Fs.put p (Some (Dir es0)) t0).
        { rewrite (put_child _ _ _ _ _ Hw0). simpl.
          now rewrite String.eqb_refl. }
        assert (Step : body k (mkWorld t0 lg)
                       = (mkWorld (Fs.put p (Some (Dir es0)) t0) lg,
                          Resolved tt)).
        { unfold body, bind, Fs.lstat, Fs.stat. cbn [fs]. rewrite Hc.
          unfold ret at 1. destruct c as [m d|cs]; cbn [Fs.isFile orb].
          - unfold Fs.unlink. cbn [fs]. rewrite Hc.
            unfold Fs.set_fs. cbn [fs log]. now rewrite Hput.
          - cbn [Fs.isSymbolicLink].
            rewrite (IHf (p ++ [k]) true t0 cs lg Hc).
            + now rewrite Hput.
            + rewrite height_cons in Hh0. lia.
            + intros _. now destruct p. }
        destruct (IHe (Fs.put p (Some (Dir es0)) t0)) as [vs Hvs].
        + now apply (walk_put_same _ _ _ _ Hw0).
        + rewrite height_cons in Hh0. simpl. simpl in Hh0. lia.
        + exists (tt :: vs). cbn [map fst Util.promiseMap].
          unfold bind at 1. rewrite Step.
          unfold bind at 1. rewrite Hvs.
          rewrite (put_put _ _ _ _ _ Hw0) by discriminate. reflexivity. }
    destruct (Loop es t Hw Hh) as [vs Hvs].
    assert (Cleared :
      (if (0 <? List.length (map fst es))%nat
       then Util.promiseMap (map fst es) body ;;; ret tt
       else ret tt) (mkWorld t lg)
      = (mkWorld (Fs.put p (Some (Dir [])) t) lg, Resolved tt)).
    { destruct es as [|e es'].
      - simpl. unfold ret. now rewrite (put_same _ _ _ Hw).
      - replace (0 <? List.length (map fst (e :: es')))%nat with true
          by reflexivity.
        unfold bind at 1. now rewrite Hvs. }
    unfold bind at 1. fold body. rewrite Cleared.
    destruct removeSelf.
    + unfold Fs.rmdir. cbn [fs log].
      rewrite (walk_put_same _ _ _ _ Hw).
      destruct p as [|s p']; [now destruct Hp|].
      unfold Fs.set_fs. cbn [fs log].
      now rewrite (put_put _ _ _ _ _ Hw) by discriminate.
    + reflexivity.
Qed.

(** What is not a directory is left alone. *)
Lemma rmDir_rec_not_dir : forall fuel p removeSelf w,
  (forall es, Fs.walk p (fs w) <> inl (Dir es)) ->
  Util.rmDir_rec (S fuel) p removeSelf w = (w, Resolved tt).
Proof.
  intros fuel p removeSelf w H. cbn [Util.rmDir_rec].
  unfold Fs.readdir.
  destruct (Fs.walk p (fs w)) as [[m d|es]|code]; try reflexivity.
  now destruct (H es).
Qed.

Lemma rmDir_wipes : forall p removeSelf t es lg,
  Fs.walk p t = inl (Dir es) ->
  (removeSelf = true -> p <> []) ->
  Util.rmDir p removeSelf (mkWorld t lg)
  = (mkWorld (Fs.put p (if removeSelf then None else Some (Dir [])) t) lg,
     Resolved tt).
Proof.
  intros p removeSelf t es lg Hw Hp. unfold Util.rmDir. cbn [fs].
  apply (rmDir_rec_wipes _ _ _ _ es); try assumption.
  pose proof (walk_height _ _ _ Hw). lia.
Qed.

Lemma rmDir_not_dir : forall p removeSelf w,
  (forall es, Fs.walk p (fs w) <> inl (Dir es)) ->
  Util.rmDir p removeSelf w = (w, Resolved tt).
Proof.
  intros p removeSelf w H. unfold Util.rmDir. now apply rmDir_rec_not_dir.
Qed.

(** So [rmDir] always settles: the fuel it is given is never used up. *)
Lemma rmDir_settles : forall p removeSelf w,
  (removeSelf = true -> p <> []) ->
  exists t, Util.rmDir p removeSelf w = (mkWorld t (log w), Resolved tt).
Proof.
  intros p removeSelf [t lg] Hp.
  destruct (Fs.walk p t) as [[m d|es]|code] eqn:E.
  - exists t. apply rmDir_not_dir. cbn [fs]. rewrite E. discriminate.
  - eexists. now apply (rmDir_wipes _ _ _ es).
  - exists t. apply rmDir_not_dir. cbn [fs]. rewrite E. discriminate.
Qed.

End RmDir.

(* ================================================================== *)
(** ** The directory walk: getRuntimePath and resolveDir *)

Section Walk.

Variable target : path -> string -> path.

Lemma fold_settled : forall paths (m : M path) w,
  fold_left
    (fun (p : M path) (next : string) =>
       try_catch
         (prev <- p ;;
          Fs.mkdir (target prev next) ;;;
          ret (path_join prev next))
         Util.resolveDir_catch)
    paths m w
  = fold_left (fold_step target) paths (m w).
Proof.
  induction paths as [|next rest IH]; intros m w.
  - reflexivity.
  - cbn [fold_left]. rewrite IH. f_equal.
    unfold try_catch, bind, fold_step, ret.
    destruct (m w) as [w1 [prev|e|]]; try reflexivity.
    destruct (Fs.mkdir (target prev next) w1) as [w2 [u|e|]]; reflexivity.
Qed.

Lemma fold_step_rejected : forall paths w e,
  classify (Rejected e) = OtherError e ->
  fold_left (fold_step target) paths (w, Rejected e) = (w, Rejected e).
Proof.
  induction paths as [|next rest IH]; intros w e H.
  - reflexivity.
  - cbn [fold_left]. unfold fold_step at 2.
    replace (Util.resolveDir_catch e w) with (w, @Rejected path e).
    + now apply IH.
    + destruct e as [msg|code q]; [reflexivity|]. simpl in H |- *.
      destruct (code =? "EEXIST")%string; [discriminate|reflexivity].
Qed.

Lemma fold_step_pending : forall paths w,
  fold_left (fold_step target) paths (w, Pending) = (w, Pending).
Proof.
  induction paths as [|next rest IH]; intros w; [reflexivity|apply IH].
Qed.

Lemma classify_other : forall r e,
  classify r = OtherError e -> r = Rejected e /\ classify (Rejected e) = OtherError e.
Proof.
  intros r e H. destruct r as [u|[msg|code q]|]; simpl in H; try discriminate.
  - injection H as <-. now split.
  - destruct (code =? "EEXIST")%string eqn:E; [discriminate|].
    injection H as <-. split; [reflexivity|]. simpl. now rewrite E.
Qed.

(** The fold of the source is the loop of the spec. *)
Lemma fold_is_loop : forall paths base w,
  fold_left (fold_step target) paths (w, Resolved base)
  = create_or_adopt target base paths w.
Proof.
  induction paths as [|next rest IH]; intros base w.
  - reflexivity.
  - cbn [fold_left create_or_adopt]. unfold fold_step at 2.
    destruct (Fs.mkdir (target base next) w) as [w1 r].
    destruct (classify r) eqn:C.
    + destruct r as [u|[msg|code q]|]; simpl in C; try discriminate.
      * apply IH.
      * destruct (code =? "EEXIST")%string; discriminate.
    + destruct r as [u|[msg|code q]|]; simpl in C; try discriminate.
      destruct (code =? "EEXIST")%string eqn:E; [|discriminate].
      injection C as ->. simpl. rewrite E. apply IH.
    + apply classify_other in C as [-> C].
      replace (Util.resolveDir_catch e w1) with (w1, @Rejected path e).
      * now apply fold_step_rejected.
      * destruct e as [msg|code q]; [reflexivity|]. simpl in C |- *.
        destruct (code =? "EEXIST")%string; [discriminate|reflexivity].
    + destruct r as [u|[msg|code q]|]; simpl in C; try discriminate.
      * destruct (code =? "EEXIST")%string; discriminate.
      * apply fold_step_pending.
Qed.

End Walk.

Lemma resolveDir_is_loop : forall base paths w,
  Util.resolveDir base paths w = create_or_adopt path_resolve base paths w.
Proof.
  intros base paths w. unfold Util.resolveDir.
  rewrite (fold_settled path_resolve). apply fold_is_loop.
Qed.

Lemma getRuntimePath_is_loop : forall env v w,
  MacLaunch.getRuntimePath env v w
  = create_or_adopt path_join (HOME env) ["OpenFin"; "Runtime"; v] w.
Proof.
  intros env v w. unfold MacLaunch.getRuntimePath.
  change MacLaunch.catchExistsError with Util.resolveDir_catch.
  rewrite (fold_settled path_join). apply fold_is_loop.
Qed.

(* ================================================================== *)
(** ** Plain segments and concrete versions *)

Lemma nochar_append : forall c a b,
  nochar c a = true -> nochar c b = true -> nochar c (a +++ b) = true.
Proof.
  intros c a b Ha Hb; induction a as [|x a IH]; simpl in *.
  - exact Hb.
  - apply andb_true_iff in Ha as [Hx Ha]. rewrite Hx. now apply IH.
Qed.

Lemma nochar_join : forall c sp l,
  nochar c sp = true -> Forall (fun x => nochar c x = true) l ->
  nochar c (JS.join sp l) = true.
Proof.
  intros c sp l Hs H; induction H as [|x l Hx Hl IH].
  - reflexivity.
  - destruct l as [|y l]; [exact Hx|].
    change (JS.join sp (x :: y :: l)) with (x +++ sp +++ JS.join sp (y :: l)).
    apply nochar_append; [exact Hx|]. now apply nochar_append.
Qed.

Lemma plain_join : forall p s, plain_name s -> path_join p s = p ++ [s].
Proof.
  intros p s (Hs & H0 & H1 & H2). unfold path_join.
  rewrite (split_nochar "/"%char s Hs). simpl. unfold norm_step.
  apply String.eqb_neq in H0, H1, H2. now rewrite H0, H1, H2.
Qed.

Lemma plain_resolve : forall p s, plain_name s -> path_resolve p s = p ++ [s].
Proof.
  intros p s H. unfold path_resolve.
  replace (String.prefix "/" s) with false; [now apply plain_join|].
  destruct H as (Hs & H0 & _). destruct s as [|a s]; [contradiction|].
  cbn [nochar] in Hs. cbn [String.prefix].
  destruct (ascii_dec "/" a); [discriminate|reflexivity].
Qed.

Lemma concrete_version_plain : forall v, concrete_version v -> plain_name v.
Proof.
  intros v [Hlen Hnum]. split; [|split; [|split]].
  - rewrite <- (join_split "."%char v).
    apply nochar_join; [reflexivity|].
    eapply Forall_impl; [|exact Hnum]. intros x Hx.
    now apply numeric_nochar.
  - intros ->. discriminate Hlen.
  - intros ->. discriminate Hlen.
  - intros ->. discriminate Hlen.
Qed.

(* ================================================================== *)
(** ** The walk on the tree *)

Section WalkOnTree.

Variable target : path -> string -> path.
Hypothesis target_plain : forall p s, plain_name s -> target p s = p ++ [s].

Lemma mkdir_existing : forall p w n,
  Fs.walk p (fs w) = inl n ->
  Fs.mkdir p w = (w, Rejected (ErrnoException "EEXIST" p)).
Proof.
  intros p w n H. unfold Fs.mkdir. now rewrite H.
Qed.

Lemma mkdir_new : forall base s w code es,
  Fs.walk (base ++ [s]) (fs w) = inr code ->
  Fs.walk base (fs w) = inl (Dir es) ->
  Fs.mkdir (base ++ [s]) w
  = (mkWorld (Fs.put (base ++ [s]) (Some (Dir [])) (fs w)) (log w),
     Resolved tt).
Proof.
  intros base s w code es Hn Hb. unfold Fs.mkdir.
  now rewrite Hn, removelast_last, Hb.
Qed.

Lemma walk_new_entry : forall base s t es x,
  Fs.walk base t = inl (Dir es) ->
  Fs.walk (base ++ [s]) (Fs.put (base ++ [s]) (Some x) t) = inl x.
Proof.
  intros base s t es x Hb.
  rewrite (put_child _ _ _ _ _ Hb), walk_app, (walk_put_same _ _ _ _ Hb).
  simpl. now rewrite entry_set_entry.
Qed.

Lemma mkdir_quiet : forall p, quiet (Fs.mkdir p).
Proof.
  intros p w w1 r. unfold Fs.mkdir, Fs.fails, Fs.set_fs, reject.
  destruct (Fs.walk p (fs w)); [now intros [= <- _]|].
  destruct (Fs.walk (removelast p) (fs w)) as [[m d|es]|code];
    now intros [= <- _].
Qed.

Lemma mkdir_rejects : forall p w w1 e,
  Fs.mkdir p w = (w1, Rejected e) ->
  w1 = w /\ exists code, e = ErrnoException code p.
Proof.
  intros p w w1 e. unfold Fs.mkdir, Fs.fails, Fs.set_fs, reject.
  destruct (Fs.walk p (fs w)).
  - intros [= <- <-]. split; [reflexivity|now eexists].
  - destruct (Fs.walk (removelast p) (fs w)) as [[m d|es]|code];
      intros [= <- <-] || discriminate; split; try reflexivity; now eexists.
Qed.

(** All there already: every segment is adopted and nothing changes. *)
Lemma loop_adopts_existing : forall segs base w n,
  Forall plain_name segs ->
  Fs.walk (base ++ segs) (fs w) = inl n ->
  create_or_adopt target base segs w = (w, Resolved (base ++ segs)).
Proof.
  induction segs as [|s segs IH]; intros base w n Hp Hw.
  - simpl. now rewrite app_nil_r.
  - inversion Hp as [|? ? Hs Hp']; subst.
    cbn [create_or_adopt]. rewrite (target_plain _ _ Hs).
    change (base ++ s :: segs) with (base ++ [s] ++ segs) in Hw |- *.
    rewrite app_assoc in Hw |- *.
    assert (exists c, Fs.walk (base ++ [s]) (fs w) = inl c) as [c Hc].
    { rewrite walk_app in Hw.
      destruct (Fs.walk (base ++ [s]) (fs w)); [now eexists|discriminate]. }
    rewrite (mkdir_existing _ _ _ Hc). simpl.
    now apply (IH _ _ n).
Qed.

(** Whatever the walk does, it makes no outward call, and a path it
    resolves with is the base followed by the segments. *)
Lemma loop_result : forall segs base w w1 r,
  Forall plain_name segs ->
  create_or_adopt target base segs w = (w1, r) ->
  log w1 = log w /\ (forall q, r = Resolved q -> q = base ++ segs).
Proof.
  induction segs as [|s segs IH]; intros base w w1 r Hp H.
  - injection H as <- <-. split; [reflexivity|].
    intros q [= <-]. now rewrite app_nil_r.
  - inversion Hp as [|? ? Hs Hp']; subst.
    cbn [create_or_adopt] in H. rewrite (target_plain _ _ Hs) in H.
    destruct (Fs.mkdir (base ++ [s]) w) as [w2 r2] eqn:Hm.
    pose proof (mkdir_quiet _ _ _ _ Hm) as Hlog.
    change (base ++ s :: segs) with (base ++ [s] ++ segs).
    rewrite app_assoc.
    destruct r2 as [u|e|]; simpl in H.
    + rewrite (plain_join _ _ Hs) in H.
      destruct (IH _ _ _ _ Hp' H) as [H1 H2]. split; [congruence|exact H2].
    + destruct (mkdir_rejects _ _ _ _ Hm) as [-> [code ->]].
      simpl in H. destruct (code =? "EEXIST")%string.
      * apply (IH _ _ _ _ Hp' H).
      * injection H as <- <-. split; [reflexivity|discriminate].
    + injection H as <- <-. split; [exact Hlog|discriminate].
Qed.

(** What lies deeper than the walk goes, and is not there, is not there
    afterwards either. *)
Lemma loop_keeps_absent : forall segs base tail w w1 r,
  Forall plain_name segs -> tail <> [] ->
  (forall n, Fs.walk (base ++ segs ++ tail) (fs w) <> inl n) ->
  create_or_adopt target base segs w = (w1, r) ->
  forall n, Fs.walk (base ++ segs ++ tail) (fs w1) <> inl n.
Proof.
  induction segs as [|s segs IH]; intros base tail w w1 r Hp Ht Ha H.
  - now injection H as <- <-.
  - inversion Hp as [|? ? Hs Hp']; subst.
    cbn [create_or_adopt] in H. rewrite (target_plain _ _ Hs) in H.
    change (base ++ (s :: segs) ++ tail) with (base ++ [s] ++ segs ++ tail)
      in Ha |- *.
    rewrite app_assoc in Ha |- *.
    destruct (Fs.mkdir (base ++ [s]) w) as [w2 r2] eqn:Hm.
    destruct r2 as [u|e|]; simpl in H.
    + rewrite (plain_join _ _ Hs) in H.
      refine (IH _ _ _ _ _ Hp' Ht _ H).
      unfold Fs.mkdir in Hm.
      destruct (Fs.walk (base ++ [s]) (fs w)); [discriminate|].
      rewrite removelast_last in Hm.
      destruct (Fs.walk base (fs w)) as [[m d|es]|code] eqn:Hb;
        try discriminate.
      injection Hm as <-. cbn [fs]. intros n.
      rewrite walk_app, (walk_new_entry _ _ _ _ _ Hb).
      destruct segs as [|s' segs'].
      * destruct tail; [contradiction|discriminate].
      * discriminate.
    + destruct (mkdir_rejects _ _ _ _ Hm) as [-> [code ->]].
      simpl in H. destruct (code =? "EEXIST")%string.
      * apply (IH _ _ _ _ _ Hp' Ht Ha H).
      * now injection H as <- _.
    + injection H as <- _. unfold Fs.mkdir, Fs.fails, Fs.set_fs, reject in Hm.
      destruct (Fs.walk (base ++ [s]) (fs w)); [discriminate|].
      destruct (Fs.walk (removelast (base ++ [s])) (fs w)) as [[m d|es]|code];
        discriminate.
Qed.

(** With a directory to start from and no file in the way, the walk
    succeeds whichever of its segments are there already. *)
Lemma loop_succeeds : forall segs base w,
  Forall plain_name segs ->
  (exists n, Fs.walk base (fs w) = inl n) ->
  (forall pre s post m d,
      segs = pre ++ s :: post ->
      Fs.walk (base ++ pre) (fs w) <> inl (File m d)) ->
  exists w1 n,
    create_or_adopt target base segs w = (w1, Resolved (base ++ segs))
    /\ log w1 = log w
    /\ Fs.walk (base ++ segs) (fs w1) = inl n.
Proof.
  induction segs as [|s segs IH]; intros base w Hp [n Hn] Hfree.
  - exists w, n. rewrite app_nil_r. now repeat split.
  - inversion Hp as [|? ? Hs Hp']; subst.
    assert (Hb : exists es, Fs.walk base (fs w) = inl (Dir es)).
    { destruct n as [m d|es]; [|now exists es].
      exfalso. apply (Hfree [] s segs m d eq_refl).
      now rewrite app_nil_r. }
    destruct Hb as [es Hb].
    change (base ++ s :: segs) with (base ++ [s] ++ segs).
    rewrite app_assoc.
    cbn [create_or_adopt]. rewrite (target_plain _ _ Hs).
    destruct (Fs.walk (base ++ [s]) (fs w)) as [c|code] eqn:Hc.
    + rewrite (mkdir_existing _ _ _ Hc). simpl.
      apply IH; [exact Hp'|now exists c|].
      intros pre s' post m d E. rewrite <- app_assoc.
      apply (Hfree (s :: pre) s' post). now rewrite E.
    + rewrite (mkdir_new _ _ _ _ _ Hc Hb). simpl.
      rewrite (plain_join _ _ Hs).
      destruct (IH (base ++ [s])
                  (mkWorld (Fs.put (base ++ [s]) (Some (Dir [])) (fs w)) (log w)))
        as (w1 & n1 & H1 & H2 & H3).
      * exact Hp'.
      * exists (Dir []). cbn [fs]. now apply (walk_new_entry _ _ _ es).
      * intros pre s' post m d E. cbn [fs].
        rewrite walk_app, (walk_new_entry _ _ _ _ _ Hb).
        destruct pre; simpl; discriminate.
      * exists w1, n1. now repeat split.
Qed.

End WalkOnTree.

(** Claim C8.  The segment-by-segment creation of both [resolveDir] and
    [getRuntimePath] is the loop that attempts each creation and tells the
    outcomes apart: for every base and segment list, an attempt rejected
    with EEXIST counts as success and the walk goes on from the existing
    path, any other rejection ends the walk as its failure.  On the tree,
    from an existing base and with no file in the way, the walk succeeds
    whichever of its segments exist already. *)
Theorem directory_walk_creates_or_adopts :
  (forall base paths w,
      Util.resolveDir base paths w
      = create_or_adopt path_resolve base paths w)
  /\ (forall env v w,
        MacLaunch.getRuntimePath env v w
        = create_or_adopt path_join (HOME env) ["OpenFin"; "Runtime"; v] w)
  /\ (forall base next rest w w1 existing,
        Fs.mkdir (path_resolve base next) w
        = (w1, Rejected (ErrnoException "EEXIST" existing)) ->
        Util.resolveDir base (next :: rest) w
        = Util.resolveDir existing rest w1)
  /\ (forall base next rest w w1 e,
        Fs.mkdir (path_resolve base next) w = (w1, Rejected e) ->
        err_code e <> Some "EEXIST" ->
        Util.resolveDir base (next :: rest) w = (w1, Rejected e))
  /\ (forall base paths w,
        Forall plain_name paths ->
        (exists n, Fs.walk base (fs w) = inl n) ->
        (forall pre s post m d,
            paths = pre ++ s :: post ->
            Fs.walk (base ++ pre) (fs w) <> inl (File m d)) ->
        exists w1 n,
          Util.resolveDir base paths w = (w1, Resolved (base ++ paths))
          /\ log w1 = log w
          /\ Fs.walk (base ++ paths) (fs w1) = inl n)
  /\ (forall env v w,
        plain_name v ->
        (exists n, Fs.walk (HOME env) (fs w) = inl n) ->
        (forall pre s post m d,
            ["OpenFin"; "Runtime"; v] = pre ++ s :: post ->
            Fs.walk (HOME env ++ pre) (fs w) <> inl (File m d)) ->
        exists w1 n,
          MacLaunch.getRuntimePath env v w
          = (w1, Resolved (runtime_folder env v))
          /\ log w1 = log w
          /\ Fs.walk (runtime_folder env v) (fs w1) = inl n).
Proof.
  split; [exact resolveDir_is_loop|].
  split; [exact getRuntimePath_is_loop|].
  split; [|split; [|split]].
  - intros base next rest w w1 existing H.
    rewrite !resolveDir_is_loop. cbn [create_or_adopt]. now rewrite H.
  - intros base next rest w w1 e H He.
    rewrite resolveDir_is_loop. cbn [create_or_adopt]. rewrite H.
    destruct e as [msg|code q]; [reflexivity|]. simpl.
    destruct (code =? "EEXIST")%string eqn:E; [|reflexivity].
    apply String.eqb_eq in E. subst code. now destruct He.
  - intros base paths w Hp Hb Hfree.
    destruct (loop_succeeds path_resolve plain_resolve paths base w Hp Hb Hfree)
      as (w1 & n & H1 & H2 & H3).
    exists w1, n. rewrite resolveDir_is_loop. now repeat split.
  - intros env v w Hv Hb Hfree.
    destruct (loop_succeeds path_join plain_join
                ["OpenFin"; "Runtime"; v] (HOME env) w) as (w1 & n & H1 & H2 & H3).
    + apply Forall_cons; [repeat split; discriminate|].
      apply Forall_cons; [repeat split; discriminate|].
      apply Forall_cons; [exact Hv|constructor].
    + exact Hb.
    + exact Hfree.
    + exists w1, n. rewrite getRuntimePath_is_loop. now repeat split.
Qed.

(** On the sample tree, where [OpenFin/Runtime] is there: the walk adopts
    the first two segments and creates the third; [resolveDir] goes on from
    the path of the EEXIST error; and below a regular file the ENOTDIR of
    the first attempt is the result. *)
Lemma directory_walk_example :
  (exists w1 n,
      MacLaunch.getRuntimePath Sample.env "10.65.1.2" Sample.stale
      = (w1, Resolved (runtime_folder Sample.env "10.65.1.2"))
      /\ log w1 = log Sample.stale
      /\ Fs.walk (runtime_folder Sample.env "10.65.1.2") (fs w1) = inl n)
  /\ Util.resolveDir Sample.home ["OpenFin"; "Runtime"] Sample.stale
     = Util.resolveDir (Sample.home ++ ["OpenFin"]) ["Runtime"] Sample.stale
  /\ Util.resolveDir (runtime_folder Sample.env "9.9.9.9" ++ ["debug.log"])
       ["sub"; "deeper"] Sample.stale
     = (Sample.stale,
        Rejected (ErrnoException "ENOTDIR"
          (runtime_folder Sample.env "9.9.9.9" ++ ["debug.log"; "sub"]))).
Proof.
  destruct directory_walk_creates_or_adopts as (_ & _ & Hadopt & Hother & _ & Hrun).
  split; [|split].
  - apply Hrun.
    + repeat split; try discriminate; reflexivity.
    + eexists. reflexivity.
    + intros pre s post m d E.
      destruct pre as [|a [|b [|c pre]]]; simpl in E.
      * vm_compute. discriminate.
      * injection E as <- _ _. vm_compute. discriminate.
      * injection E as <- <- _. vm_compute. discriminate.
      * injection E as _ _ _ E. now destruct pre.
  - apply Hadopt. reflexivity.
  - apply Hother; [reflexivity|discriminate].
Defined.

(* ================================================================== *)
(** ** Computations that make no outward call *)

Section Quiet.

Lemma quiet_ret : forall A (a : A), quiet (ret a).
Proof. intros A a w w1 r [= <- _]. reflexivity. Qed.

Lemma quiet_reject : forall A e, quiet (@reject A e).
Proof. intros A e w w1 r [= <- _]. reflexivity. Qed.

Lemma quiet_bind : forall A B (m : M A) (k : A -> M B),
  quiet m -> (forall a, quiet (k a)) -> quiet (bind m k).
Proof.
  intros A B m k Hm Hk w w1 r. unfold bind.
  destruct (m w) as [w2 [a|e|]] eqn:E; pose proof (Hm _ _ _ E) as H2.
  - intros H. rewrite (Hk _ _ _ _ H). exact H2.
  - now intros [= <- _].
  - now intros [= <- _].
Qed.

Lemma quiet_try_catch : forall A (m : M A) h,
  quiet m -> (forall e, quiet (h e)) -> quiet (try_catch m h).
Proof.
  intros A m h Hm Hh w w1 r. unfold try_catch.
  destruct (m w) as [w2 [a|e|]] eqn:E; pose proof (Hm _ _ _ E) as H2.
  - now intros [= <- _].
  - intros H. rewrite (Hh _ _ _ _ H). exact H2.
  - now intros [= <- _].
Qed.

Lemma quiet_stat : forall p, quiet (Fs.stat p).
Proof.
  intros p w w1 r. unfold Fs.stat, Fs.fails, ret, reject.
  destruct (Fs.walk p (fs w)); now intros [= <- _].
Qed.

Lemma quiet_readdir : forall p, quiet (Fs.readdir p).
Proof.
  intros p w w1 r. unfold Fs.readdir, Fs.fails, ret, reject.
  destruct (Fs.walk p (fs w)) as [[m d|es]|code]; now intros [= <- _].
Qed.

Lemma quiet_unlink : forall p, quiet (Fs.unlink p).
Proof.
  intros p w w1 r. unfold Fs.unlink, Fs.fails, Fs.set_fs, reject.
  destruct (Fs.walk p (fs w)) as [[m d|es]|code]; now intros [= <- _].
Qed.

Lemma quiet_rmdir : forall p, quiet (Fs.rmdir p).
Proof.
  intros p w w1 r. unfold Fs.rmdir, Fs.fails, Fs.set_fs, reject.
  destruct (Fs.walk p (fs w)) as [[m d|[|e es]]|code];
    try now intros [= <- _].
  destruct p; now intros [= <- _].
Qed.

Lemma quiet_write_stream : forall p data, quiet (Fs.write_stream p data).
Proof.
  intros p data w w1 r. unfold Fs.write_stream, Fs.set_fs.
  destruct (Fs.walk p (fs w)) as [[m d|es]|code]; try now intros [= <- _].
  destruct p; [now intros [= <- _]|].
  destruct (Fs.walk (removelast (s :: p)) (fs w)) as [[m d|es]|code'];
    now intros [= <- _].
Qed.

Lemma quiet_promiseMap : forall T S (f : T -> M S) arr,
  (forall x, quiet (f x)) -> quiet (Util.promiseMap arr f).
Proof.
  intros T S f arr Hf; induction arr as [|x arr IH]; cbn [Util.promiseMap].
  - apply quiet_ret.
  - apply quiet_bind; [apply Hf|]. intros v.
    apply quiet_bind; [exact IH|]. intros vs. apply quiet_ret.
Qed.

Lemma quiet_rmDir_rec : forall fuel p removeSelf,
  quiet (Util.rmDir_rec fuel p removeSelf).
Proof.
  induction fuel as [|fuel IH]; intros p removeSelf w w1 r.
  - now intros [= <- _].
  - cbn [Util.rmDir_rec].
    destruct (Fs.readdir p w) as [w2 [files|e|]] eqn:E;
      pose proof (quiet_readdir _ _ _ _ E) as H2.
    + intros H. rewrite <- H2. revert H. apply quiet_bind.
      * destruct (0 <? List.length files)%nat; [|apply quiet_ret].
        apply quiet_bind; [|intros; apply quiet_ret].
        apply quiet_promiseMap. intros f.
        apply quiet_bind; [apply quiet_stat|]. intros file.
        destruct (Fs.isFile file || Fs.isSymbolicLink file);
          [apply quiet_unlink|apply IH].
      * intros _. destruct removeSelf; [apply quiet_rmdir|apply quiet_ret].
    + now intros [= <- _].
    + now intros [= <- _].
Qed.

Lemma quiet_rmDir : forall p removeSelf, quiet (Util.rmDir p removeSelf).
Proof.
  intros p removeSelf w w1 r. unfold Util.rmDir. apply quiet_rmDir_rec.
Qed.

End Quiet.

(* ================================================================== *)
(** ** download *)

Section Download.

Variable env : Env.

Lemma quiet_logs : forall A (m : M A), quiet m -> logs [] m.
Proof.
  intros A m H w w1 a E. rewrite app_nil_r. exact (H _ _ _ E).
Qed.

Lemma logs_bind : forall A B e1 e2 (m : M A) (k : A -> M B),
  logs e1 m -> (forall a, logs e2 (k a)) -> logs (e1 ++ e2) (bind m k).
Proof.
  intros A B e1 e2 m k Hm Hk w w1 b. unfold bind.
  destruct (m w) as [w2 [a|e|]] eqn:E; try discriminate.
  intros H. rewrite (Hk _ _ _ _ H), (Hm _ _ _ E). now rewrite app_assoc.
Qed.

Lemma logs_downloadFile : forall url file,
  logs [EvDownload url file] (Util.downloadFile env url file).
Proof.
  intros url file. unfold Util.downloadFile.
  apply (logs_bind _ _ [EvDownload url file] []).
  - intros w w1 a [= <- _]. reflexivity.
  - intros _. apply quiet_logs.
    destruct (https_get env url) as [st body|e].
    + destruct (st =? 200)%Z; [apply quiet_write_stream|].
      destruct (st =? 404)%Z; apply quiet_reject.
    + now intros w w1 r [= <- _].
Qed.

Lemma logs_unzip : forall file dest,
  logs [EvExec ("unzip " +++ path_string file +++ " -d " +++ path_string dest)]
       (Util.unzip env file dest).
Proof.
  intros file dest. unfold Util.unzip.
  set (command := "unzip " +++ path_string file +++ " -d " +++ path_string dest).
  apply (logs_bind _ _ [EvExec command] []).
  - intros w w1 a [= <- _]. reflexivity.
  - intros _ w w1 a. destruct (exec env command (fs w)) as [t r].
    intros [= <- _]. simpl. now rewrite app_nil_r.
Qed.

Lemma staging_dir_join : forall folder,
  path_join folder "tmp" = staging_dir folder.
Proof. reflexivity. Qed.

Lemma staging_file_join : forall folder,
  path_join (path_join folder "tmp") "tmp" = staging_file folder.
Proof.
  intros folder. unfold staging_file.
  change (path_join (path_join folder "tmp") "tmp")
    with ((folder ++ ["tmp"]) ++ ["tmp"]).
  now rewrite <- app_assoc.
Qed.

(** A download that resolves has requested the archive once and run
    [unzip] once, and nothing else. *)
Lemma logs_download : forall v folder,
  logs [EvDownload (archive_url v) (staging_file folder);
        EvExec (unzip_command folder)]
       (MacLaunch.download env v folder).
Proof.
  intros v folder. unfold MacLaunch.download.
  rewrite staging_file_join.
  apply (logs_bind _ _ [] [_; _]); [apply quiet_logs, quiet_rmDir|].
  intros _. apply (logs_bind _ _ [] [_; _]).
  { apply quiet_logs, quiet_try_catch; [apply mkdir_quiet|].
    intros e. apply quiet_ret. }
  intros _. apply (logs_bind _ _ [_] [_]); [apply logs_downloadFile|].
  intros _. apply (logs_bind _ _ [_] []); [apply logs_unzip|].
  intros _. apply (logs_bind _ _ [] []); [apply quiet_logs, quiet_rmDir|].
  intros _. apply quiet_logs, quiet_ret.
Qed.

Lemma download_returns_folder : forall v folder w w1 q,
  MacLaunch.download env v folder w = (w1, Resolved q) -> q = folder.
Proof.
  intros v folder w w1 q. unfold MacLaunch.download, bind.
  repeat match goal with
  | |- context [match ?m ?x with pair _ _ => _ end] =>
      destruct (m x) as [? [?|?|]]; try discriminate
  end.
  unfold ret. now intros [= _ <-].
Qed.

End Download.

(* ================================================================== *)
(** ** install *)

Section Install.

Variable env : Env.

Lemma util_resolve_concrete : forall v w,
  concrete_version v ->
  Util.resolveRuntimeVersion env v w = (w, Resolved v).
Proof.
  intros v w [Hlen Hnum]. destruct (numeric_pattern _ Hnum) as [Hok Hfix].
  apply util_resolve_unchanged; [lia|exact Hok|]. rewrite Hfix. lia.
Qed.

Lemma binary_join : forall folder,
  path_join folder "OpenFin.app/Contents/MacOS/OpenFin"
  = folder ++ ["OpenFin.app"; "Contents"; "MacOS"; "OpenFin"].
Proof.
  intros folder.
  change (path_join folder "OpenFin.app/Contents/MacOS/OpenFin")
    with ((((folder ++ ["OpenFin.app"]) ++ ["Contents"]) ++ ["MacOS"])
          ++ ["OpenFin"]).
  now rewrite <- !app_assoc.
Qed.

Lemma version_segments_plain : forall v,
  concrete_version v -> Forall plain_name ["OpenFin"; "Runtime"; v].
Proof.
  intros v Hv.
  apply Forall_cons; [repeat split; discriminate|].
  apply Forall_cons; [repeat split; discriminate|].
  apply Forall_cons; [now apply concrete_version_plain|constructor].
Qed.

Lemma chmod_run : forall p mode w,
  (exists n, Fs.walk p (fs w) = inl n) ->
  Fs.chmod p mode w
  = (mkWorld (chmod_tree p mode (fs w)) (log w ++ [EvChmod p mode]),
     Resolved tt).
Proof.
  intros p mode w [n Hn]. unfold Fs.chmod, bind, emit, chmod_tree.
  cbn [fs log]. rewrite Hn. destruct n as [m d|es]; reflexivity.
Qed.

(** The binary is there: the version is adopted as it is, the folders are
    adopted, and the one thing done is the chmod. *)
Lemma install_installed : forall v w n,
  concrete_version v ->
  Fs.walk (binary_path env v) (fs w) = inl n ->
  MacLaunch.install env v w
  = (mkWorld (chmod_tree (binary_path env v) 493 (fs w))
             (log w ++ [EvChmod (binary_path env v) 493]),
     Resolved (binary_path env v)).
Proof.
  intros v w n Hv Hn. unfold MacLaunch.install.
  unfold bind at 1. rewrite (util_resolve_concrete _ _ Hv).
  unfold bind at 1. rewrite getRuntimePath_is_loop.
  assert (Hf : exists c, Fs.walk (runtime_folder env v) (fs w) = inl c).
  { unfold binary_path in Hn. rewrite walk_app in Hn.
    destruct (Fs.walk (runtime_folder env v) (fs w));
      [now eexists|discriminate]. }
  destruct Hf as [c Hc].
  rewrite (loop_adopts_existing path_join plain_join _ _ _ c
             (version_segments_plain _ Hv) Hc).
  fold (runtime_folder env v). rewrite binary_join.
  fold (binary_path env v).
  unfold bind at 1. unfold try_catch, bind at 1.
  unfold Fs.stat. rewrite Hn. unfold ret at 1 2.
  unfold bind. rewrite chmod_run by now exists n. reflexivity.
Qed.

(** The binary is not there and [install] resolves: it has resolved with
    the binary's path after one archive request and one [unzip]. *)
Lemma install_downloading : forall v w w1 p,
  concrete_version v ->
  (forall n, Fs.walk (binary_path env v) (fs w) <> inl n) ->
  MacLaunch.install env v w = (w1, Resolved p) ->
  p = binary_path env v
  /\ log w1 = log w ++ [EvDownload (archive_url v)
                                   (staging_file (runtime_folder env v));
                        EvExec (unzip_command (runtime_folder env v))].
Proof.
  intros v w w1 p Hv Habs. unfold MacLaunch.install.
  unfold bind at 1. rewrite (util_resolve_concrete _ _ Hv).
  unfold bind at 1. rewrite getRuntimePath_is_loop.
  destruct (create_or_adopt path_join (HOME env) ["OpenFin"; "Runtime"; v] w)
    as [w2 r] eqn:Hloop.
  destruct (loop_result path_join plain_join _ _ _ _ _
              (version_segments_plain _ Hv) Hloop) as [Hlog Hq].
  assert (Habs2 : forall n, Fs.walk (binary_path env v) (fs w2) <> inl n).
  { unfold binary_path, runtime_folder in Habs |- *.
    rewrite <- app_assoc in Habs |- *.
    apply (loop_keeps_absent path_join plain_join _ _
             ["OpenFin.app"; "Contents"; "MacOS"; "OpenFin"] _ _ _
             (version_segments_plain _ Hv) ltac:(discriminate) Habs Hloop). }
  destruct r as [q|e|]; try discriminate.
  rewrite (Hq q eq_refl). fold (runtime_folder env v).
  rewrite binary_join. fold (binary_path env v).
  unfold bind at 1. unfold try_catch at 1, bind at 1. unfold Fs.stat.
  destruct (Fs.walk (binary_path env v) (fs w2)) as [n|code] eqn:Hb.
  { now destruct (Habs2 n). }
  unfold Fs.fails, reject at 1. unfold ret at 1.
  unfold bind at 1, try_catch at 1, bind at 1.
  destruct (MacLaunch.download env v (runtime_folder env v) w2)
    as [w3 [f|e|]] eqn:Hd; try discriminate.
  unfold ret. intros [= <- <-]. split; [reflexivity|].
  rewrite (logs_download env _ _ _ _ _ Hd). now rewrite Hlog.
Qed.

End Install.

(** Claim C3.  For a concrete version: when the binary exists at its path
    under the installation directory, [install] adopts the folders, repairs
    the permissions and returns that path, its one outward call being the
    chmod (no request, no download, no extraction); and when a first call,
    starting without the binary, has installed it, the two calls in a row
    have made one archive request and one extraction, the second call
    adding the chmod alone. *)
Theorem install_idempotent :
  forall env v w,
    concrete_version v ->
    (forall n,
        Fs.walk (binary_path env v) (fs w) = inl n ->
        MacLaunch.install env v w
        = (mkWorld (chmod_tree (binary_path env v) 493 (fs w))
                   (log w ++ [EvChmod (binary_path env v) 493]),
           Resolved (binary_path env v)))
    /\ (forall w1 p n,
          (forall n0, Fs.walk (binary_path env v) (fs w) <> inl n0) ->
          MacLaunch.install env v w = (w1, Resolved p) ->
          Fs.walk (binary_path env v) (fs w1) = inl n ->
          p = binary_path env v
          /\ exists w2,
               MacLaunch.install env v w1 = (w2, Resolved (binary_path env v))
               /\ fs w2 = chmod_tree (binary_path env v) 493 (fs w1)
               /\ log w2
                  = log w
                    ++ [EvDownload (archive_url v)
                                   (staging_file (runtime_folder env v));
                        EvExec (unzip_command (runtime_folder env v));
                        EvChmod (binary_path env v) 493]).
Proof.
  intros env v w Hv. split.
  - intros n Hn. now apply (install_installed env v w n).
  - intros w1 p n Habs H1 Hn.
    destruct (install_downloading env v w w1 p Hv Habs H1) as [-> Hlog].
    split; [reflexivity|].
    eexists. split; [apply (install_installed env v w1 n Hv Hn)|].
    split; [reflexivity|]. cbn [log]. rewrite Hlog.
    now rewrite <- app_assoc.
Qed.

(** 10.65.1.2 on a machine where nothing is installed: the first call
    downloads and unpacks, the second finds the binary. *)
Lemma install_twice_example :
  MacLaunch.install Sample.env "10.65.1.2" Sample.installed
  = (mkWorld (chmod_tree (binary_path Sample.env "10.65.1.2") 493
                         (fs Sample.installed))
             [EvChmod (binary_path Sample.env "10.65.1.2") 493],
     Resolved (binary_path Sample.env "10.65.1.2"))
  /\ exists w1 w2,
    MacLaunch.install Sample.env "10.65.1.2" Sample.fresh
    = (w1, Resolved (binary_path Sample.env "10.65.1.2"))
    /\ MacLaunch.install Sample.env "10.65.1.2" w1
       = (w2, Resolved (binary_path Sample.env "10.65.1.2"))
    /\ log w2
       = [EvDownload (archive_url "10.65.1.2")
                     (staging_file (runtime_folder Sample.env "10.65.1.2"));
          EvExec (unzip_command (runtime_folder Sample.env "10.65.1.2"));
          EvChmod (binary_path Sample.env "10.65.1.2") 493].
Proof.
  assert (Hv : concrete_version "10.65.1.2").
  { split; [reflexivity|repeat constructor]. }
  split.
  { apply (proj1 (install_idempotent Sample.env "10.65.1.2" Sample.installed
                    Hv) (File 420 "binary")).
    reflexivity. }
  set (w1 := fst (MacLaunch.install Sample.env "10.65.1.2" Sample.fresh)).
  destruct (proj2 (install_idempotent Sample.env "10.65.1.2" Sample.fresh Hv)
              w1 (binary_path Sample.env "10.65.1.2") (File 420 "binary"))
    as [_ [w2 (H2 & _ & H3)]].
  - intros n0. vm_compute. discriminate.
  - vm_compute. reflexivity.
  - vm_compute. reflexivity.
  - exists w1, w2. split; [vm_compute; reflexivity|].
    split; [exact H2|exact H3].
Defined.

(* ================================================================== *)
(** ** What download removes *)

Section Clearing.

Variable env : Env.

Lemma put_app : forall p q o t c,
  Fs.walk p t = inl c -> (q = [] -> o <> None) ->
  Fs.put (p ++ q) o t = Fs.put p (Some (Fs.put q o c)) t.
Proof.
  induction p as [|s p IH]; intros q o t c H Ho.
  - simpl in H. injection H as ->. reflexivity.
  - simpl in H. destruct t as [m d|es]; [discriminate|].
    destruct (Fs.entry s es) as [c0|] eqn:E; [|discriminate].
    rewrite (put_cons_some _ _ _ _ _ E).
    change ((s :: p) ++ q) with (s :: (p ++ q)).
    destruct (p ++ q) as [|s' r] eqn:Er.
    + apply app_eq_nil in Er as [-> ->].
      destruct o as [x|]; [reflexivity|now destruct Ho].
    + rewrite (put_cons_deep _ _ _ _ _ _ E), <- Er.
      now rewrite (IH q o c0 c H Ho).
Qed.

Lemma removelast_staging_file : forall folder,
  removelast (staging_file folder) = staging_dir folder.
Proof.
  intros folder. unfold staging_file, staging_dir.
  change (folder ++ ["tmp"; "tmp"]) with (folder ++ ["tmp"] ++ ["tmp"]).
  rewrite app_assoc. apply removelast_last.
Qed.

(** The first two steps: everything in the folder goes, the staging
    directory comes. *)
Lemma download_clears : forall folder t es lg,
  Fs.walk folder t = inl (Dir es) ->
  (Util.rmDir folder false ;;;
   try_catch (Fs.mkdir (path_join folder "tmp")) (fun _ => ret tt))
    (mkWorld t lg)
  = (mkWorld (staged folder [] t) lg, Resolved tt).
Proof.
  intros folder t es lg H. unfold bind.
  rewrite (rmDir_wipes _ _ _ _ _ H) by discriminate.
  pose proof (walk_put_same _ _ _ (Dir []) H) as H0.
  unfold try_catch. rewrite staging_dir_join. unfold staging_dir.
  rewrite (mkdir_new folder "tmp" _ "ENOENT" []).
  - cbn [fs log]. rewrite (put_child _ _ _ _ _ H0).
    unfold staged. now rewrite (put_put _ _ _ _ _ H) by discriminate.
  - cbn [fs]. now rewrite walk_app, H0.
  - exact H0.
Qed.

Lemma write_staging_file : forall folder t es lg body,
  Fs.walk folder t = inl (Dir es) ->
  Fs.write_stream (staging_file folder) body (mkWorld (staged folder [] t) lg)
  = (mkWorld (staged folder [("tmp", File 420 body)] t) lg, Resolved tt).
Proof.
  intros folder t es lg body H. unfold staged.
  pose proof (walk_put_same _ _ _ (Dir [("tmp", Dir [])]) H) as H1.
  set (t0 := Fs.put folder (Some (Dir [("tmp", Dir [])])) t) in *.
  assert (W1 : Fs.walk (staging_file folder) t0 = inr "ENOENT").
  { unfold staging_file. now rewrite walk_app, H1. }
  assert (W2 : Fs.walk (removelast (staging_file folder)) t0 = inl (Dir [])).
  { rewrite removelast_staging_file. unfold staging_dir.
    now rewrite walk_app, H1. }
  unfold Fs.write_stream. cbn [fs]. rewrite W1.
  destruct (staging_file folder) as [|a l] eqn:Ep.
  { destruct folder; discriminate Ep. }
  rewrite W2, <- Ep. unfold Fs.set_fs. cbn [fs log]. unfold staging_file.
  rewrite (put_app _ _ _ _ _ H1) by discriminate. subst t0.
  now rewrite (put_put _ _ _ _ _ H) by discriminate.
Qed.

(** The archive request is refused: the folder is left cleared, with the
    empty staging directory in it. *)
Lemma download_refused : forall v folder t es lg statusCode body,
  Fs.walk folder t = inl (Dir es) ->
  https_get env (archive_url v) = Response statusCode body ->
  statusCode <> 200%Z ->
  MacLaunch.download env v folder (mkWorld t lg)
  = (mkWorld (staged folder [] t)
             (lg ++ [EvDownload (archive_url v) (staging_file folder)]),
     Rejected (refusal statusCode)).
Proof.
  intros v folder t es lg st body H Hget Hst. unfold MacLaunch.download.
  rewrite staging_file_join.
  unfold bind at 1.
  pose proof (download_clears folder t es lg H) as Hc.
  unfold bind at 1 in Hc.
  destruct (Util.rmDir folder false (mkWorld t lg)) as [w1 [u|e|]];
    try discriminate.
  unfold bind at 1. rewrite Hc.
  unfold bind at 1. unfold Util.downloadFile, bind at 1, emit.
  fold (archive_url v). rewrite Hget. cbn [fs log].
  apply Z.eqb_neq in Hst. rewrite Hst. unfold refusal.
  destruct (st =? 404)%Z; reflexivity.
Qed.

(** The archive is served: it is written to the staging file and
    unpacked, and the staging directory goes once [unzip] has succeeded. *)
Lemma download_served : forall v folder t es lg body t1 r,
  Fs.walk folder t = inl (Dir es) ->
  https_get env (archive_url v) = Response 200 body ->
  exec env (unzip_command folder) (staged folder [("tmp", File 420 body)] t)
  = (t1, r) ->
  MacLaunch.download env v folder (mkWorld t lg)
  = match r with
    | Resolved _ =>
        (mkWorld (without_dir (staging_dir folder) t1)
                 (lg ++ [EvDownload (archive_url v) (staging_file folder);
                         EvExec (unzip_command folder)]),
         Resolved folder)
    | Rejected e =>
        (mkWorld t1
                 (lg ++ [EvDownload (archive_url v) (staging_file folder);
                         EvExec (unzip_command folder)]),
         Rejected e)
    | Pending =>
        (mkWorld t1
                 (lg ++ [EvDownload (archive_url v) (staging_file folder);
                         EvExec (unzip_command folder)]),
         Pending)
    end.
Proof.
  intros v folder t es lg body t1 r H Hget Hexec. unfold MacLaunch.download.
  rewrite staging_file_join.
  pose proof (download_clears folder t es lg H) as Hc.
  unfold bind at 1 in Hc.
  unfold bind at 1.
  destruct (Util.rmDir folder false (mkWorld t lg)) as [w1 [u|e|]];
    try discriminate.
  unfold bind at 1. rewrite Hc.
  unfold bind at 1. unfold Util.downloadFile, bind at 1, emit.
  fold (archive_url v). rewrite Hget. cbn [fs log Z.eqb Pos.eqb].
  rewrite (write_staging_file _ _ _ _ _ H).
  unfold bind at 1. unfold Util.unzip, bind at 1, emit. cbn [fs log].
  fold (unzip_command folder). rewrite Hexec.
  rewrite <- app_assoc. cbn [app].
  destruct r as [out|e|]; try reflexivity.
  unfold bind. rewrite staging_dir_join. unfold without_dir.
  destruct (Fs.walk (staging_dir folder) t1) as [[m d|es1]|code] eqn:Hs.
  - rewrite rmDir_not_dir; [reflexivity|]. cbn [fs]. rewrite Hs. discriminate.
  - rewrite (rmDir_wipes _ _ _ _ _ Hs); [reflexivity|].
    intros _. unfold staging_dir. now destruct folder.
  - rewrite rmDir_not_dir; [reflexivity|]. cbn [fs]. rewrite Hs. discriminate.
Qed.

Lemma walk_staged : forall folder t es staging q,
  Fs.walk folder t = inl (Dir es) ->
  Fs.walk (folder ++ q) (staged folder staging t)
  = Fs.walk q (Dir [("tmp", Dir staging)]).
Proof.
  intros folder t es staging q H. unfold staged.
  now rewrite walk_app, (walk_put_same _ _ _ _ H).
Qed.

End Clearing.

(** Claim C7, refuted as stated: with a log file in the installation
    directory of 9.9.9.9 and no binary, the installation (which here ends
    on a refused archive request) has deleted the log file, which is not
    the staging subdirectory. *)
Lemma install_deletes_other_files :
  Fs.walk (runtime_folder Sample.env "9.9.9.9" ++ ["debug.log"])
          (fs Sample.stale) = inl (File 420 "trace")
  /\ snd (MacLaunch.install Sample.env "9.9.9.9" Sample.stale)
     = Rejected (Error "Could not install runtime 9.9.9.9 (9.9.9.9)")
  /\ Fs.walk (runtime_folder Sample.env "9.9.9.9" ++ ["debug.log"])
             (fs (fst (MacLaunch.install Sample.env "9.9.9.9" Sample.stale)))
     = inr "ENOENT".
Proof. vm_compute. repeat split. Qed.

(** Claim C7, amended.  When the binary is there, [install] removes
    nothing: the tree changes by the mode of the binary alone.  Otherwise
    [download] starts by clearing the installation directory, files and
    subdirectories alike (the directory itself stays), and makes the staging
    subdirectory in it.  On a refused archive request that is how the
    directory is left: holding the empty staging subdirectory and nothing
    else.  On a served archive the staging subdirectory is removed again
    once [unzip] has succeeded, and only then. *)
Theorem download_clears_installation_directory :
  forall env v,
    (forall w n,
        concrete_version v ->
        Fs.walk (binary_path env v) (fs w) = inl n ->
        fs (fst (MacLaunch.install env v w))
        = chmod_tree (binary_path env v) 493 (fs w))
    /\ (forall folder t es lg,
          Fs.walk folder t = inl (Dir es) ->
          (forall staging q,
              Fs.walk (folder ++ q) (staged folder staging t)
              = Fs.walk q (Dir [("tmp", Dir staging)]))
          /\ (forall statusCode body,
                https_get env (archive_url v) = Response statusCode body ->
                statusCode <> 200%Z ->
                MacLaunch.download env v folder (mkWorld t lg)
                = (mkWorld (staged folder [] t)
                           (lg ++ [EvDownload (archive_url v)
                                              (staging_file folder)]),
                   Rejected (refusal statusCode)))
          /\ (forall body t1 r,
                https_get env (archive_url v) = Response 200 body ->
                exec env (unzip_command folder)
                     (staged folder [("tmp", File 420 body)] t) = (t1, r) ->
                MacLaunch.download env v folder (mkWorld t lg)
                = (mkWorld
                     (match r with
                      | Resolved _ => without_dir (staging_dir folder) t1
                      | _ => t1
                      end)
                     (lg ++ [EvDownload (archive_url v) (staging_file folder);
                             EvExec (unzip_command folder)]),
                   match r with
                   | Resolved _ => Resolved folder
                   | Rejected e => Rejected e
                   | Pending => Pending
                   end))).
Proof.
  intros env v. split.
  - intros w n Hv Hn. now rewrite (install_installed env v w n Hv Hn).
  - intros folder t es lg H. split; [|split].
    + intros staging q. now apply (walk_staged folder t es).
    + intros st body Hget Hst.
      now apply (download_refused env v folder t es lg st body).
    + intros body t1 r Hget Hexec.
      rewrite (download_served env v folder t es lg body t1 r H Hget Hexec).
      now destruct r.
Qed.

(** On the sample trees: the installed 10.65.1.2 keeps all its files; the
    refused download of 9.9.9.9 leaves the empty staging directory alone;
    the served download of 10.65.1.2 clears, unpacks, and removes the
    staging directory. *)
Lemma download_clears_example :
  fs (fst (MacLaunch.install Sample.env "10.65.1.2" Sample.installed))
  = chmod_tree (binary_path Sample.env "10.65.1.2") 493 (fs Sample.installed)
  /\ MacLaunch.download Sample.env "9.9.9.9"
       (runtime_folder Sample.env "9.9.9.9") (mkWorld (fs Sample.stale) [])
     = (mkWorld
          (staged (runtime_folder Sample.env "9.9.9.9") [] (fs Sample.stale))
          [EvDownload (archive_url "9.9.9.9")
                      (staging_file (runtime_folder Sample.env "9.9.9.9"))],
        Rejected (refusal 404))
  /\ MacLaunch.download Sample.env "10.65.1.2"
       (runtime_folder Sample.env "10.65.1.2") (mkWorld (fs Sample.installed) [])
     = (mkWorld
          (without_dir (staging_dir (runtime_folder Sample.env "10.65.1.2"))
             (fst (Sample.shell
                     (unzip_command (runtime_folder Sample.env "10.65.1.2"))
                     (staged (runtime_folder Sample.env "10.65.1.2")
                             [("tmp", File 420 "zip")] (fs Sample.installed)))))
          [EvDownload (archive_url "10.65.1.2")
                      (staging_file (runtime_folder Sample.env "10.65.1.2"));
           EvExec (unzip_command (runtime_folder Sample.env "10.65.1.2"))],
        Resolved (runtime_folder Sample.env "10.65.1.2")).
Proof.
  split; [|split].
  - apply (proj1 (download_clears_installation_directory Sample.env "10.65.1.2")
             Sample.installed (File 420 "binary")).
    + split; [reflexivity|repeat constructor].
    + reflexivity.
  - destruct (proj2 (download_clears_installation_directory Sample.env "9.9.9.9")
                (runtime_folder Sample.env "9.9.9.9") (fs Sample.stale)
                [("debug.log", File 420 "trace")] [] eq_refl) as (_ & H & _).
    apply (H 404%Z ""); [reflexivity|discriminate].
  - destruct (proj2 (download_clears_installation_directory Sample.env "10.65.1.2")
                (runtime_folder Sample.env "10.65.1.2") (fs Sample.installed)
                [("OpenFin.app", Sample.app_tree)] [] eq_refl) as (_ & _ & H).
    apply (H "zip" _ (Resolved "")); reflexivity.
Defined.

(* ================================================================== *)
(** ** launch *)

Section Launch.

Variable env : Env.

Lemma quiet_spawn_free : forall A (m : M A), quiet m -> spawn_free m.
Proof.
  intros A m H w w1 r E. unfold spawns. now rewrite (H _ _ _ E).
Qed.

Lemma spawn_free_bind : forall A B (m : M A) (k : A -> M B),
  spawn_free m -> (forall a, spawn_free (k a)) -> spawn_free (bind m k).
Proof.
  intros A B m k Hm Hk w w1 r. unfold bind.
  destruct (m w) as [w2 [a|e|]] eqn:E; pose proof (Hm _ _ _ E) as H2.
  - intros H. rewrite (Hk _ _ _ _ H). exact H2.
  - now intros [= <- _].
  - now intros [= <- _].
Qed.

Lemma spawn_free_try_catch : forall A (m : M A) h,
  spawn_free m -> (forall e, spawn_free (h e)) -> spawn_free (try_catch m h).
Proof.
  intros A m h Hm Hh w w1 r. unfold try_catch.
  destruct (m w) as [w2 [a|e|]] eqn:E; pose proof (Hm _ _ _ E) as H2.
  - now intros [= <- _].
  - intros H. rewrite (Hh _ _ _ _ H). exact H2.
  - now intros [= <- _].
Qed.

Lemma spawn_free_emit : forall e, is_spawn e = false -> spawn_free (emit e).
Proof.
  intros e He w w1 r [= <- _]. unfold spawns. cbn [log].
  rewrite filter_app. simpl. rewrite He. apply app_nil_r.
Qed.

Lemma spawn_free_get : forall url, spawn_free (Util.get env url).
Proof.
  intros url. unfold Util.get.
  apply spawn_free_bind; [now apply spawn_free_emit|]. intros _.
  apply quiet_spawn_free.
  destruct (https_get env url) as [st body|e]; [|apply quiet_reject].
  destruct ((st <? 200)%Z || (299 <? st)%Z);
    [apply quiet_reject|apply quiet_ret].
Qed.

Lemma spawn_free_resolve : forall spec,
  spawn_free (Util.resolveRuntimeVersion env spec).
Proof.
  intros spec. unfold Util.resolveRuntimeVersion.
  assert (C : spawn_free
    (try_catch (Util.get env (Util.channel_url spec))
       (fun _ => reject (Error "Could not resolve runtime version")))).
  { apply spawn_free_try_catch; [apply spawn_free_get|].
    intros e. apply quiet_spawn_free, quiet_reject. }
  match goal with |- spawn_free (if ?b then _ else _) => destruct b end;
    [|exact C].
  match goal with |- spawn_free (if ?b then _ else _) => destruct b end;
    [|apply quiet_spawn_free, quiet_ret].
  apply spawn_free_bind; [apply spawn_free_get|]. intros res.
  match goal with |- spawn_free (match ?o with Some _ => _ | None => _ end) =>
    destruct o as [m|] end; [|exact C].
  destruct (JS.truthy m); [apply quiet_spawn_free, quiet_ret|exact C].
Qed.

Lemma quiet_getRuntimePath : forall v, quiet (MacLaunch.getRuntimePath env v).
Proof.
  intros v. unfold MacLaunch.getRuntimePath.
  generalize (quiet_ret _ (HOME env)).
  generalize (@ret path (HOME env)).
  generalize ["OpenFin"; "Runtime"; v].
  induction l as [|next rest IH]; intros m Hm; cbn [fold_left].
  - exact Hm.
  - apply IH. apply quiet_try_catch.
    + apply quiet_bind; [exact Hm|]. intros prev.
      apply quiet_bind; [apply mkdir_quiet|]. intros _. apply quiet_ret.
    + intros [msg|code q]; simpl; [apply quiet_reject|].
      destruct (code =? "EEXIST")%string; [apply quiet_ret|apply quiet_reject].
Qed.

Lemma spawn_free_download : forall v folder,
  spawn_free (MacLaunch.download env v folder).
Proof.
  intros v folder. unfold MacLaunch.download.
  apply spawn_free_bind; [apply quiet_spawn_free, quiet_rmDir|]. intros _.
  apply spawn_free_bind.
  { apply quiet_spawn_free, quiet_try_catch; [apply mkdir_quiet|].
    intros e. apply quiet_ret. }
  intros _. apply spawn_free_bind.
  { unfold Util.downloadFile.
    apply spawn_free_bind; [now apply spawn_free_emit|]. intros _.
    apply quiet_spawn_free.
    match goal with |- quiet (match ?x with Response _ _ => _ | _ => _ end) =>
      destruct x as [st body|e] end.
    - destruct (st =? 200)%Z; [apply quiet_write_stream|].
      destruct (st =? 404)%Z; apply quiet_reject.
    - now intros w w1 r [= <- _]. }
  intros _. apply spawn_free_bind.
  { unfold Util.unzip.
    apply spawn_free_bind; [now apply spawn_free_emit|]. intros _.
    apply quiet_spawn_free. intros w w1 r.
    match goal with |- context [exec env ?c (fs w)] =>
      destruct (exec env c (fs w)) as [t o] end.
    now intros [= <- _]. }
  intros _. apply spawn_free_bind; [apply quiet_spawn_free, quiet_rmDir|].
  intros _. apply quiet_spawn_free, quiet_ret.
Qed.

Lemma spawn_free_chmod : forall p mode, spawn_free (Fs.chmod p mode).
Proof.
  intros p mode. unfold Fs.chmod.
  apply spawn_free_bind; [now apply spawn_free_emit|]. intros _.
  apply quiet_spawn_free. intros w w1 r.
  unfold Fs.set_fs, Fs.fails, ret, reject.
  destruct (Fs.walk p (fs w)) as [[m d|es]|code]; now intros [= <- _].
Qed.

(** An installation, however it ends, spawns nothing. *)
Lemma spawn_free_install : forall spec, spawn_free (MacLaunch.install env spec).
Proof.
  intros spec. unfold MacLaunch.install.
  apply spawn_free_bind; [apply spawn_free_resolve|]. intros v.
  apply spawn_free_bind; [apply quiet_spawn_free, quiet_getRuntimePath|].
  intros folder. apply spawn_free_bind.
  { apply quiet_spawn_free, quiet_try_catch.
    - apply quiet_bind; [apply quiet_stat|]. intros n. apply quiet_ret.
    - intros e. apply quiet_ret. }
  intros b. apply spawn_free_bind; [|intros; apply quiet_spawn_free, quiet_ret].
  destruct b; [apply spawn_free_chmod|].
  apply spawn_free_try_catch.
  - apply spawn_free_bind; [apply spawn_free_download|].
    intros _. apply quiet_spawn_free, quiet_ret.
  - intros e. apply quiet_spawn_free, quiet_reject.
Qed.

(** The vector [launch] builds with unshift and push is
    [argument_vector]. *)
Lemma launch_spawns : forall config manifest pipe w1 runtimePath keyword,
  spawned w1 (path_string runtimePath)
          (argument_vector config manifest keyword pipe)
  = MacLaunch.spawn (path_string runtimePath)
      (let args3 :=
         ((("--startup-url=" +++ manifest) :: extra_arguments config)
          ++ ["--version-keyword=" +++ keyword])
         ++ ["--runtime-information-channel-v6=" +++ pipe] in
       let args4 :=
         match MacLaunch.securityRealm (MacLaunch.runtime config) with
         | Some realm =>
             if JS.truthy realm
             then args3 ++ ["--security-realm=" +++ realm]
             else args3
         | None => args3
         end in
       if MacLaunch.verboseLogging (MacLaunch.runtime config)
       then (args4 ++ ["--v=1"]) ++ ["--attach-console"]
       else args4) w1.
Proof.
  intros config manifest pipe w1 runtimePath keyword.
  unfold spawned, MacLaunch.spawn, bind, emit, ret, logged.
  unfold argument_vector, optional_arguments. cbn zeta.
  destruct (MacLaunch.securityRealm (MacLaunch.runtime config)) as [realm|];
    [destruct (JS.truthy realm)|];
    destruct (MacLaunch.verboseLogging (MacLaunch.runtime config));
    cbn [app]; rewrite <- ?app_assoc; cbn [app];
    rewrite ?app_nil_r; reflexivity.
Qed.

(** [launch], case by case on the installations. *)
Lemma launch_run : forall config manifest pipe w,
  MacLaunch.launch env config manifest pipe w
  = match MacLaunch.install env (MacLaunch.version (MacLaunch.runtime config)) w with
    | (w1, Resolved runtimePath) =>
        spawned w1 (path_string runtimePath)
          (argument_vector config manifest
             (MacLaunch.version (MacLaunch.runtime config)) pipe)
    | (w1, Rejected e) =>
        match MacLaunch.fallbackVersion (MacLaunch.runtime config) with
        | Some fallback =>
            match MacLaunch.install env fallback w1 with
            | (w2, Resolved runtimePath) =>
                spawned w2 (path_string runtimePath)
                  (argument_vector config manifest fallback pipe)
            | (w2, Rejected e') => (w2, Rejected e')
            | (w2, Pending) => (w2, Pending)
            end
        | None => (w1, Rejected e)
        end
    | (w1, Pending) => (w1, Pending)
    end.
Proof.
  intros config manifest pipe w. unfold MacLaunch.launch.
  unfold try_catch at 1. unfold bind at 1.
  unfold try_catch at 1. unfold bind at 1.
  destruct (MacLaunch.install env (MacLaunch.version (MacLaunch.runtime config)) w)
    as [w1 [runtimePath|e|]].
  - unfold ret at 1. cbn [fst snd].
    fold (extra_arguments config). rewrite <- launch_spawns. reflexivity.
  - destruct (MacLaunch.fallbackVersion (MacLaunch.runtime config))
      as [fallback|] eqn:Ef.
    + unfold bind at 1.
      destruct (MacLaunch.install env fallback w1) as [w2 [runtimePath|e'|]].
      * unfold ret at 1. cbn [fst snd].
        fold (extra_arguments config). rewrite <- launch_spawns. reflexivity.
      * reflexivity.
      * reflexivity.
    + reflexivity.
  - reflexivity.
Qed.

End Launch.

(** Claim C4.  With a fallback version configured, when the installation
    of the requested version is rejected and that of the fallback resolves,
    [launch] spawns the fallback's binary, and the version keyword in the
    argument vector is the fallback version: the one argument [launch]
    itself adds with that keyword (any other comes from the caller's extra
    arguments). *)
Theorem launch_falls_back :
  forall env config manifest pipe w w1 w2 e fallback runtimePath,
    MacLaunch.fallbackVersion (MacLaunch.runtime config) = Some fallback ->
    MacLaunch.install env (MacLaunch.version (MacLaunch.runtime config)) w
    = (w1, Rejected e) ->
    MacLaunch.install env fallback w1 = (w2, Resolved runtimePath) ->
    MacLaunch.launch env config manifest pipe w
    = spawned w2 (path_string runtimePath)
        (argument_vector config manifest fallback pipe)
    /\ In ("--version-keyword=" +++ fallback)
          (argument_vector config manifest fallback pipe)
    /\ (forall a,
          In a (argument_vector config manifest fallback pipe) ->
          String.prefix "--version-keyword=" a = true ->
          a = "--version-keyword=" +++ fallback
          \/ In a (extra_arguments config)).
Proof.
  intros env config manifest pipe w w1 w2 e fallback runtimePath Hf H1 H2.
  split; [|split].
  - now rewrite launch_run, H1, Hf, H2.
  - unfold argument_vector. right. apply in_or_app. right. now left.
  - intros a Ha Hp. unfold argument_vector in Ha.
    destruct Ha as [<-|Ha]; [discriminate Hp|].
    apply in_app_or in Ha as [Ha|Ha]; [now right|].
    destruct Ha as [<-|[<-|Ha]]; [now left|discriminate Hp|].
    exfalso. change (In a (optional_arguments config)) in Ha.
    unfold optional_arguments in Ha.
    apply in_app_or in Ha as [Ha|Ha].
    + destruct (MacLaunch.securityRealm (MacLaunch.runtime config)) as [realm|];
        [|contradiction].
      destruct (JS.truthy realm); [|contradiction].
      cbn [In] in Ha. destruct Ha as [<-|Ha]; [discriminate Hp|contradiction].
    + destruct (MacLaunch.verboseLogging (MacLaunch.runtime config));
        [|contradiction].
      cbn [In] in Ha.
      destruct Ha as [<-|[<-|Ha]]; [discriminate Hp|discriminate Hp|contradiction].
Qed.

(** The scenario of C4: ["bad"] cannot be resolved, 10.65.1.2 is
    installed. *)
Lemma launch_falls_back_scenario :
  exists w2,
    MacLaunch.launch Sample.env
      (Sample.config "bad" (Some "10.65.1.2") (Some "--a --b"))
      "app.json" "pipe" Sample.installed
    = spawned w2 (path_string (binary_path Sample.env "10.65.1.2"))
        ["--startup-url=app.json"; "--a"; "--b";
         "--version-keyword=10.65.1.2";
         "--runtime-information-channel-v6=pipe"].
Proof.
  eexists.
  apply (launch_falls_back Sample.env
           (Sample.config "bad" (Some "10.65.1.2") (Some "--a --b"))
           "app.json" "pipe" Sample.installed
           (logged Sample.installed [EvGet (Util.channel_url "bad")])
           _ (Error "Could not resolve runtime version") "10.65.1.2"
           (binary_path Sample.env "10.65.1.2")).
  - reflexivity.
  - reflexivity.
  - vm_compute. reflexivity.
Defined.

(** Claim C5, refuted as stated: with the extra arguments ["--a --b"] the
    startup manifest is the first argument passed, not the third. *)
Lemma launch_puts_manifest_first :
  exists w1 child,
    MacLaunch.launch Sample.env
      (Sample.config "10.65.1.2" None (Some "--a --b"))
      "app.json" "pipe" Sample.installed = (w1, Resolved child)
    /\ MacLaunch.spawnargs child
       = ["--startup-url=app.json"; "--a"; "--b";
          "--version-keyword=10.65.1.2";
          "--runtime-information-channel-v6=pipe"]
    /\ MacLaunch.spawnargs child
       <> spec_argument_vector ["--a"; "--b"] "app.json" "10.65.1.2" "pipe" [].
Proof.
  do 2 eexists. split; [vm_compute; reflexivity|].
  split; [reflexivity|discriminate].
Qed.

(** Claim C5, amended.  Whenever [launch] spawns, the argument vector is:
    the startup-manifest argument first, then the caller's extra arguments
    (the configured string split on spaces), then the version keyword (the
    requested version, or the fallback), the channel, and, when configured,
    the security realm and the two logging flags; and this is the vector
    passed to the spawn, the last outward call made. *)
Theorem launch_argument_order :
  forall env config manifest pipe w w1 child,
    MacLaunch.launch env config manifest pipe w = (w1, Resolved child) ->
    exists keyword,
      (keyword = MacLaunch.version (MacLaunch.runtime config)
       \/ MacLaunch.fallbackVersion (MacLaunch.runtime config) = Some keyword)
      /\ MacLaunch.spawnargs child
         = ("--startup-url=" +++ manifest) :: extra_arguments config
           ++ ["--version-keyword=" +++ keyword;
               "--runtime-information-channel-v6=" +++ pipe]
           ++ optional_arguments config
      /\ exists before,
           log w1 = before ++ [EvSpawn (MacLaunch.spawnfile child)
                                       (MacLaunch.spawnargs child)].
Proof.
  intros env config manifest pipe w w1 child. rewrite launch_run.
  destruct (MacLaunch.install env (MacLaunch.version (MacLaunch.runtime config)) w)
    as [w2 [runtimePath|e|]]; try discriminate.
  - intros [= <- <-]. eexists. split; [now left|].
    split; [reflexivity|]. now eexists.
  - destruct (MacLaunch.fallbackVersion (MacLaunch.runtime config))
      as [fallback|]; [|discriminate].
    destruct (MacLaunch.install env fallback w2) as [w3 [runtimePath|e'|]];
      try discriminate.
    intros [= <- <-]. exists fallback. split; [now right|].
    split; [reflexivity|]. now eexists.
Qed.

Lemma launch_argument_order_example :
  exists keyword,
    (keyword = "10.65.1.2" \/ None = Some keyword)
    /\ ["--startup-url=app.json"; "--a"; "--b";
        "--version-keyword=10.65.1.2";
        "--runtime-information-channel-v6=pipe"]
       = "--startup-url=app.json" :: ["--a"; "--b"]
         ++ ["--version-keyword=" +++ keyword;
             "--runtime-information-channel-v6=pipe"] ++ []
    /\ exists before,
         [EvChmod (binary_path Sample.env "10.65.1.2") 493;
          EvSpawn (path_string (binary_path Sample.env "10.65.1.2"))
            ["--startup-url=app.json"; "--a"; "--b";
             "--version-keyword=10.65.1.2";
             "--runtime-information-channel-v6=pipe"]]
         = before ++ [EvSpawn (path_string (binary_path Sample.env "10.65.1.2"))
            ["--startup-url=app.json"; "--a"; "--b";
             "--version-keyword=10.65.1.2";
             "--runtime-information-channel-v6=pipe"]].
Proof.
  apply (launch_argument_order Sample.env
           (Sample.config "10.65.1.2" None (Some "--a --b"))
           "app.json" "pipe" Sample.installed
           (mkWorld
              (chmod_tree (binary_path Sample.env "10.65.1.2") 493
                          (fs Sample.installed))
              [EvChmod (binary_path Sample.env "10.65.1.2") 493;
               EvSpawn (path_string (binary_path Sample.env "10.65.1.2"))
                 ["--startup-url=app.json"; "--a"; "--b";
                  "--version-keyword=10.65.1.2";
                  "--runtime-information-channel-v6=pipe"]])
           (MacLaunch.mkChildProcess
              (path_string (binary_path Sample.env "10.65.1.2"))
              ["--startup-url=app.json"; "--a"; "--b";
               "--version-keyword=10.65.1.2";
               "--runtime-information-channel-v6=pipe"])).
  vm_compute. reflexivity.
Defined.

(** Claim C6, refuted as stated: with both 1.2.3.4 and the fallback
    5.6.7.8 refused by the archive server, [launch] is rejected with the
    error of the fallback's installation, not with that of the requested
    version's. *)
Lemma launch_rejects_with_fallback_error :
  snd (MacLaunch.install Sample.env "1.2.3.4" Sample.fresh)
  = Rejected (Error "Could not install runtime 1.2.3.4 (1.2.3.4)")
  /\ snd (MacLaunch.launch Sample.env
            (Sample.config "1.2.3.4" (Some "5.6.7.8") None)
            "app.json" "pipe" Sample.fresh)
     = Rejected (Error "Could not install runtime 5.6.7.8 (5.6.7.8)")
  /\ Error "Could not install runtime 5.6.7.8 (5.6.7.8)"
     <> Error "Could not install runtime 1.2.3.4 (1.2.3.4)".
Proof.
  split; [vm_compute; reflexivity|].
  split; [vm_compute; reflexivity|discriminate].
Qed.

(** Claim C6, amended.  When the installation of the requested version is
    rejected: with no fallback configured, [launch] is rejected with that
    same error; with a fallback configured whose installation is rejected
    too, [launch] is rejected with the error of the fallback's installation.
    Either way no process is spawned, and the world is left as the one or
    two installations left it: the fallback is tried once. *)
Theorem launch_failure_propagation :
  forall env config manifest pipe w w1 e,
    MacLaunch.install env (MacLaunch.version (MacLaunch.runtime config)) w
    = (w1, Rejected e) ->
    (MacLaunch.fallbackVersion (MacLaunch.runtime config) = None ->
     MacLaunch.launch env config manifest pipe w = (w1, Rejected e)
     /\ spawns w1 = spawns w)
    /\ (forall fallback w2 e',
          MacLaunch.fallbackVersion (MacLaunch.runtime config) = Some fallback ->
          MacLaunch.install env fallback w1 = (w2, Rejected e') ->
          MacLaunch.launch env config manifest pipe w = (w2, Rejected e')
          /\ spawns w2 = spawns w).
Proof.
  intros env config manifest pipe w w1 e H1.
  pose proof (spawn_free_install env _ _ _ _ H1) as S1. split.
  - intros Hf. split; [|exact S1]. now rewrite launch_run, H1, Hf.
  - intros fallback w2 e' Hf H2.
    pose proof (spawn_free_install env _ _ _ _ H2) as S2.
    split; [|congruence]. now rewrite launch_run, H1, Hf, H2.
Qed.

Lemma launch_failure_example :
  (exists w1,
      MacLaunch.launch Sample.env (Sample.config "1.2.3.4" None None)
        "app.json" "pipe" Sample.fresh
      = (w1, Rejected (Error "Could not install runtime 1.2.3.4 (1.2.3.4)"))
      /\ spawns w1 = spawns Sample.fresh)
  /\ (exists w2,
        MacLaunch.launch Sample.env
          (Sample.config "1.2.3.4" (Some "5.6.7.8") None)
          "app.json" "pipe" Sample.fresh
        = (w2, Rejected (Error "Could not install runtime 5.6.7.8 (5.6.7.8)"))
        /\ spawns w2 = spawns Sample.fresh).
Proof.
  set (w1 := fst (MacLaunch.install Sample.env "1.2.3.4" Sample.fresh)).
  set (w2 := fst (MacLaunch.install Sample.env "5.6.7.8" w1)).
  split.
  - exists w1.
    apply (proj1 (launch_failure_propagation Sample.env
                    (Sample.config "1.2.3.4" None None) "app.json" "pipe"
                    Sample.fresh w1
                    (Error "Could not install runtime 1.2.3.4 (1.2.3.4)")
                    ltac:(vm_compute; reflexivity))).
    reflexivity.
  - exists w2.
    apply (proj2 (launch_failure_propagation Sample.env
                    (Sample.config "1.2.3.4" (Some "5.6.7.8") None)
                    "app.json" "pipe" Sample.fresh w1
                    (Error "Could not install runtime 1.2.3.4 (1.2.3.4)")
                    ltac:(vm_compute; reflexivity)) "5.6.7.8").
    + reflexivity.
    + vm_compute. reflexivity.
Defined.

(* ================================================================== *)
(** * Further properties of the launcher's code *)

(** ** first and takeWhile *)

Section ListHelpers.

Variable T : Type.
Variable func : T -> nat -> list T -> bool.
Variable arr : list T.

Lemma first_loop_some : forall rest i x,
  Util.first_loop func arr i rest = Some x ->
  exists k,
    nth_error rest k = Some x /\ func x (i + k) arr = true
    /\ forall j y, (j < k)%nat -> nth_error rest j = Some y ->
                   func y (i + j) arr = false.
Proof.
  induction rest as [|y rest IH]; intros i x H; simpl in H.
  - discriminate.
  - destruct (func y i arr) eqn:E.
    + injection H as <-. exists 0%nat. rewrite Nat.add_0_r.
      repeat split; [exact E|]. intros j z Hj. lia.
    + destruct (IH _ _ H) as (k & Hk & Hf & Hlt). exists (S k).
      rewrite Nat.add_succ_r. repeat split; [exact Hk|exact Hf|].
      intros [|j] z Hj Hz; simpl in Hz.
      * injection Hz as <-. now rewrite Nat.add_0_r.
      * rewrite Nat.add_succ_r. apply (Hlt j z); [lia|exact Hz].
Qed.

Lemma first_loop_none : forall rest i,
  Util.first_loop func arr i rest = None <->
  forall k y, nth_error rest k = Some y -> func y (i + k) arr = false.
Proof.
  induction rest as [|y rest IH]; intros i; simpl.
  - split; [|reflexivity]. intros _ [|k] z H; discriminate H.
  - destruct (func y i arr) eqn:E.
    + split; [discriminate|]. intros H. specialize (H 0%nat y eq_refl).
      rewrite Nat.add_0_r in H. congruence.
    + rewrite IH. split.
      * intros H [|k] z Hz; simpl in Hz.
        -- injection Hz as <-. now rewrite Nat.add_0_r.
        -- rewrite Nat.add_succ_r. now apply (H k z).
      * intros H k z Hz. specialize (H (S k) z Hz).
        now rewrite Nat.add_succ_r in H.
Qed.

Lemma reduce_stopped : forall rest i acc,
  Util.vals (Util.reduce_from
     (fun a x i r =>
        if Util.take a && func x i r
        then Util.mkTaking true (Util.vals a ++ [x])
        else Util.mkTaking false (Util.vals a))
     arr i rest (Util.mkTaking false acc)) = acc.
Proof.
  induction rest as [|x rest IH]; intros i acc; simpl; [reflexivity|apply IH].
Qed.

Lemma reduce_takes : forall rest i acc,
  exists taken left,
    rest = taken ++ left
    /\ Util.vals (Util.reduce_from
         (fun a x i r =>
            if Util.take a && func x i r
            then Util.mkTaking true (Util.vals a ++ [x])
            else Util.mkTaking false (Util.vals a))
         arr i rest (Util.mkTaking true acc)) = acc ++ taken
    /\ (forall k x, nth_error taken k = Some x -> func x (i + k) arr = true)
    /\ match left with
       | [] => True
       | y :: _ => func y (i + List.length taken) arr = false
       end.
Proof.
  induction rest as [|x rest IH]; intros i acc.
  - exists [], []. simpl. rewrite app_nil_r. repeat split.
    intros [|k] x H; discriminate H.
  - cbn [Util.reduce_from Util.take Util.vals andb].
    destruct (func x i arr) eqn:E.
    + destruct (IH (S i) (acc ++ [x])) as (taken & left & -> & Hv & Ht & Hl).
      exists (x :: taken), left. repeat split.
      * rewrite Hv, <- app_assoc. reflexivity.
      * intros [|k] z Hz; simpl in Hz.
        -- injection Hz as <-. now rewrite Nat.add_0_r.
        -- rewrite Nat.add_succ_r. now apply (Ht k z).
      * destruct left; [exact I|]. simpl. now rewrite Nat.add_succ_r.
    + exists [], (x :: rest). repeat split.
      * rewrite reduce_stopped. now rewrite app_nil_r.
      * intros [|k] z H; discriminate H.
      * simpl. now rewrite Nat.add_0_r.
Qed.

End ListHelpers.

(** Property X1.  [first] returns the element at the least index at which
    the callback, given the element, its index and the whole array, holds,
    and [null] when the callback holds at no index.  The elements may
    themselves be [null]: a result other than [null] is an element found at
    the least such index, and [null] is returned in two cases, when the
    callback holds nowhere and when the first element on which it holds is
    [null]. *)
Theorem first_finds_least_index :
  forall (U : Type) (arr : list (option U))
         (func : option U -> nat -> list (option U) -> bool),
    (forall i x,
        nth_error arr i = Some x -> func x i arr = true ->
        (forall j y, (j < i)%nat -> nth_error arr j = Some y ->
                     func y j arr = false) ->
        returned (Util.first arr func) = x)
    /\ ((forall i x, nth_error arr i = Some x -> func x i arr = false) ->
        returned (Util.first arr func) = None)
    /\ (forall u,
          returned (Util.first arr func) = Some u ->
          exists i,
            nth_error arr i = Some (Some u) /\ func (Some u) i arr = true
            /\ forall j y, (j < i)%nat -> nth_error arr j = Some y ->
                           func y j arr = false)
    /\ (returned (Util.first arr func) = None <->
        (forall i x, nth_error arr i = Some x -> func x i arr = false)
        \/ exists i,
             nth_error arr i = Some None /\ func None i arr = true
             /\ forall j y, (j < i)%nat -> nth_error arr j = Some y ->
                            func y j arr = false).
Proof.
  intros U arr func.
  pose proof (first_loop_some (option U) func arr arr 0) as Hsome.
  pose proof (first_loop_none (option U) func arr arr 0) as Hnone.
  fold (Util.first arr func) in Hsome, Hnone. cbn [Nat.add] in Hsome, Hnone.
  assert (Hleast : forall i x,
    nth_error arr i = Some x -> func x i arr = true ->
    (forall j y, (j < i)%nat -> nth_error arr j = Some y ->
                 func y j arr = false) ->
    Util.first arr func = Some x).
  { intros i x Hi Hf Hlt.
    destruct (Util.first arr func) as [x'|] eqn:E.
    - destruct (Hsome x' eq_refl) as (k & Hk & Hfk & Hltk).
      destruct (Nat.lt_trichotomy k i) as [Hki|[->|Hik]].
      + rewrite (Hlt k x' Hki Hk) in Hfk. discriminate.
      + congruence.
      + rewrite (Hltk i x Hik Hi) in Hf. discriminate.
    - rewrite (proj1 Hnone eq_refl i x Hi) in Hf. discriminate. }
  split; [|split; [|split]].
  - intros i x Hi Hf Hlt. now rewrite (Hleast i x Hi Hf Hlt).
  - intros H. now rewrite (proj2 Hnone H).
  - intros u H. destruct (Util.first arr func) as [[u'|]|] eqn:E;
      try discriminate.
    injection H as ->. exact (Hsome (Some u) eq_refl).
  - split.
    + intros H. destruct (Util.first arr func) as [[u'|]|] eqn:E;
        try discriminate.
      * right. exact (Hsome None eq_refl).
      * left. exact (proj1 Hnone eq_refl).
    + intros [H|(i & Hi & Hf & Hlt)].
      * now rewrite (proj2 Hnone H).
      * now rewrite (Hleast i None Hi Hf Hlt).
Qed.

(** Of [[1, null, 6]] and a callback that holds from index 1 on, the
    result is [null]: the element at index 1. *)
Lemma first_finds_least_index_example :
  returned (Util.first [Some 1; None; Some 6]%nat
              (fun _ i _ => (0 <? i)%nat)) = None.
Proof.
  apply (proj1 (first_finds_least_index nat [Some 1; None; Some 6]%nat
                  (fun _ i _ => (0 <? i)%nat)) 1%nat None).
  - reflexivity.
  - reflexivity.
  - intros [|j] y Hj Hy; [reflexivity|lia].
Defined.

(** Property X2.  [takeWhile] returns the longest leading run of the array
    on which the callback (given element, index and array) holds: the
    array is that run followed by a rest that is empty or starts with an
    element on which the callback fails, and nothing after a failure is
    ever taken. *)
Theorem takeWhile_longest_prefix :
  forall (T : Type) (arr : list T) (func : T -> nat -> list T -> bool),
    exists left,
      arr = Util.takeWhile arr func ++ left
      /\ (forall i x, nth_error (Util.takeWhile arr func) i = Some x ->
                      func x i arr = true)
      /\ match left with
         | [] => True
         | y :: _ => func y (List.length (Util.takeWhile arr func)) arr = false
         end.
Proof.
  intros T arr func. unfold Util.takeWhile.
  destruct (reduce_takes T func arr arr 0 []) as (taken & left & E & Hv & Ht & Hl).
  simpl in Hv. rewrite Hv. exists left. repeat split; assumption.
Qed.

(** ** resolveRuntimeVersion: channels, a failing index, no match *)

Section ResolverEdges.

Variable env : Env.

Lemma not_pattern_forallb : forall comps,
  Exists (fun x => x <> "*" /\ JS.test_digits x = false) comps ->
  forallb (fun x => (x =? "*")%string || JS.test_digits x) comps = false.
Proof.
  intros comps H; induction H as [x l [Hx Hd]|x l H IH]; simpl.
  - apply String.eqb_neq in Hx. now rewrite Hx, Hd.
  - rewrite IH. apply andb_false_r.
Qed.

Lemma name_chars_nochar : forall c s,
  name_char c = false -> name_chars s = true -> nochar c s = true.
Proof.
  intros c s Hc; induction s as [|a s IH]; intros H; simpl in *.
  - reflexivity.
  - apply andb_true_iff in H as [Ha Hs].
    destruct (ascii_dec c a) as [->|_]; [congruence|]. now apply IH.
Qed.

Lemma get_refused : forall url statusCode body w,
  https_get env url = Response statusCode body ->
  (statusCode < 200 \/ 299 < statusCode)%Z ->
  Util.get env url w
  = (logged w [EvGet url],
     Rejected (Error ("Failed to load page, status code: "
                      +++ JS.number_to_string statusCode))).
Proof.
  intros url st body w H Hst. unfold Util.get, bind, emit. simpl.
  rewrite H.
  replace ((st <? 200)%Z || (299 <? st)%Z) with true; [reflexivity|].
  symmetry. apply orb_true_iff.
  destruct Hst; [left; now apply Z.ltb_lt|right; now apply Z.ltb_lt].
Qed.

Lemma get_failed : forall url e w,
  https_get env url = RequestError e ->
  Util.get env url w = (logged w [EvGet url], Rejected e).
Proof.
  intros url e w H. unfold Util.get, bind, emit. simpl. now rewrite H.
Qed.

Lemma find_none_of : forall (P : string -> bool) l,
  Forall (fun v => P v = false) l -> find P l = None.
Proof.
  intros P l H; induction H as [|v l Hv _ IH]; simpl.
  - reflexivity.
  - now rewrite Hv.
Qed.

Lemma logged_logged : forall w a b, logged (logged w a) b = logged w (a ++ b).
Proof.
  intros w a b. unfold logged. cbn [fs log]. now rewrite <- app_assoc.
Qed.

End ResolverEdges.

(** Property X3.  A channel name (letters, digits, ['-'], ['_'] and
    ['.'], and not a dot segment) that is no version pattern, for having a
    single component or a component that is not numeric, is looked up as a
    channel by both resolvers: one request, to the channel's URL, which has
    neither query nor fragment; a 2xx answer's body is the version, and
    every failure, a status outside 200..299 or a failed request, is
    replaced by "Could not resolve runtime version". *)
Theorem resolve_channel_name :
  forall env spec w,
    channel_name spec ->
    (List.length (JS.split "." spec) <= 1)%nat
    \/ Exists (fun x => x <> "*" /\ JS.test_digits x = false)
              (JS.split "." spec) ->
    Util.resolveRuntimeVersion env spec w
    = (logged w [EvGet (Util.channel_url spec)], channel_answer env spec)
    /\ Part000.resolveRuntimeVersion env spec w
       = (logged w [EvGet (Util.channel_url spec)], channel_answer env spec)
    /\ nochar "?" (Util.channel_url spec) = true
    /\ nochar "#" (Util.channel_url spec) = true.
Proof.
  intros env spec w (Hchars & _) H.
  enough (G : Util.resolveRuntimeVersion env spec w
              = (logged w [EvGet (Util.channel_url spec)],
                 channel_answer env spec)
              /\ Part000.resolveRuntimeVersion env spec w
                 = (logged w [EvGet (Util.channel_url spec)],
                    channel_answer env spec)).
  { destruct G as [G1 G2]. repeat split; try assumption.
    - apply nochar_append; [reflexivity|].
      now apply name_chars_nochar.
    - apply nochar_append; [reflexivity|].
      now apply name_chars_nochar. }
  unfold Util.resolveRuntimeVersion, Part000.resolveRuntimeVersion.
  destruct H as [H|H].
  - replace (1 <? List.length (JS.split "." spec))%nat with false
      by (symmetry; apply Nat.ltb_ge; lia).
    replace (List.length (JS.split "." spec) =? 4)%nat with false
      by (symmetry; apply Nat.eqb_neq; lia).
    cbn [andb]. split; apply channel_lookup.
  - rewrite (not_pattern_forallb _ H), !andb_false_r.
    split; apply channel_lookup.
Qed.

Lemma resolve_channel_name_example :
  Util.resolveRuntimeVersion Sample.env_with_channel "stable" Sample.fresh
  = (logged Sample.fresh [EvGet (Util.channel_url "stable")],
     Resolved "10.65.1.2")
  /\ Part000.resolveRuntimeVersion Sample.env_with_channel "stable" Sample.fresh
     = (logged Sample.fresh [EvGet (Util.channel_url "stable")],
        Resolved "10.65.1.2")
  /\ nochar "?" (Util.channel_url "stable") = true
  /\ nochar "#" (Util.channel_url "stable") = true.
Proof.
  apply (resolve_channel_name Sample.env_with_channel "stable" Sample.fresh).
  - split; [reflexivity|split; discriminate].
  - left. simpl. lia.
Defined.

(** Property X4.  When a pattern needs the index and the index request
    fails, util.ts rejects with the error of the request itself (the
    transport error, or "Failed to load page, status code: N"), not with
    "Could not resolve runtime version", and makes no channel lookup. *)
Theorem resolve_index_failure_unwrapped :
  forall env spec w,
    (2 <= List.length (JS.split "." spec))%nat ->
    pattern_ok (JS.split "." spec) ->
    (List.length (fixed_prefix (JS.split "." spec)) < 4)%nat ->
    (forall e,
        https_get env Util.index_url = RequestError e ->
        Util.resolveRuntimeVersion env spec w
        = (logged w [EvGet Util.index_url], Rejected e))
    /\ (forall statusCode body,
          https_get env Util.index_url = Response statusCode body ->
          (statusCode < 200 \/ 299 < statusCode)%Z ->
          Util.resolveRuntimeVersion env spec w
          = (logged w [EvGet Util.index_url],
             Rejected (Error ("Failed to load page, status code: "
                              +++ JS.number_to_string statusCode)))).
Proof.
  intros env spec w Hlen Hok Hpre. split.
  - intros e H. rewrite util_resolve_index by assumption.
    unfold bind. now rewrite (get_failed env _ _ _ H).
  - intros st body H Hst. rewrite util_resolve_index by assumption.
    unfold bind. now rewrite (get_refused env _ _ _ _ H Hst).
Qed.

Lemma resolve_index_failure_example :
  Util.resolveRuntimeVersion Sample.env_offline "10.*.*.*" Sample.fresh
  = (logged Sample.fresh [EvGet Util.index_url],
     Rejected (Error "getaddrinfo ENOTFOUND")).
Proof.
  apply (proj1 (resolve_index_failure_unwrapped
                  Sample.env_offline "10.*.*.*" Sample.fresh
                  ltac:(simpl; lia)
                  ltac:(repeat constructor; (left; reflexivity)
                                            || (right; reflexivity))
                  ltac:(simpl; lia))).
  reflexivity.
Defined.

(** Property X5.  When the index is served and none of its entries has
    the pattern's numeric prefix as leading components, util.ts goes on to
    look the pattern itself up as a channel: two requests, the index and
    then the channel URL built from the pattern, and the outcome of the
    channel lookup is the result. *)
Theorem resolve_no_match_falls_to_channel :
  forall env spec pre statusCode body w,
    (2 <= List.length (JS.split "." spec))%nat ->
    pattern_ok (JS.split "." spec) ->
    fixed_prefix (JS.split "." spec) = pre ->
    pre <> [] -> Forall numeric pre -> (List.length pre < 4)%nat ->
    https_get env Util.index_url = Response statusCode body ->
    (200 <= statusCode <= 299)%Z ->
    Forall (fun v => leading (List.length pre) v <> pre) (index_of body) ->
    Util.resolveRuntimeVersion env spec w
    = (logged w [EvGet Util.index_url; EvGet (Util.channel_url spec)],
       channel_answer env spec).
Proof.
  intros env spec pre st body w Hlen Hok Hfix Hne Hnum Hlt Hget Hst Hno.
  rewrite util_resolve_index by (rewrite ?Hfix; assumption).
  unfold bind. rewrite (get_answered _ _ _ _ _ Hget Hst), Hfix.
  rewrite find_none_of.
  - rewrite channel_lookup. now rewrite logged_logged.
  - eapply Forall_impl; [|exact Hno]. intros v Hv. cbv beta in Hv |- *.
    destruct (JS.join "." (JS.slice0 (List.length pre) (JS.split "." v))
              =? JS.join "." pre)%string eqn:E; [|reflexivity].
    apply (prefix_test_iff pre v Hne Hnum) in E. contradiction.
Qed.

Lemma resolve_no_match_example :
  Util.resolveRuntimeVersion Sample.env "99.*.*.*" Sample.fresh
  = (logged Sample.fresh
       [EvGet Util.index_url; EvGet (Util.channel_url "99.*.*.*")],
     channel_answer Sample.env "99.*.*.*").
Proof.
  apply (resolve_no_match_falls_to_channel Sample.env "99.*.*.*" ["99"] 200
           ("10.65.1.2" +++ JS.CRLF +++ "10.65.0.9" +++ JS.CRLF +++ "9.0.0.0")).
  - simpl. lia.
  - repeat constructor; (left; reflexivity) || (right; reflexivity).
  - reflexivity.
  - discriminate.
  - repeat constructor.
  - simpl. lia.
  - reflexivity.
  - lia.
  - repeat constructor; discriminate.
Defined.

(** Property X6.  Only the components before the first wildcard are
    matched: whatever numeric or wildcard components follow the first
    wildcard, and however many, util.ts answers with the first index entry
    whose leading components are the numeric prefix. *)
Theorem resolve_ignores_components_after_wildcard :
  forall env spec pre rest statusCode body m w,
    JS.split "." spec = pre ++ "*" :: rest ->
    pre <> [] -> Forall numeric pre -> (List.length pre < 4)%nat ->
    pattern_ok rest ->
    https_get env Util.index_url = Response statusCode body ->
    (200 <= statusCode <= 299)%Z ->
    first_such (fun v => leading (List.length pre) v = pre) (index_of body) m ->
    Util.resolveRuntimeVersion env spec w
    = (logged w [EvGet Util.index_url], Resolved m).
Proof.
  intros env spec pre rest st body m w Hsplit Hne Hnum Hlt Hrest Hget Hst Hm.
  apply (util_resolve_first_match env spec pre st body m w); try assumption.
  - rewrite Hsplit, length_app. simpl. destruct pre; [contradiction|].
    simpl. lia.
  - rewrite Hsplit. apply Forall_app. split.
    + eapply Forall_impl; [|exact Hnum]. now right.
    + constructor; [now left|exact Hrest].
  - rewrite Hsplit. clear - Hnum. induction Hnum as [|x l Hx _ IH]; simpl.
    + reflexivity.
    + rewrite (numeric_not_star _ Hx). now rewrite IH.
Qed.

(** ["10.*.0.9"] is answered 10.65.1.2, whose third and fourth components
    are not 0 and 9. *)
Lemma resolve_ignores_components_example :
  Util.resolveRuntimeVersion Sample.env "10.*.0.9" Sample.fresh
  = (logged Sample.fresh [EvGet Util.index_url], Resolved "10.65.1.2").
Proof.
  apply (resolve_ignores_components_after_wildcard
           Sample.env "10.*.0.9" ["10"] ["0"; "9"] 200
           ("10.65.1.2" +++ JS.CRLF +++ "10.65.0.9" +++ JS.CRLF +++ "9.0.0.0")).
  - reflexivity.
  - discriminate.
  - repeat constructor.
  - simpl. lia.
  - repeat constructor; right; reflexivity.
  - reflexivity.
  - lia.
  - exists [], ["10.65.0.9"; "9.0.0.0"]. split; [reflexivity|].
    split; [reflexivity|constructor].
Defined.

(** Property X7.  A spec of two or more components that starts with a
    wildcard has nothing to match: util.ts answers with the first line of
    the index body, whatever it is, unless that line is empty (an empty
    body, say), in which case it looks the spec up as a channel. *)
Theorem resolve_leading_wildcard_takes_first_line :
  forall env spec rest statusCode body w,
    JS.split "." spec = "*" :: rest -> rest <> [] -> pattern_ok rest ->
    https_get env Util.index_url = Response statusCode body ->
    (200 <= statusCode <= 299)%Z ->
    Util.resolveRuntimeVersion env spec w
    = match hd "" (index_of body) with
      | EmptyString =>
          (logged w [EvGet Util.index_url; EvGet (Util.channel_url spec)],
           channel_answer env spec)
      | String a line =>
          (logged w [EvGet Util.index_url], Resolved (String a line))
      end.
Proof.
  intros env spec rest st body w Hsplit Hne Hrest Hget Hst.
  rewrite util_resolve_index.
  - unfold bind. rewrite (get_answered _ _ _ _ _ Hget Hst), Hsplit.
    cbn [fixed_prefix String.eqb Ascii.eqb Bool.eqb List.length].
    pose proof (split_go_nonnil JS.CRLF body 0) as Hn.
    unfold index_of, JS.split.
    destruct (JS.split_go JS.CRLF 0 body) as [|line lines]; [contradiction|].
    cbn [find JS.slice0 firstn JS.join String.eqb hd].
    destruct line as [|a line]; cbn [JS.truthy].
    + rewrite channel_lookup. now rewrite logged_logged.
    + reflexivity.
  - rewrite Hsplit. destruct rest; [contradiction|]. simpl. lia.
  - rewrite Hsplit. constructor; [now left|exact Hrest].
  - rewrite Hsplit. simpl. lia.
Qed.

Lemma resolve_leading_wildcard_example :
  Util.resolveRuntimeVersion Sample.env "*.65.*.*" Sample.fresh
  = (logged Sample.fresh [EvGet Util.index_url], Resolved "10.65.1.2").
Proof.
  apply (resolve_leading_wildcard_takes_first_line
           Sample.env "*.65.*.*" ["65"; "*"; "*"] 200
           ("10.65.1.2" +++ JS.CRLF +++ "10.65.0.9" +++ JS.CRLF +++ "9.0.0.0")
           Sample.fresh).
  - reflexivity.
  - discriminate.
  - repeat constructor; (left; reflexivity) || (right; reflexivity).
  - reflexivity.
  - lia.
Defined.

(** ** The tree under change: what stays *)

Section Frame.

Lemma entry_set_entry_other : forall k s o es,
  k <> s -> Fs.entry k (Fs.set_entry s o es) = Fs.entry k es.
Proof.
  intros k s o es Hk; induction es as [|[a v] es IH]; simpl.
  - destruct o; [|reflexivity]. simpl.
    destruct (String.eqb_spec s k); [congruence|reflexivity].
  - destruct (String.eqb_spec a s) as [->|Ha].
    + destruct o; simpl.
      * destruct (String.eqb_spec s k); [congruence|reflexivity].
      * destruct (String.eqb_spec s k); [congruence|reflexivity].
    + simpl. destruct (String.eqb_spec a k); [reflexivity|exact IH].
Qed.

(** A change at [p] leaves what is not below [p]: files as they are,
    directories directories. *)
Lemma put_keeps_outside : forall p o q t n,
  ~ below p q ->
  Fs.walk q t = inl n ->
  exists n',
    Fs.walk q (Fs.put p o t) = inl n'
    /\ Fs.isFile n' = Fs.isFile n
    /\ (Fs.isFile n = true -> n' = n).
Proof.
  induction p as [|s p IH]; intros o q t n Hq Hw.
  - destruct Hq. now exists q.
  - destruct t as [m d|es].
    + exists n. simpl. now repeat split.
    + destruct q as [|s2 q].
      * simpl in Hw. injection Hw as <-.
        simpl. destruct p as [|s' r].
        -- eexists. repeat split. discriminate.
        -- destruct (Fs.entry s es); eexists; repeat split; discriminate.
      * simpl in Hw. destruct (Fs.entry s2 es) as [c2|] eqn:E2; [|discriminate].
        destruct (string_dec s2 s) as [->|Hne].
        -- destruct p as [|s' r].
           ++ destruct Hq. now exists q.
           ++ rewrite (put_cons_deep _ _ _ _ _ _ E2). simpl.
              rewrite entry_set_entry.
              apply IH; [|exact Hw].
              intros [r0 ->]. apply Hq. now exists r0.
        -- exists n.
           assert (Fs.walk (s2 :: q) (Fs.put (s :: p) o (Dir es)) = inl n).
           { simpl. destruct p as [|s' r].
             - simpl. rewrite entry_set_entry_other by exact Hne.
               now rewrite E2.
             - destruct (Fs.entry s es) as [c|].
               + simpl. rewrite entry_set_entry_other by exact Hne.
                 now rewrite E2.
               + simpl. now rewrite E2. }
           now repeat split.
Qed.

Lemma only_grows_refl : forall t, only_grows t t.
Proof. intros t q n H. exists n. now repeat split. Qed.

Lemma only_grows_trans : forall a b c,
  only_grows a b -> only_grows b c -> only_grows a c.
Proof.
  intros a b c Hab Hbc q n H.
  destruct (Hab q n H) as (n1 & H1 & K1 & F1).
  destruct (Hbc q n1 H1) as (n2 & H2 & K2 & F2).
  exists n2. repeat split; [exact H2|congruence|].
  intros Hf. rewrite F2 by congruence. now apply F1.
Qed.

Lemma put_new_only_grows : forall p x t code,
  Fs.walk p t = inr code -> only_grows t (Fs.put p (Some x) t).
Proof.
  intros p x t code Hp q n Hq. apply put_keeps_outside; [|exact Hq].
  intros [r ->]. rewrite walk_app, Hp in Hq. discriminate.
Qed.

Lemma mkdir_only_grows : forall p w w1 r,
  Fs.mkdir p w = (w1, r) -> only_grows (fs w) (fs w1).
Proof.
  intros p w w1 r. unfold Fs.mkdir, Fs.fails, Fs.set_fs, reject.
  destruct (Fs.walk p (fs w)) as [n|code] eqn:E.
  - intros [= <- _]. apply only_grows_refl.
  - destruct (Fs.walk (removelast p) (fs w)) as [[m d|es]|code'];
      intros [= <- _]; try apply only_grows_refl.
    cbn [fs]. now apply (put_new_only_grows _ _ _ code).
Qed.

Lemma loop_only_grows : forall target segs base w w1 r,
  create_or_adopt target base segs w = (w1, r) ->
  only_grows (fs w) (fs w1) /\ log w1 = log w.
Proof.
  intros target; induction segs as [|s segs IH]; intros base w w1 r H.
  - injection H as <- _. split; [apply only_grows_refl|reflexivity].
  - cbn [create_or_adopt] in H.
    destruct (Fs.mkdir (target base s) w) as [w2 r2] eqn:Hm.
    pose proof (mkdir_only_grows _ _ _ _ Hm) as G.
    pose proof (mkdir_quiet _ _ _ _ Hm) as L.
    destruct (classify r2).
    + destruct (IH _ _ _ _ H) as [G2 L2].
      split; [now apply (only_grows_trans _ (fs w2))|congruence].
    + destruct (IH _ _ _ _ H) as [G2 L2].
      split; [now apply (only_grows_trans _ (fs w2))|congruence].
    + injection H as <- _. now split.
    + injection H as <- _. now split.
Qed.

End Frame.

(** Property X8.  The directory walks only add directories and make no
    outward call: whatever [resolveDir] or [getRuntimePath] is given and
    however it ends, every path that resolved before resolves afterwards, a
    file to the same file (mode and content), a directory to a directory. *)
Theorem directory_walk_only_adds :
  (forall base paths w w1 r,
      Util.resolveDir base paths w = (w1, r) ->
      only_grows (fs w) (fs w1) /\ log w1 = log w)
  /\ (forall env v w w1 r,
        MacLaunch.getRuntimePath env v w = (w1, r) ->
        only_grows (fs w) (fs w1) /\ log w1 = log w).
Proof.
  split.
  - intros base paths w w1 r. rewrite resolveDir_is_loop.
    apply loop_only_grows.
  - intros env v w w1 r. rewrite getRuntimePath_is_loop.
    apply loop_only_grows.
Qed.

(** The log file of the stale installation survives the walk that makes
    the directory of another version. *)
Lemma directory_walk_only_adds_example :
  exists n',
    Fs.walk (runtime_folder Sample.env "9.9.9.9" ++ ["debug.log"])
            (fs (fst (MacLaunch.getRuntimePath Sample.env "10.65.1.2"
                        Sample.stale))) = inl n'
    /\ Fs.isFile n' = true
    /\ (true = true -> n' = File 420 "trace").
Proof.
  destruct (proj2 directory_walk_only_adds Sample.env "10.65.1.2" Sample.stale
              (fst (MacLaunch.getRuntimePath Sample.env "10.65.1.2" Sample.stale))
              (snd (MacLaunch.getRuntimePath Sample.env "10.65.1.2" Sample.stale)))
    as [G _].
  - now destruct (MacLaunch.getRuntimePath Sample.env "10.65.1.2" Sample.stale).
  - apply (G (runtime_folder Sample.env "9.9.9.9" ++ ["debug.log"])
             (File 420 "trace")).
    reflexivity.
Defined.

(** ** exists, and what the walks return *)

Section Existence.

Lemma walk_codes : forall p t code,
  Fs.walk p t = inr code -> code = "ENOENT" \/ code = "ENOTDIR".
Proof.
  induction p as [|s p IH]; intros t code H; simpl in H.
  - discriminate.
  - destruct t as [m d|es]; [injection H as <-; now right|].
    destruct (Fs.entry s es); [now apply (IH _ _ H)|].
    injection H as <-. now left.
Qed.

Lemma mkdir_resolved_exists : forall p w w1 u,
  Fs.mkdir p w = (w1, Resolved u) -> Fs.walk p (fs w1) = inl (Dir []).
Proof.
  intros p w w1 u. unfold Fs.mkdir, Fs.fails, Fs.set_fs, reject.
  destruct (Fs.walk p (fs w)) as [n|code] eqn:E; [discriminate|].
  destruct (Fs.walk (removelast p) (fs w)) as [[m d|es]|code'] eqn:Ep;
    try discriminate.
  intros [= <- _]. cbn [fs].
  destruct p as [|s p]; [discriminate E|].
  rewrite (app_removelast_last "" (l := s :: p)) by discriminate.
  rewrite (app_removelast_last "" (l := s :: p)) in E by discriminate.
  now apply (walk_new_entry _ _ _ es).
Qed.

Lemma mkdir_eexist : forall p w w1 existing,
  Fs.mkdir p w = (w1, Rejected (ErrnoException "EEXIST" existing)) ->
  existing = p /\ w1 = w /\ exists n, Fs.walk p (fs w) = inl n.
Proof.
  intros p w w1 existing. unfold Fs.mkdir, Fs.fails, Fs.set_fs, reject.
  destruct (Fs.walk p (fs w)) as [n|code] eqn:E.
  - intros [= <- <-]. repeat split. now exists n.
  - destruct (Fs.walk (removelast p) (fs w)) as [[m d|es]|code'] eqn:Ep;
      try discriminate.
    intros [= _ Hc _]. destruct (walk_codes _ _ _ Ep); congruence.
Qed.

Lemma loop_join_result_exists : forall segs base w w1 q,
  segs <> [] ->
  create_or_adopt path_join base segs w = (w1, Resolved q) ->
  exists n, Fs.walk q (fs w1) = inl n.
Proof.
  induction segs as [|s segs IH]; intros base w w1 q Hne H; [contradiction|].
  cbn [create_or_adopt] in H.
  destruct (Fs.mkdir (path_join base s) w) as [w2 r2] eqn:Hm.
  destruct r2 as [u|[msg|code existing]|]; simpl in H; try discriminate.
  - destruct segs as [|s' segs].
    + injection H as <- <-. eexists. apply (mkdir_resolved_exists _ _ _ _ Hm).
    + apply (IH _ _ _ _ ltac:(discriminate) H).
  - destruct (code =? "EEXIST")%string eqn:Ec; [|discriminate].
    apply String.eqb_eq in Ec. subst code.
    destruct (mkdir_eexist _ _ _ _ Hm) as (-> & -> & n & Hn).
    destruct segs as [|s' segs].
    + injection H as <- <-. now exists n.
    + apply (IH _ _ _ _ ltac:(discriminate) H).
Qed.

Lemma exists_run : forall p w,
  Util.exists_ p w
  = (w, Resolved match Fs.walk p (fs w) with
                 | inl _ => true
                 | inr _ => false
                 end).
Proof.
  intros p w. unfold Util.exists_, try_catch, bind, Fs.stat.
  destruct (Fs.walk p (fs w)); reflexivity.
Qed.

Lemma slash_split : forall x,
  nochar "/" x = true -> JS.split "/" ("/" +++ x) = [""; x].
Proof.
  intros x Hx. change ("/" +++ x) with (String "/" x).
  rewrite (split_cons "/"%char).
  destruct (ascii_dec "/" "/"); [|contradiction].
  now rewrite (split_nochar "/"%char x Hx).
Qed.

End Existence.

(** Property X9.  [exists] never rejects and changes nothing: it answers
    [true] exactly when the path resolves (to a file or a directory).  Put
    after [getRuntimePath]: whenever [getRuntimePath] resolves, for any
    version string, the path it returns exists. *)
Theorem exists_after_getRuntimePath :
  (forall p w,
      Util.exists_ p w
      = (w, Resolved match Fs.walk p (fs w) with
                     | inl _ => true
                     | inr _ => false
                     end))
  /\ (forall env v w w1 q,
        MacLaunch.getRuntimePath env v w = (w1, Resolved q) ->
        Util.exists_ q w1 = (w1, Resolved true)).
Proof.
  split; [exact exists_run|].
  intros env v w w1 q H. rewrite getRuntimePath_is_loop in H.
  apply loop_join_result_exists in H as [n Hn]; [|discriminate].
  now rewrite exists_run, Hn.
Qed.

Lemma exists_after_getRuntimePath_example :
  Util.exists_ (runtime_folder Sample.env "10.65.1.2")
    (fst (MacLaunch.getRuntimePath Sample.env "10.65.1.2" Sample.fresh))
  = (fst (MacLaunch.getRuntimePath Sample.env "10.65.1.2" Sample.fresh),
     Resolved true).
Proof.
  apply (proj2 exists_after_getRuntimePath Sample.env "10.65.1.2" Sample.fresh).
  reflexivity.
Defined.

(** Property X10.  [resolveDir] creates [path.resolve(prev, next)] but
    returns [path.join(prev, next)], and the two differ on an absolute
    segment.  For a segment ["/x"]: when [/x] is missing it is created at
    the root and the path returned is [<base>/x]; when [/x] exists, the path
    of the EEXIST error, [/x], is returned. *)
Theorem resolveDir_absolute_segment :
  forall base x w,
    plain_name x ->
    (forall es code,
        fs w = Dir es -> Fs.walk [x] (fs w) = inr code ->
        Util.resolveDir base ["/" +++ x] w
        = (mkWorld (Fs.put [x] (Some (Dir [])) (fs w)) (log w),
           Resolved (base ++ [x])))
    /\ (forall n,
          Fs.walk [x] (fs w) = inl n ->
          Util.resolveDir base ["/" +++ x] w = (w, Resolved [x])).
Proof.
  intros base x w (Hx & H0 & H1 & H2).
  assert (Hres : path_resolve base ("/" +++ x) = [x]).
  { unfold path_resolve. change ("/" +++ x) with (String "/" x).
    cbn [String.prefix]. destruct (ascii_dec "/" "/"); [|contradiction].
    replace (String.prefix "" x) with true by now destruct x.
    change (String "/" x) with ("/" +++ x). rewrite (slash_split _ Hx).
    simpl. unfold norm_step.
    apply String.eqb_neq in H0, H1, H2. now rewrite H0, H1, H2. }
  assert (Hjoin : path_join base ("/" +++ x) = base ++ [x]).
  { unfold path_join. rewrite (slash_split _ Hx). simpl. unfold norm_step at 2.
    simpl. unfold norm_step.
    apply String.eqb_neq in H0, H1, H2. now rewrite H0, H1, H2. }
  split.
  - intros es code Hroot Hn. rewrite resolveDir_is_loop.
    cbn [create_or_adopt]. rewrite Hres.
    pose proof (mkdir_new [] x w code es Hn) as Hm. cbn [app] in Hm.
    rewrite Hm by (simpl; now rewrite Hroot).
    cbn [classify create_or_adopt]. now rewrite Hjoin.
  - intros n Hn. rewrite resolveDir_is_loop.
    cbn [create_or_adopt]. rewrite Hres.
    now rewrite (mkdir_existing _ _ _ Hn).
Qed.

(** From the home directory, ["/opt"] is created at the root, and the path
    returned, [/Users/dev/opt], does not exist. *)
Lemma resolveDir_absolute_segment_example :
  Util.resolveDir Sample.home ["/opt"] Sample.fresh
  = (mkWorld (Fs.put ["opt"] (Some (Dir [])) (fs Sample.fresh)) [],
     Resolved ["Users"; "dev"; "opt"])
  /\ Fs.walk ["Users"; "dev"; "opt"]
             (Fs.put ["opt"] (Some (Dir [])) (fs Sample.fresh)) = inr "ENOENT".
Proof.
  split; [|reflexivity].
  apply (proj1 (resolveDir_absolute_segment Sample.home "opt" Sample.fresh
                  ltac:(repeat split; discriminate))
           [("Users", Dir [("dev", Dir [])])] "ENOENT"); reflexivity.
Defined.

(** ** rmDir, downloadFile and download *)

Section Removal.

Lemma wf_cons : forall k c es,
  well_formed (Dir ((k, c) :: es)) = true ->
  existsb (fun y => (y =? k)%string) (map fst es) = false
  /\ well_formed c = true /\ well_formed (Dir es) = true.
Proof.
  intros k c es H. simpl in H.
  apply andb_true_iff in H as [H1 H2].
  apply andb_true_iff in H1 as [H1 H3].
  apply andb_true_iff in H2 as [H2 H4].
  apply negb_true_iff in H1. repeat split; try assumption.
  simpl. now rewrite H3, H4.
Qed.

Lemma entry_absent : forall s es,
  existsb (fun y => (y =? s)%string) (map fst es) = false ->
  Fs.entry s es = None.
Proof.
  intros s es; induction es as [|[k v] es IH]; simpl; intros H.
  - reflexivity.
  - apply orb_false_iff in H as [H1 H2]. rewrite H1. now apply IH.
Qed.

Lemma entry_removed : forall s es,
  well_formed (Dir es) = true ->
  Fs.entry s (Fs.set_entry s None es) = None.
Proof.
  intros s es; induction es as [|[k v] es IH]; intros H.
  - reflexivity.
  - apply wf_cons in H as (H1 & _ & H3). simpl.
    destruct (String.eqb_spec k s) as [->|Hk].
    + now apply entry_absent.
    + simpl. destruct (String.eqb_spec k s); [contradiction|]. now apply IH.
Qed.

Lemma wf_entry : forall s es c,
  well_formed (Dir es) = true -> Fs.entry s es = Some c ->
  well_formed c = true.
Proof.
  intros s es c; induction es as [|[k v] es IH]; intros H E.
  - discriminate.
  - apply wf_cons in H as (_ & H2 & H3). simpl in E.
    destruct (k =? s)%string; [now injection E as <-|now apply IH].
Qed.

(** On a well-formed tree, what is removed is gone. *)
Lemma walk_removed : forall p t n,
  well_formed t = true -> Fs.walk p t = inl n -> p <> [] ->
  Fs.walk p (Fs.put p None t) = inr "ENOENT".
Proof.
  induction p as [|s p IH]; intros t n Hwf Hw Hp; [contradiction|].
  simpl in Hw. destruct t as [m d|es]; [discriminate|].
  destruct (Fs.entry s es) as [c|] eqn:E; [|discriminate].
  destruct p as [|s' r].
  - simpl. now rewrite entry_removed.
  - rewrite (put_cons_deep _ _ _ _ _ _ E).
    cbn [Fs.walk]. rewrite entry_set_entry.
    apply (IH c n); [now apply (wf_entry s es)|exact Hw|discriminate].
Qed.

Lemma write_stream_creates : forall parent name es body w code,
  Fs.walk parent (fs w) = inl (Dir es) ->
  Fs.walk (parent ++ [name]) (fs w) = inr code ->
  Fs.write_stream (parent ++ [name]) body w
  = (mkWorld (Fs.put (parent ++ [name]) (Some (File 420 body)) (fs w)) (log w),
     Resolved tt).
Proof.
  intros parent name es body w code Hp Hn. unfold Fs.write_stream.
  rewrite Hn.
  assert (W : Fs.walk (removelast (parent ++ [name])) (fs w) = inl (Dir es))
    by now rewrite removelast_last.
  destruct (parent ++ [name]) as [|a l] eqn:E.
  { now destruct parent. }
  now rewrite W.
Qed.

Lemma write_stream_overwrites : forall p m d body w,
  Fs.walk p (fs w) = inl (File m d) ->
  Fs.write_stream p body w
  = (mkWorld (Fs.put p (Some (File m body)) (fs w)) (log w), Resolved tt).
Proof.
  intros p m d body w H. unfold Fs.write_stream. now rewrite H.
Qed.

End Removal.

(** Property X11.  [rmDir] always resolves (a path that is missing or is
    a file is left alone, the [readdir] error being swallowed) and makes no
    outward call.  On a directory it removes all that the directory holds:
    with [removeSelf] false the directory is left empty, with [removeSelf]
    true the path no longer resolves.  Whatever is not at or below the path
    keeps its files as they were. *)
Theorem rmDir_contract :
  forall p removeSelf w,
    (removeSelf = true -> p <> []) ->
    exists t,
      Util.rmDir p removeSelf w = (mkWorld t (log w), Resolved tt)
      /\ (forall q m d,
            ~ below p q ->
            Fs.walk q (fs w) = inl (File m d) -> Fs.walk q t = inl (File m d))
      /\ ((forall es, Fs.walk p (fs w) <> inl (Dir es)) -> t = fs w)
      /\ (forall es,
            Fs.walk p (fs w) = inl (Dir es) ->
            if removeSelf
            then well_formed (fs w) = true -> Fs.walk p t = inr "ENOENT"
            else Fs.walk p t = inl (Dir [])).
Proof.
  intros p removeSelf [t0 lg] Hp. cbn [fs log].
  destruct (Fs.walk p t0) as [[m0 d0|es0]|code] eqn:E.
  - exists t0. split; [|repeat split].
    + apply rmDir_not_dir. cbn [fs]. rewrite E. discriminate.
    + now intros q m d _ H.
    + discriminate.
  - exists (Fs.put p (if removeSelf then None else Some (Dir [])) t0).
    split; [|repeat split].
    + now apply (rmDir_wipes _ _ _ es0).
    + intros q m d Hq Hw.
      destruct (put_keeps_outside p (if removeSelf then None else Some (Dir []))
                  q t0 _ Hq Hw) as (n' & Hn & _ & Hf).
      now rewrite Hn, (Hf eq_refl).
    + intros H. now destruct (H es0).
    + intros es _. destruct removeSelf.
      * intros Hwf. apply (walk_removed p t0 _ Hwf E). now apply Hp.
      * now apply (walk_put_same _ _ (Dir es0)).
  - exists t0. split; [|repeat split].
    + apply rmDir_not_dir. cbn [fs]. rewrite E. discriminate.
    + now intros q m d _ H.
    + discriminate.
Qed.

(** Removing the stale installation of 9.9.9.9. *)
Lemma rmDir_contract_example :
  exists t,
    Util.rmDir (runtime_folder Sample.env "9.9.9.9") true Sample.stale
    = (mkWorld t [], Resolved tt)
    /\ Fs.walk (runtime_folder Sample.env "9.9.9.9") t = inr "ENOENT".
Proof.
  destruct (rmDir_contract (runtime_folder Sample.env "9.9.9.9") true
              Sample.stale ltac:(discriminate)) as (t & H & _ & _ & Hgone).
  exists t. split; [exact H|].
  apply (Hgone [("debug.log", File 420 "trace")]); reflexivity.
Defined.

(** Property X12.  [downloadFile] makes one request.  An answer other
    than 200 rejects it, with "Specified runtime not available for OS" for
    404 and "Issue Downloading N" otherwise, and leaves the files alone; a
    200 into an existing directory writes the body to the location (read
    back, the file holds the body) and changes no other file; a failed
    request leaves the promise unsettled, for want of an error handler. *)
Theorem downloadFile_outcomes :
  forall env url parent name es w,
    Fs.walk parent (fs w) = inl (Dir es) ->
    (forall es', Fs.walk (parent ++ [name]) (fs w) <> inl (Dir es')) ->
    (forall statusCode body,
        https_get env url = Response statusCode body ->
        statusCode <> 200%Z ->
        Util.downloadFile env url (parent ++ [name]) w
        = (logged w [EvDownload url (parent ++ [name])],
           Rejected (refusal statusCode)))
    /\ (forall body,
          https_get env url = Response 200 body ->
          exists t mode,
            Util.downloadFile env url (parent ++ [name]) w
            = (mkWorld t (log w ++ [EvDownload url (parent ++ [name])]),
               Resolved tt)
            /\ Fs.walk (parent ++ [name]) t = inl (File mode body)
            /\ (forall q m d,
                  q <> parent ++ [name] ->
                  Fs.walk q (fs w) = inl (File m d) ->
                  Fs.walk q t = inl (File m d)))
    /\ (forall e,
          https_get env url = RequestError e ->
          Util.downloadFile env url (parent ++ [name]) w
          = (logged w [EvDownload url (parent ++ [name])], Pending)).
Proof.
  intros env url parent name es w Hparent Hnodir.
  unfold Util.downloadFile, bind, emit. split; [|split].
  - intros st body Hget Hst. rewrite Hget.
    apply Z.eqb_neq in Hst. rewrite Hst. unfold refusal.
    destruct (st =? 404)%Z; reflexivity.
  - intros body Hget. rewrite Hget. cbn [Z.eqb Pos.eqb].
    assert (Hframe : forall o q m d,
      q <> parent ++ [name] ->
      Fs.walk q (fs w) = inl (File m d) ->
      Fs.walk q (Fs.put (parent ++ [name]) o (fs w)) = inl (File m d)).
    { intros o q m d Hq Hw.
      assert (Hout : ~ below (parent ++ [name]) q).
      { intros [r ->]. destruct r as [|s r].
        - now rewrite app_nil_r in Hq.
        - rewrite walk_app in Hw.
          destruct (Fs.walk (parent ++ [name]) (fs w)) as [[m0 d0|es0]|c];
            try discriminate.
          now destruct (Hnodir es0). }
      destruct (put_keeps_outside (parent ++ [name]) o q (fs w) _ Hout Hw)
        as (n' & Hn & _ & Hf).
      now rewrite Hn, (Hf eq_refl). }
    destruct (Fs.walk (parent ++ [name]) (fs w)) as [[m0 d0|es0]|code] eqn:E.
    + exists (Fs.put (parent ++ [name]) (Some (File m0 body)) (fs w)), m0.
      split; [|split; [|apply Hframe]].
      * assert (E' : Fs.walk (parent ++ [name])
                       (fs (mkWorld (fs w) (log w ++ [EvDownload url (parent ++ [name])])))
                     = inl (File m0 d0)) by exact E.
        now rewrite (write_stream_overwrites _ _ _ body _ E').
      * now apply (walk_put_same _ _ (File m0 d0)).
    + now destruct (Hnodir es0).
    + exists (Fs.put (parent ++ [name]) (Some (File 420 body)) (fs w)), 420%Z.
      split; [|split; [|apply Hframe]].
      * now rewrite (write_stream_creates parent name es body
                       (mkWorld (fs w) (log w ++ [EvDownload url (parent ++ [name])]))
                       code Hparent E).
      * now apply (walk_new_entry _ _ _ es).
  - intros e Hget. now rewrite Hget.
Qed.

Lemma downloadFile_outcomes_example :
  exists t mode,
    Util.downloadFile Sample.env (archive_url "10.65.1.2")
      (Sample.home ++ ["runtime.zip"]) Sample.fresh
    = (mkWorld t [EvDownload (archive_url "10.65.1.2")
                             (Sample.home ++ ["runtime.zip"])],
       Resolved tt)
    /\ Fs.walk (Sample.home ++ ["runtime.zip"]) t = inl (File mode "zip")
    /\ (forall q m d,
          q <> Sample.home ++ ["runtime.zip"] ->
          Fs.walk q (fs Sample.fresh) = inl (File m d) ->
          Fs.walk q t = inl (File m d)).
Proof.
  destruct (downloadFile_outcomes Sample.env (archive_url "10.65.1.2")
              Sample.home "runtime.zip" [] Sample.fresh) as (_ & H & _).
  - reflexivity.
  - intros es'. discriminate.
  - apply (H "zip"). reflexivity.
Defined.

Section DownloadSound.

Variable env : Env.

Lemma download_outside_directory : forall v folder w w1 q,
  (forall es, Fs.walk folder (fs w) <> inl (Dir es)) ->
  MacLaunch.download env v folder w <> (w1, Resolved q).
Proof.
  intros v folder w w1 q Hnd. unfold MacLaunch.download.
  rewrite staging_file_join, staging_dir_join.
  unfold bind at 1. rewrite (rmDir_not_dir _ _ _ Hnd).
  assert (Hs : forall r, exists code, Fs.walk (folder ++ r) (fs w) = inr code
                                      \/ r = []).
  { intros r. rewrite walk_app.
    destruct (Fs.walk folder (fs w)) as [[m d|es]|code] eqn:E.
    - destruct r; [exists ""; now right|exists "ENOTDIR"; now left].
    - now destruct (Hnd es).
    - exists code. now left. }
  assert (Hm : try_catch (Fs.mkdir (staging_dir folder)) (fun _ => ret tt) w
               = (w, Resolved tt)).
  { unfold try_catch, Fs.mkdir, staging_dir.
    destruct (Hs ["tmp"]) as [code [E|E]]; [|discriminate].
    rewrite E, removelast_last.
    destruct (Fs.walk folder (fs w)) as [[m d|es]|code'] eqn:Ef;
      try reflexivity.
    now destruct (Hnd es). }
  unfold bind at 1. rewrite Hm.
  unfold bind at 1. unfold Util.downloadFile, bind at 1, emit.
  destruct (https_get env (MacLaunch.runtimeRoot +++ "mac/x64/" +++ v))
    as [st body|e]; [|discriminate].
  destruct (st =? 200)%Z; [|destruct (st =? 404)%Z; discriminate].
  unfold Fs.write_stream. cbn [fs].
  destruct (Hs ["tmp"; "tmp"]) as [code [E|E]]; [|discriminate].
  unfold staging_file. rewrite E.
  destruct (folder ++ ["tmp"; "tmp"]) as [|a l] eqn:El; [discriminate|].
  rewrite <- El.
  change (folder ++ ["tmp"; "tmp"]) with (folder ++ ["tmp"] ++ ["tmp"]).
  rewrite app_assoc, removelast_last.
  destruct (Hs ["tmp"]) as [code' [E'|E']]; [|discriminate].
  rewrite E'. discriminate.
Qed.

End DownloadSound.

(** Property X13.  [download] resolves only after a complete
    installation: if it resolves, the folder was a directory, the archive
    request was answered 200, [unzip] (run on the cleared folder holding
    the archive in its staging file) succeeded, the staging directory was
    removed from what [unzip] left, the result is the folder, and the
    outward calls were that one request and that one [unzip]. *)
Theorem download_resolves_only_when_unpacked :
  forall env v folder w w1 q,
    MacLaunch.download env v folder w = (w1, Resolved q) ->
    q = folder
    /\ (exists es, Fs.walk folder (fs w) = inl (Dir es))
    /\ (exists body t1 out,
          https_get env (archive_url v) = Response 200 body
          /\ exec env (unzip_command folder)
                  (staged folder [("tmp", File 420 body)] (fs w))
             = (t1, Resolved out)
          /\ fs w1 = without_dir (staging_dir folder) t1)
    /\ log w1 = log w ++ [EvDownload (archive_url v) (staging_file folder);
                          EvExec (unzip_command folder)].
Proof.
  intros env v folder [t lg] w1 q H. cbn [fs log].
  destruct (Fs.walk folder t) as [[m d|es]|code] eqn:E.
  - exfalso. apply (download_outside_directory env v folder (mkWorld t lg) w1 q);
      [|exact H].
    cbn [fs]. rewrite E. discriminate.
  - destruct (https_get env (archive_url v)) as [st body|e] eqn:Hget.
    + destruct (Z.eq_dec st 200) as [->|Hst].
      * destruct (exec env (unzip_command folder)
                    (staged folder [("tmp", File 420 body)] t)) as [t1 r] eqn:Hx.
        rewrite (download_served env v folder t es lg body t1 r E Hget Hx) in H.
        destruct r as [out|e|]; try discriminate.
        injection H as <- <-. cbn [fs log].
        split; [reflexivity|]. split; [now exists es|].
        split; [|reflexivity]. now exists body, t1, out.
      * rewrite (download_refused env v folder t es lg st body E Hget Hst) in H.
        discriminate.
    + exfalso. revert H. unfold MacLaunch.download.
      rewrite staging_file_join.
      pose proof (download_clears folder t es lg E) as Hc.
      unfold bind at 1 in Hc. unfold bind at 1.
      destruct (Util.rmDir folder false (mkWorld t lg)) as [w2 [u|e'|]];
        try discriminate.
      unfold bind at 1. rewrite Hc.
      unfold bind at 1. unfold Util.downloadFile, bind at 1, emit.
      fold (archive_url v). rewrite Hget. discriminate.
  - exfalso. apply (download_outside_directory env v folder (mkWorld t lg) w1 q);
      [|exact H].
    cbn [fs]. rewrite E. discriminate.
Qed.

Lemma download_resolves_example :
  exists body t1 out,
    https_get Sample.env (archive_url "10.65.1.2") = Response 200 body
    /\ exec Sample.env (unzip_command (runtime_folder Sample.env "10.65.1.2"))
            (staged (runtime_folder Sample.env "10.65.1.2")
                    [("tmp", File 420 body)] (fs Sample.installed))
       = (t1, Resolved out)
    /\ fs (fst (MacLaunch.download Sample.env "10.65.1.2"
                  (runtime_folder Sample.env "10.65.1.2") Sample.installed))
       = without_dir (staging_dir (runtime_folder Sample.env "10.65.1.2")) t1.
Proof.
  destruct (download_resolves_only_when_unpacked Sample.env "10.65.1.2"
              (runtime_folder Sample.env "10.65.1.2") Sample.installed
              (fst (MacLaunch.download Sample.env "10.65.1.2"
                      (runtime_folder Sample.env "10.65.1.2") Sample.installed))
              (runtime_folder Sample.env "10.65.1.2")) as (_ & _ & H & _).
  - vm_compute. reflexivity.
  - exact H.
Defined.

(** ** install *)

Section InstallEdges.

Variable env : Env.

Lemma keeps_ret : forall A (a : A), keeps_files (ret a).
Proof. intros A a w w1 r [= <- _]. reflexivity. Qed.

Lemma keeps_reject : forall A e, keeps_files (@reject A e).
Proof. intros A e w w1 r [= <- _]. reflexivity. Qed.

Lemma keeps_emit : forall e, keeps_files (emit e).
Proof. intros e w w1 r [= <- _]. reflexivity. Qed.

Lemma keeps_bind : forall A B (m : M A) (k : A -> M B),
  keeps_files m -> (forall a, keeps_files (k a)) -> keeps_files (bind m k).
Proof.
  intros A B m k Hm Hk w w1 r. unfold bind.
  destruct (m w) as [w2 [a|e|]] eqn:E; pose proof (Hm _ _ _ E) as H2.
  - intros H. rewrite (Hk _ _ _ _ H). exact H2.
  - now intros [= <- _].
  - now intros [= <- _].
Qed.

Lemma keeps_try_catch : forall A (m : M A) h,
  keeps_files m -> (forall e, keeps_files (h e)) -> keeps_files (try_catch m h).
Proof.
  intros A m h Hm Hh w w1 r. unfold try_catch.
  destruct (m w) as [w2 [a|e|]] eqn:E; pose proof (Hm _ _ _ E) as H2.
  - now intros [= <- _].
  - intros H. rewrite (Hh _ _ _ _ H). exact H2.
  - now intros [= <- _].
Qed.

Lemma keeps_get : forall url, keeps_files (Util.get env url).
Proof.
  intros url. unfold Util.get.
  apply keeps_bind; [apply keeps_emit|]. intros _.
  destruct (https_get env url) as [st body|e]; [|apply keeps_reject].
  destruct ((st <? 200)%Z || (299 <? st)%Z); [apply keeps_reject|apply keeps_ret].
Qed.

(** Resolving a version touches no file. *)
Lemma keeps_resolve : forall spec,
  keeps_files (Util.resolveRuntimeVersion env spec).
Proof.
  intros spec. unfold Util.resolveRuntimeVersion.
  assert (C : keeps_files
    (try_catch (Util.get env (Util.channel_url spec))
       (fun _ => reject (Error "Could not resolve runtime version")))).
  { apply keeps_try_catch; [apply keeps_get|]. intros e. apply keeps_reject. }
  match goal with |- keeps_files (if ?b then _ else _) => destruct b end;
    [|exact C].
  match goal with |- keeps_files (if ?b then _ else _) => destruct b end;
    [|apply keeps_ret].
  apply keeps_bind; [apply keeps_get|]. intros res.
  match goal with |- keeps_files (match ?o with Some _ => _ | None => _ end) =>
    destruct o as [m|] end; [|exact C].
  destruct (JS.truthy m); [apply keeps_ret|exact C].
Qed.

Lemma loop_rejects : forall target segs base w w1 e,
  create_or_adopt target base segs w = (w1, Rejected e) ->
  exists code p, e = ErrnoException code p /\ code <> "EEXIST".
Proof.
  intros target; induction segs as [|s segs IH]; intros base w w1 e H.
  - discriminate.
  - cbn [create_or_adopt] in H.
    destruct (Fs.mkdir (target base s) w) as [w2 r2] eqn:Hm.
    destruct r2 as [u|e2|]; simpl in H.
    + apply (IH _ _ _ _ H).
    + destruct (mkdir_rejects _ _ _ _ Hm) as [-> [code ->]].
      simpl in H. destruct (code =? "EEXIST")%string eqn:Ec.
      * apply (IH _ _ _ _ H).
      * injection H as _ <-. exists code, (target base s).
        split; [reflexivity|]. now apply String.eqb_neq.
    + discriminate.
Qed.

(** [install], after the version is resolved. *)
Lemma install_after_resolve : forall spec w w0 v,
  Util.resolveRuntimeVersion env spec w = (w0, Resolved v) ->
  MacLaunch.install env spec w
  = (rtFolder <- MacLaunch.getRuntimePath env v ;;
     let rtPath := path_join rtFolder "OpenFin.app/Contents/MacOS/OpenFin" in
     exists_ <- try_catch (n <- Fs.stat rtPath ;; ret true)
                          (fun _ => ret false) ;;
     (if exists_ : bool
      then Fs.chmod rtPath 493
      else
        try_catch
          (MacLaunch.download env v rtFolder ;;; ret tt)
          (fun _ => reject (install_error spec v))) ;;;
     ret rtPath) w0.
Proof.
  intros spec w w0 v H. unfold MacLaunch.install.
  unfold bind at 1. now rewrite H.
Qed.

End InstallEdges.

(** Property X14.  A rejection of [install] is one of three.  The
    resolver's own rejection, passed on as it is, with no file touched and
    no directory made.  Or the error of a directory creation, a system
    error other than EEXIST.  Or, for every failure of the download or the
    extraction, "Could not install runtime <spec> (<version>)", which names
    the spec as given and the version it resolved to, and drops the cause. *)
Theorem install_rejections :
  forall env spec w w1 e,
    MacLaunch.install env spec w = (w1, Rejected e) ->
    (Util.resolveRuntimeVersion env spec w = (w1, Rejected e)
     /\ fs w1 = fs w)
    \/ exists w0 v,
         Util.resolveRuntimeVersion env spec w = (w0, Resolved v)
         /\ fs w0 = fs w
         /\ ((MacLaunch.getRuntimePath env v w0 = (w1, Rejected e)
              /\ exists code p, e = ErrnoException code p /\ code <> "EEXIST")
             \/ e = install_error spec v).
Proof.
  intros env spec w w1 e H.
  destruct (Util.resolveRuntimeVersion env spec w) as [w0 [v|e0|]] eqn:Hr.
  - right. exists w0, v. split; [reflexivity|].
    split; [apply (keeps_resolve env _ _ _ _ Hr)|].
    rewrite (install_after_resolve env _ _ _ _ Hr) in H.
    unfold bind at 1 in H.
    destruct (MacLaunch.getRuntimePath env v w0) as [w2 [folder|e2|]] eqn:Hg;
      try discriminate.
    + right. revert H. unfold bind at 1, try_catch at 1, bind at 1.
      unfold Fs.stat.
      destruct (Fs.walk (path_join folder "OpenFin.app/Contents/MacOS/OpenFin")
                        (fs w2)) as [n|code] eqn:Hb.
      * unfold ret at 1 2. unfold bind.
        rewrite chmod_run by now exists n. discriminate.
      * unfold Fs.fails, reject at 1. unfold ret at 1.
        unfold bind at 1, try_catch at 1, bind at 1.
        destruct (MacLaunch.download env v folder w2) as [w3 [f|e3|]];
          try discriminate.
        unfold reject. now intros [= _ <-].
    + left. injection H as <- <-. split; [reflexivity|].
      rewrite getRuntimePath_is_loop in Hg. apply (loop_rejects _ _ _ _ _ _ Hg).
  - left. unfold MacLaunch.install, bind at 1 in H. rewrite Hr in H.
    injection H as <- <-. split; [reflexivity|].
    apply (keeps_resolve env _ _ _ _ Hr).
  - unfold MacLaunch.install, bind at 1 in H. rewrite Hr in H. discriminate.
Qed.

Lemma install_rejections_example :
  (Util.resolveRuntimeVersion Sample.env "stable" Sample.fresh
   = (logged Sample.fresh [EvGet (Util.channel_url "stable")],
      Rejected (Error "Could not resolve runtime version"))
   /\ fs (logged Sample.fresh [EvGet (Util.channel_url "stable")])
      = fs Sample.fresh)
  \/ exists w0 v,
       Util.resolveRuntimeVersion Sample.env "stable" Sample.fresh
       = (w0, Resolved v)
       /\ fs w0 = fs Sample.fresh
       /\ ((MacLaunch.getRuntimePath Sample.env v w0
            = (logged Sample.fresh [EvGet (Util.channel_url "stable")],
               Rejected (Error "Could not resolve runtime version"))
            /\ exists code p,
                 Error "Could not resolve runtime version"
                 = ErrnoException code p /\ code <> "EEXIST")
           \/ Error "Could not resolve runtime version"
              = install_error "stable" v).
Proof.
  apply (install_rejections Sample.env "stable" Sample.fresh).
  reflexivity.
Defined.

(** Property X15.  [install] installs what the resolver answers: when the
    spec (a channel name, a pattern) resolves to a concrete version whose
    binary is present, [install] returns the binary's path under
    [<home>/OpenFin/Runtime/<resolved version>], and beyond the resolver's
    requests its one outward call is the chmod. *)
Theorem install_uses_resolved_version :
  forall env spec w w0 v n,
    Util.resolveRuntimeVersion env spec w = (w0, Resolved v) ->
    concrete_version v ->
    Fs.walk (binary_path env v) (fs w) = inl n ->
    MacLaunch.install env spec w
    = (mkWorld (chmod_tree (binary_path env v) 493 (fs w))
               (log w0 ++ [EvChmod (binary_path env v) 493]),
       Resolved (binary_path env v)).
Proof.
  intros env spec w w0 v n Hr Hv Hn.
  pose proof (keeps_resolve env _ _ _ _ Hr) as Hfs.
  rewrite (install_after_resolve env _ _ _ _ Hr). rewrite <- Hfs in Hn |- *.
  unfold bind at 1. rewrite getRuntimePath_is_loop.
  assert (Hf : exists c, Fs.walk (runtime_folder env v) (fs w0) = inl c).
  { unfold binary_path in Hn. rewrite walk_app in Hn.
    destruct (Fs.walk (runtime_folder env v) (fs w0));
      [now eexists|discriminate]. }
  destruct Hf as [c Hc].
  rewrite (loop_adopts_existing path_join plain_join _ _ _ c
             (version_segments_plain _ Hv) Hc).
  fold (runtime_folder env v). cbv zeta. rewrite binary_join.
  fold (binary_path env v).
  unfold bind at 1. unfold try_catch, bind at 1.
  unfold Fs.stat. rewrite Hn. unfold ret at 1 2.
  unfold bind. rewrite chmod_run by now exists n. reflexivity.
Qed.

Lemma install_uses_resolved_version_example :
  MacLaunch.install Sample.env_with_channel "stable" Sample.installed
  = (mkWorld (chmod_tree (binary_path Sample.env_with_channel "10.65.1.2") 493
                         (fs Sample.installed))
             (log (logged Sample.installed [EvGet (Util.channel_url "stable")])
              ++ [EvChmod (binary_path Sample.env_with_channel "10.65.1.2") 493]),
     Resolved (binary_path Sample.env_with_channel "10.65.1.2")).
Proof.
  apply (install_uses_resolved_version Sample.env_with_channel "stable"
           Sample.installed
           (logged Sample.installed [EvGet (Util.channel_url "stable")])
           "10.65.1.2" (File 420 "binary")).
  - reflexivity.
  - split; [reflexivity|repeat constructor].
  - reflexivity.
Defined.

(** ** launch *)

Section LaunchEdges.

Lemma length_split_char : forall c s,
  List.length (JS.split (String c "") s) = S (occurrences c s).
Proof.
  intros c s; induction s as [|a s IH].
  - reflexivity.
  - rewrite (split_cons c). cbn [occurrences].
    destruct (ascii_dec c a).
    + cbn [List.length]. now rewrite IH.
    + pose proof (split_go_nonnil (String c "") s 0) as Hn.
      fold (JS.split (String c "") s) in Hn.
      destruct (JS.split (String c "") s) as [|h t]; [contradiction|].
      exact IH.
Qed.

Lemma spawns_spawned : forall w command args,
  spawns (fst (spawned w command args)) = spawns w ++ [EvSpawn command args].
Proof.
  intros w command args. unfold spawned, spawns, logged. cbn [fst log].
  now rewrite filter_app.
Qed.

End LaunchEdges.

(** Property X16.  [launch] spawns at most one process, and only when it
    resolves: a resolved [launch] has spawned exactly the process whose
    handle it returns, after whatever was spawned before; a rejected or
    unsettled [launch] has spawned nothing. *)
Theorem launch_spawns_once_or_never :
  forall env config manifest pipe w w1 r,
    MacLaunch.launch env config manifest pipe w = (w1, r) ->
    match r with
    | Resolved child =>
        spawns w1 = spawns w ++ [EvSpawn (MacLaunch.spawnfile child)
                                         (MacLaunch.spawnargs child)]
    | Rejected _ => spawns w1 = spawns w
    | Pending => spawns w1 = spawns w
    end.
Proof.
  intros env config manifest pipe w w1 r. rewrite launch_run.
  destruct (MacLaunch.install env (MacLaunch.version (MacLaunch.runtime config)) w)
    as [w2 r2] eqn:H1.
  pose proof (spawn_free_install env _ _ _ _ H1) as S1.
  destruct r2 as [runtimePath|e|].
  - intros H.
    pose proof (spawns_spawned w2 (path_string runtimePath)
                  (argument_vector config manifest
                     (MacLaunch.version (MacLaunch.runtime config)) pipe)) as Sp.
    rewrite H in Sp. cbn [fst] in Sp. injection H as _ <-.
    cbn [MacLaunch.spawnfile MacLaunch.spawnargs]. now rewrite Sp, S1.
  - destruct (MacLaunch.fallbackVersion (MacLaunch.runtime config))
      as [fallback|].
    + destruct (MacLaunch.install env fallback w2) as [w3 r3] eqn:H2.
      pose proof (spawn_free_install env _ _ _ _ H2) as S2.
      destruct r3 as [runtimePath|e'|].
      * intros H.
        pose proof (spawns_spawned w3 (path_string runtimePath)
                      (argument_vector config manifest fallback pipe)) as Sp.
        rewrite H in Sp. cbn [fst] in Sp. injection H as _ <-.
        cbn [MacLaunch.spawnfile MacLaunch.spawnargs]. now rewrite Sp, S2, S1.
      * intros [= <- <-]. congruence.
      * intros [= <- <-]. congruence.
    + now intros [= <- <-].
  - now intros [= <- <-].
Qed.

Lemma launch_spawns_once_example :
  spawns (fst (MacLaunch.launch Sample.env
                 (Sample.config "1.2.3.4" (Some "5.6.7.8") None)
                 "app.json" "pipe" Sample.fresh))
  = spawns Sample.fresh.
Proof.
  apply (launch_spawns_once_or_never Sample.env
           (Sample.config "1.2.3.4" (Some "5.6.7.8") None)
           "app.json" "pipe" Sample.fresh _
           (Rejected (Error "Could not install runtime 5.6.7.8 (5.6.7.8)"))).
  vm_compute. reflexivity.
Defined.

(** Property X17.  When the installation of the requested version
    resolves, the fallback is not touched (the world is the one that
    installation left, plus the spawn), and the version keyword is the
    configured string as it stands: for a pattern or a channel name it is
    the pattern or the name, not the version that was resolved and whose
    binary is spawned. *)
Theorem launch_keyword_is_configured_version :
  forall env config manifest pipe w w1 runtimePath,
    MacLaunch.install env (MacLaunch.version (MacLaunch.runtime config)) w
    = (w1, Resolved runtimePath) ->
    MacLaunch.launch env config manifest pipe w
    = spawned w1 (path_string runtimePath)
        (("--startup-url=" +++ manifest) :: extra_arguments config
         ++ ["--version-keyword="
             +++ MacLaunch.version (MacLaunch.runtime config);
             "--runtime-information-channel-v6=" +++ pipe]
         ++ optional_arguments config).
Proof.
  intros env config manifest pipe w w1 runtimePath H.
  now rewrite launch_run, H.
Qed.

(** ["10.*.*.*"] with a fallback configured: the binary of 10.65.1.2 is
    spawned, with the pattern as version keyword. *)
Lemma launch_keyword_example :
  MacLaunch.launch Sample.env
    (Sample.config "10.*.*.*" (Some "9.0.0.0") None)
    "app.json" "pipe" Sample.installed
  = spawned
      (mkWorld (chmod_tree (binary_path Sample.env "10.65.1.2") 493
                           (fs Sample.installed))
               [EvGet Util.index_url;
                EvChmod (binary_path Sample.env "10.65.1.2") 493])
      (path_string (binary_path Sample.env "10.65.1.2"))
      ["--startup-url=app.json"; "--version-keyword=10.*.*.*";
       "--runtime-information-channel-v6=pipe"].
Proof.
  apply (launch_keyword_is_configured_version Sample.env
           (Sample.config "10.*.*.*" (Some "9.0.0.0") None)
           "app.json" "pipe" Sample.installed).
  vm_compute. reflexivity.
Defined.

(** Property X18.  The caller's extra arguments are the pieces of the
    configured string between its spaces, all of them: a resolved [launch]
    passes, right after the startup manifest, one argument more than the
    string has spaces (so an empty argument for every doubled, leading or
    trailing space), and joined by spaces they give the string back.  An
    absent or empty string adds no argument at all. *)
Theorem launch_extra_arguments_round_trip :
  forall env config manifest pipe w w1 child,
    MacLaunch.launch env config manifest pipe w = (w1, Resolved child) ->
    exists extras rest,
      MacLaunch.spawnargs child
      = ("--startup-url=" +++ manifest) :: extras ++ rest
      /\ (2 <= List.length rest)%nat
      /\ match MacLaunch.additionalArgument (MacLaunch.runtime config) with
         | Some (String a s) =>
             JS.join " " extras = String a s
             /\ List.length extras = S (occurrences " " (String a s))
         | _ => extras = []
         end.
Proof.
  intros env config manifest pipe w w1 child H.
  assert (A : exists keyword,
    MacLaunch.spawnargs child = argument_vector config manifest keyword pipe).
  { rewrite launch_run in H.
    destruct (MacLaunch.install env
                (MacLaunch.version (MacLaunch.runtime config)) w)
      as [w2 [runtimePath|e|]]; try discriminate.
    - injection H as _ <-. now eexists.
    - destruct (MacLaunch.fallbackVersion (MacLaunch.runtime config))
        as [fallback|]; [|discriminate].
      destruct (MacLaunch.install env fallback w2) as [w3 [runtimePath|e'|]];
        try discriminate.
      injection H as _ <-. now eexists. }
  destruct A as [keyword ->]. unfold argument_vector.
  exists (extra_arguments config). eexists. split; [reflexivity|].
  split; [simpl; lia|].
  unfold extra_arguments.
  destruct (MacLaunch.additionalArgument (MacLaunch.runtime config))
    as [[|a s]|]; try reflexivity.
  cbn [JS.truthy]. split.
  - apply (join_split " "%char).
  - apply (length_split_char " "%char).
Qed.

(** ["--a  --b"], with two spaces, gives three extra arguments, the middle
    one empty. *)
Lemma launch_extra_arguments_example :
  exists extras rest,
    ["--startup-url=app.json"; "--a"; ""; "--b";
     "--version-keyword=10.65.1.2"; "--runtime-information-channel-v6=pipe"]
    = "--startup-url=app.json" :: extras ++ rest
    /\ (2 <= List.length rest)%nat
    /\ JS.join " " extras = "--a  --b"
    /\ List.length extras = 3%nat.
Proof.
  destruct (launch_extra_arguments_round_trip Sample.env
              (Sample.config "10.65.1.2" None (Some "--a  --b"))
              "app.json" "pipe" Sample.installed
              (fst (MacLaunch.launch Sample.env
                      (Sample.config "10.65.1.2" None (Some "--a  --b"))
                      "app.json" "pipe" Sample.installed))
              (MacLaunch.mkChildProcess
                 (path_string (binary_path Sample.env "10.65.1.2"))
                 ["--startup-url=app.json"; "--a"; ""; "--b";
                  "--version-keyword=10.65.1.2";
                  "--runtime-information-channel-v6=pipe"]))
    as (extras & rest & H1 & H2 & H3 & H4).
  - vm_compute. reflexivity.
  - exists extras, rest. repeat split; assumption.
Defined.
